(** * SysMon: a shallow embedding of [system_monitor.cpp]

    The development follows the source file top-down: machine integers,
    the text primitives of the C++ standard library the program calls
    ([getline], [operator>>], [stoull], [stol]), binary64 arithmetic, the
    two snapshot records, [read_proc], the body of the main loop (one
    "tick"), the two comparators handed to [std::sort], and then
    [read_cpu_line], [list_pids], the keyboard and the kill prompt.

    Modelling conventions.
    - [unsigned long long] and [unsigned long] are integers in [Z] reduced
      modulo [2^64] after every operation; [int] stays in [Z] where the
      program cannot leave its range.
    - A [double] is the rational ([Q]) it stands for, and [==] and [>] on
      doubles are the comparisons of [Q].  Conversions, products and
      quotients are rounded to the nearest number of 53 significant bits,
      ties to even ([Binary64.round]).  The exponent range of binary64 is
      not modelled: the one expression the program evaluates,
      [100.0 * (double)n / (double)d] on 64-bit [n] and [d > 0], stays
      between [2^-58] and [2^71].  Module [IEEE754] evaluates the same
      expression with the Standard Library's specification of IEEE 754,
      against which the rounding is checked on sample inputs.
    - A variable that is read before anything was stored in it
      ([val], [real_uid]) holds some value of its type, which the
      language does not fix; that value is an input ([indeterminate]).
    - A C++ exception that nothing catches is the [Throw] outcome of the
      [result] monad: [main] has no handler, so the program ends there.
    - The files under [/proc] are an input of the tick ([ProcFiles]);
      [None] stands for a file that cannot be opened.
    - [std::sort] is not part of the repository; the tick takes it as a
      parameter and the theorems assume its library contract only. *)

From Stdlib Require Import ZArith QArith Qround Qabs Qpower Lqa Lia String Ascii List.
From Stdlib Require Import Sorting.Sorted Sorting.Permutation.
From Stdlib Require Import Floats.SpecFloat.
From stdpp Require Import base option list sorting gmap strings pretty.

Local Open Scope Z_scope.

(** ** Machine integers *)

Module Machine.

Definition U64 : Z := 2 ^ 64.
Definition U32 : Z := 2 ^ 32.
Definition LONG_MAX : Z := 2 ^ 63 - 1.
Definition LONG_MIN : Z := - 2 ^ 63.

(** Conversion of a mathematical integer to [unsigned long long]
    (also [unsigned long] and [size_t] on the LP64 target). *)
Definition wrap64 (z : Z) : Z := z mod U64.

Definition add64 (a b : Z) : Z := wrap64 (a + b).
Definition sub64 (a b : Z) : Z := wrap64 (a - b).

Definition is_u64 (z : Z) : Prop := 0 <= z < U64.

End Machine.
Export Machine.

(** ** Exceptions *)

Inductive exn : Set := invalid_argument | out_of_range.

Inductive result (A : Type) : Type :=
| Ok (a : A)
| Throw (e : exn).
Arguments Ok {A} a.
Arguments Throw {A} e.

Definition bind {A B} (r : result A) (k : A -> result B) : result B :=
  match r with
  | Ok a => k a
  | Throw e => Throw e
  end.

Notation "'do' x <- r ; k" := (bind r (fun x => k))
  (at level 10, x name, r at level 100, k at level 200).

(** The [for] loop over a vector whose body may throw. *)
Fixpoint for_each {A B} (f : A -> result B) (l : list A) : result (list B) :=
  match l with
  | [] => Ok []
  | x :: l' => do y <- f x; do ys <- for_each f l'; Ok (y :: ys)
  end.

(** ** Text primitives *)

Module Text.

Definition NUL : ascii := ascii_of_nat 0.
Definition LF : ascii := ascii_of_nat 10.
Definition SP : ascii := ascii_of_nat 32.

Definition code (c : ascii) : Z := Z.of_N (N_of_ascii c).

(** [isspace] and [isdigit] in the "C" locale. *)
Definition isspace (c : ascii) : bool :=
  (code c =? 32) || ((9 <=? code c) && (code c <=? 13)).
Definition isdigit (c : ascii) : bool :=
  (48 <=? code c) && (code c <=? 57).
Definition digit_val (c : ascii) : Z := code c - 48.

Definition is_empty (s : string) : bool :=
  match s with EmptyString => true | String _ _ => false end.

Definition push_back (s : string) (c : ascii) : string :=
  s +:+ String c EmptyString.

(** [getline(f, s, delim)] on a fresh stream: the characters before the
    first [delim]; the delimiter itself is extracted and dropped. *)
Fixpoint getline (delim : ascii) (s : string) : string :=
  match s with
  | EmptyString => EmptyString
  | String c s' =>
      if Ascii.eqb c delim then EmptyString else String c (getline delim s')
  end.

(** [while (getline(f, line))]: every line of the file; a last line
    without a newline still counts, nothing after a final newline does. *)
Fixpoint lines_from (s : string) (cur : string) (started : bool) : list string :=
  match s with
  | EmptyString => if started then [cur] else []
  | String c s' =>
      if Ascii.eqb c LF then cur :: lines_from s' EmptyString false
      else lines_from s' (push_back cur c) true
  end.
Definition lines (s : string) : list string := lines_from s EmptyString false.

(** [while (ss >> token) fields.push_back(token)]. *)
Fixpoint tokens_from (s : string) (cur : string) : list string :=
  match s with
  | EmptyString => if is_empty cur then [] else [cur]
  | String c s' =>
      if isspace c
      then (if is_empty cur then tokens_from s' EmptyString
            else cur :: tokens_from s' EmptyString)
      else tokens_from s' (push_back cur c)
  end.
Definition tokens (s : string) : list string := tokens_from s EmptyString.

(** [line.rfind(p, 0) == 0]: [p] is a prefix of [line]. *)
Fixpoint starts_with (p : string) (line : string) : bool :=
  match p, line with
  | EmptyString, _ => true
  | String a p', String b line' => Ascii.eqb a b && starts_with p' line'
  | String _ _, EmptyString => false
  end.

Fixpoint skip_ws (s : string) : string :=
  match s with
  | EmptyString => EmptyString
  | String c s' => if isspace c then skip_ws s' else s
  end.

(** What is left in the stream after [ss >> label]. *)
Fixpoint drop_word (s : string) : string :=
  match s with
  | EmptyString => EmptyString
  | String c s' => if isspace c then s else drop_word s'
  end.
Definition after_label (line : string) : string := drop_word (skip_ws line).

(** The decimal digits a numeric conversion consumes. *)
Fixpoint digits (s : string) : list Z :=
  match s with
  | EmptyString => []
  | String c s' => if isdigit c then digit_val c :: digits s' else []
  end.
Definition decimal (ds : list Z) : Z := fold_left (fun acc d => 10 * acc + d) ds 0.

(** Leading white space, an optional sign, then digits: the subject
    sequence shared by [strtoull], [strtol] and [num_get].  [None] when
    there is no digit; otherwise the sign and the magnitude. *)
Definition scan_int (s : string) : option (bool * Z) :=
  let s := skip_ws s in
  let '(neg, body) :=
    match s with
    | String c s' =>
        if Ascii.eqb c "-"%char then (true, s')
        else if Ascii.eqb c "+"%char then (false, s')
        else (false, s)
    | EmptyString => (false, s)
    end in
  match digits body with
  | [] => None
  | ds => Some (neg, decimal ds)
  end.

(** [std::stoull(str)]: [strtoull] in base 10, [invalid_argument] when
    nothing converts, [out_of_range] on [ERANGE]; a minus sign negates
    in the unsigned type. *)
Definition stoull (s : string) : result Z :=
  match scan_int s with
  | None => Throw invalid_argument
  | Some (neg, m) =>
      if U64 <=? m then Throw out_of_range
      else Ok (if neg then wrap64 (- m) else m)
  end.

(** [std::stol(str)] on a 64-bit [long]. *)
Definition stol (s : string) : result Z :=
  match scan_int s with
  | None => Throw invalid_argument
  | Some (neg, m) =>
      let v := if neg then - m else m in
      if (v <? LONG_MIN) || (LONG_MAX <? v) then Throw out_of_range
      else Ok v
  end.

(** The value [num_get] stores for an unsigned type of modulus [M] when
    the conversion runs on what is left of the stream: 0 when no digit is
    found, the largest value on overflow (C++11). *)
Definition extract_unsigned (M : Z) (s : string) : Z :=
  match scan_int s with
  | None => 0
  | Some (neg, m) =>
      if M <=? m then M - 1
      else if neg then (- m) mod M else m
  end.

End Text.
Export Text.

(** ** Formatted input from a string stream *)

(** A [stringstream]: the characters not yet read and the fail state. *)
Record istream : Set := {
  buf : string;
  failed : bool
}.

Definition open_stream (s : string) : istream := {| buf := s; failed := false |}.

(** [ss >> label] for a [std::string] whose value is not used afterwards:
    white space is skipped, then a word is taken; with nothing left the
    stream fails. *)
Definition extract_label (ss : istream) : istream :=
  if failed ss then ss
  else if is_empty (skip_ws (buf ss)) then {| buf := EmptyString; failed := true |}
  else {| buf := drop_word (skip_ws (buf ss)); failed := false |}.

Fixpoint drop_digits (s : string) : string :=
  match s with
  | EmptyString => EmptyString
  | String c s' => if isdigit c then drop_digits s' else s
  end.

(** What a numeric conversion leaves in the stream: it consumes white
    space, one sign and the digits that follow. *)
Definition drop_int (s : string) : string :=
  let s := skip_ws s in
  match s with
  | String c s' =>
      if Ascii.eqb c "-"%char || Ascii.eqb c "+"%char then drop_digits s'
      else drop_digits s
  | EmptyString => EmptyString
  end.

(** The conversion sets [failbit]: no digit, or a value that does not fit. *)
Definition conversion_fails (M : Z) (s : string) : bool :=
  match scan_int s with
  | None => true
  | Some (_, m) => M <=? m
  end.

(** [ss >> x] for an unsigned [x] of modulus [M] that holds [cur].  On a
    failed stream, or when only white space is left, [x] keeps its value;
    a conversion that runs stores its result ([extract_unsigned]). *)
Definition extract_uint (M : Z) (ss : istream) (cur : Z) : istream * Z :=
  if failed ss then (ss, cur)
  else if is_empty (skip_ws (buf ss))
  then ({| buf := EmptyString; failed := true |}, cur)
  else ({| buf := drop_int (buf ss); failed := conversion_fails M (buf ss) |},
        extract_unsigned M (buf ss)).

(** [ss >> x] for an [unsigned long long]. *)
Definition extract_u64 (ss : istream) (cur : Z) : istream * Z :=
  extract_uint U64 ss cur.

(** [stringstream ss(line); ss >> label >> x] for an unsigned [x] of modulus
    [M] that holds [cur]: what [x] holds afterwards. *)
Definition extract_after_label (M : Z) (line : string) (cur : Z) : Z :=
  snd (extract_uint M (extract_label (open_stream line)) cur).

(** ** Snapshots *)

Module Cpu.

Record CpuSnapshot : Set := mk {
  user : Z; nice : Z; system : Z; idle : Z; iowait : Z;
  irq : Z; softirq : Z; steal : Z; guest : Z; guest_nice : Z
}.

Definition total (s : CpuSnapshot) : Z :=
  add64 (add64 (add64 (add64 (add64 (add64 (add64 (add64 (add64
    (user s) (nice s)) (system s)) (idle s)) (iowait s)) (irq s))
    (softirq s)) (steal s)) (guest s)) (guest_nice s).

Definition idleAll (s : CpuSnapshot) : Z := add64 (idle s) (iowait s).

(** [CpuSnapshot s = {0}]. *)
Definition zero : CpuSnapshot := mk 0 0 0 0 0 0 0 0 0 0.

(** The sum of the ten counters before reduction to 64 bits. *)
Definition sum (s : CpuSnapshot) : Z :=
  user s + nice s + system s + idle s + iowait s
  + irq s + softirq s + steal s + guest s + guest_nice s.

(** Every counter holds an [unsigned long long]. *)
Definition wf (s : CpuSnapshot) : Prop :=
  is_u64 (user s) /\ is_u64 (nice s) /\ is_u64 (system s) /\
  is_u64 (idle s) /\ is_u64 (iowait s) /\ is_u64 (irq s) /\
  is_u64 (softirq s) /\ is_u64 (steal s) /\ is_u64 (guest s) /\
  is_u64 (guest_nice s).

(** Counter-wise order: no counter of [p] exceeds the one of [c]. *)
Definition le (p c : CpuSnapshot) : Prop :=
  user p <= user c /\ nice p <= nice c /\ system p <= system c /\
  idle p <= idle c /\ iowait p <= iowait c /\ irq p <= irq c /\
  softirq p <= softirq c /\ steal p <= steal c /\ guest p <= guest c /\
  guest_nice p <= guest_nice c.

End Cpu.
Abbreviation CpuSnapshot := Cpu.CpuSnapshot.

(** ** Binary64 arithmetic *)

Module Binary64.

Definition prec : Z := 53.

(** The integer nearest to a rational, a tie going to the even one. *)
Definition nearest_even (x : Q) : Z :=
  let f := Qfloor x in
  match (x - inject_Z f ?= 1 # 2)%Q with
  | Lt => f
  | Gt => f + 1
  | Eq => if Z.even f then f else f + 1
  end.

(** The magnitude of a rational other than 0: the [m] with
    [2^(m-1) <= |x| < 2^m]. *)
Definition mag (x : Q) : Z :=
  let k := Z.log2 (Z.abs (Qnum x)) - Z.log2 (Z.pos (Qden x)) in
  if Qle_bool (2 ^ k) (Qabs x) then k + 1 else k.

(** Rounding to the nearest number of [prec] significant bits, ties to
    even: the significand is the nearest integer to [x / 2^e], for the
    exponent [e] that puts it between [2^52] and [2^53]. *)
Definition round (x : Q) : Q :=
  if Qeq_bool x 0 then 0%Q
  else let e := mag x - prec in
       (inject_Z (nearest_even (x / 2 ^ e)) * 2 ^ e)%Q.

(** [(double)n] for an unsigned 64-bit [n], [x * y] and [x / y] (the
    program divides by a positive number only). *)
Definition of_u64 (n : Z) : Q := round (inject_Z n).
Definition mul (x y : Q) : Q := round (x * y).
Definition div (x y : Q) : Q := round (x / y).

(** One unit in the last place of 100. *)
Definition ulp_100 : Q := (2 ^ (-46))%Q.

End Binary64.

(** [100.0 * (double)n / (double)d]. *)
Definition percent (n d : Z) : Q :=
  Binary64.div (Binary64.mul 100 (Binary64.of_u64 n)) (Binary64.of_u64 d).

(** The same expression in the Standard Library's specification of
    IEEE 754 binary64, round to nearest even. *)
Module IEEE754.

Definition prec : Z := 53.
Definition emax : Z := 1024.

Definition of_u64 (n : Z) : spec_float := binary_normalize prec emax n 0 false.

Definition percent (n d : Z) : spec_float :=
  SFdiv prec emax (SFmul prec emax (of_u64 100) (of_u64 n)) (of_u64 d).

(** The rational a finite binary64 number stands for. *)
Definition to_Q (x : spec_float) : option Q :=
  match x with
  | S754_zero _ => Some 0%Q
  | S754_finite s m e =>
      Some ((if s then -1 else 1) * inject_Z (Z.pos m) * 2 ^ e)%Q
  | S754_infinity _ | S754_nan => None
  end.

End IEEE754.

(** [percent] and [IEEE754.percent] give the same number. *)
Definition same_percent (nd : Z * Z) : bool :=
  match IEEE754.to_Q (IEEE754.percent (fst nd) (snd nd)) with
  | Some q => Qeq_bool q (percent (fst nd) (snd nd))
  | None => false
  end.

Module Proc.

Record ProcSnapshot : Type := mk {
  pid : Z;
  user : string;
  cmd : string;
  utime : Z;
  stime : Z;
  rss : Z;
  cpu_percent : Q;
  mem_percent : Q
}.

Definition total_time (p : ProcSnapshot) : Z := add64 (utime p) (stime p).

Definition set_cpu_percent (x : Q) (p : ProcSnapshot) : ProcSnapshot :=
  mk (pid p) (user p) (cmd p) (utime p) (stime p) (rss p) x (mem_percent p).
Definition set_mem_percent (x : Q) (p : ProcSnapshot) : ProcSnapshot :=
  mk (pid p) (user p) (cmd p) (utime p) (stime p) (rss p) (cpu_percent p) x.

End Proc.
Abbreviation ProcSnapshot := Proc.ProcSnapshot.

(** ** The process files and the environment *)

(** The pseudo-files of one process; [None] is a file that does not open. *)
Record ProcFiles : Set := {
  f_cmdline : option string;
  f_comm : option string;
  f_stat : option string;
  f_status : option string
}.

(** What the program reads from the system besides [/proc]:
    [sysconf(_SC_PAGESIZE)], the password database, and what a variable
    that was never written holds when the line given is parsed. *)
Record Env : Type := {
  page_size : Z;
  getpwuid : Z -> option string;
  indeterminate : string -> Z
}.

Definition uid_to_user (env : Env) (uid : Z) : string :=
  match getpwuid env uid with
  | Some name => name
  | None => pretty uid
  end.

(** ** [read_proc] *)

(** The loop [for (char &c : cmd) if (c == '\0') c = ' ']. *)
Fixpoint replace_nul (s : string) : string :=
  match s with
  | EmptyString => EmptyString
  | String c s' => String (if Ascii.eqb c NUL then SP else c) (replace_nul s')
  end.

(** Lines 99-116: the command column. *)
Definition read_cmd (fs : ProcFiles) : string :=
  match f_cmdline fs with
  | Some content =>
      let cmd := getline NUL content in
      let cmd :=
        if is_empty cmd then
          match f_comm fs with
          | Some comm => getline LF comm
          | None => cmd
          end
        else cmd in
      replace_nul cmd
  | None => EmptyString
  end.

(** The three numbers [read_proc] takes from the stat line. *)
Record StatFields : Set := {
  sf_utime : Z;
  sf_stime : Z;
  sf_rss : Z
}.

Definition no_stat : StatFields := {| sf_utime := 0; sf_stime := 0; sf_rss := 0 |}.

(** [fields[i]] under the guard [fields.size() >= 24]. *)
Definition field (fields : list string) (i : nat) : string :=
  nth i fields EmptyString.

(** Lines 119-137.  [p.rss = rss_pages * page_size_kb] is a product of two
    [long] stored in an [unsigned long]: the mathematical product reduced
    modulo [2^64] (a product outside [long] is taken to wrap). *)
Definition read_stat (env : Env) (fs : ProcFiles) : result StatFields :=
  match f_stat fs with
  | Some file =>
      let content := getline LF file in
      let fields := tokens content in
      if (24 <=? length fields)%nat then
        do utime <- stoull (field fields 13);
        do stime <- stoull (field fields 14);
        do rss_pages <- stol (field fields 23);
        let page_size_kb := page_size env / 1024 in
        Ok {| sf_utime := utime; sf_stime := stime;
              sf_rss := wrap64 (rss_pages * page_size_kb) |}
      else Ok no_stat
  | None => Ok no_stat
  end.

(** Lines 140-151: every [Uid:] line overwrites the user.  [real_uid] is
    declared without a value in each iteration. *)
Definition read_user (env : Env) (fs : ProcFiles) : string :=
  match f_status fs with
  | Some file =>
      fold_left
        (fun user line =>
           if starts_with "Uid:" line
           then let real_uid := indeterminate env line mod U32 in
                uid_to_user env (extract_after_label U32 line real_uid)
           else user)
        (lines file) EmptyString
  | None => EmptyString
  end.

Definition read_proc (env : Env) (fs : ProcFiles) (pid : Z) : result ProcSnapshot :=
  let cmd := read_cmd fs in
  do st <- read_stat env fs;
  let user := read_user env fs in
  Ok (Proc.mk pid user cmd (sf_utime st) (sf_stime st) (sf_rss st) 0%Q 0%Q).

(** ** Memory *)

(** [read_total_memory_kb]: the first [MemTotal:] line decides.  [val] is
    declared without a value. *)
Fixpoint find_mem_total (env : Env) (ls : list string) : Z :=
  match ls with
  | [] => 0
  | line :: ls' =>
      if starts_with "MemTotal:" line
      then let val := indeterminate env line mod U64 in
           extract_after_label U64 line val
      else find_mem_total env ls'
  end.

Definition read_total_memory_kb (env : Env) (meminfo : option string) : Z :=
  match meminfo with
  | Some file => find_mem_total env (lines file)
  | None => 0
  end.

Record MemLines : Set := {
  mem_available : Z;
  mem_free : Z
}.

(** Lines 232-247: both values start at 0, every matching line overwrites;
    [val] is declared without a value in each branch. *)
Definition scan_meminfo (env : Env) (meminfo : option string) : MemLines :=
  match meminfo with
  | Some file =>
      fold_left
        (fun m line =>
           let val := indeterminate env line mod U64 in
           if starts_with "MemAvailable:" line then
             {| mem_available := extract_after_label U64 line val;
                mem_free := mem_free m |}
           else if starts_with "MemFree:" line then
             {| mem_available := mem_available m;
                mem_free := extract_after_label U64 line val |}
           else m)
        (lines file) {| mem_available := 0; mem_free := 0 |}
  | None => {| mem_available := 0; mem_free := 0 |}
  end.

(** Lines 248-250. *)
Definition mem_used_of (mem_total : Z) (m : MemLines) : Z :=
  if mem_available m <? mem_total then sub64 mem_total (mem_available m)
  else sub64 mem_total (mem_free m).

(** ** The delta engine (lines 222-228 and 256-277) *)

Definition tot_diff_of (prev_cpu cur_cpu : CpuSnapshot) : Z :=
  sub64 (Cpu.total cur_cpu) (Cpu.total prev_cpu).

Definition idle_diff_of (prev_cpu cur_cpu : CpuSnapshot) : Z :=
  sub64 (Cpu.idleAll cur_cpu) (Cpu.idleAll prev_cpu).

Definition cpu_usage_of (prev_cpu cur_cpu : CpuSnapshot) : Q :=
  let tot_diff := tot_diff_of prev_cpu cur_cpu in
  let idle_diff := idle_diff_of prev_cpu cur_cpu in
  if 0 <? tot_diff then percent (sub64 tot_diff idle_diff) tot_diff else 0%Q.

(** [proc_time_diff] of lines 261-264. *)
Definition proc_time_diff_of (prev cur : ProcSnapshot) : Z :=
  let prev_total_time := Proc.total_time prev in
  let cur_total_time := Proc.total_time cur in
  if prev_total_time <=? cur_total_time
  then sub64 cur_total_time prev_total_time else 0.

Definition cpu_pct_of (prev_procs : gmap Z ProcSnapshot) (tot_diff : Z)
    (pid : Z) (cur : ProcSnapshot) : Q :=
  match prev_procs !! pid with
  | Some prev =>
      let proc_time_diff := proc_time_diff_of prev cur in
      if 0 <? tot_diff then percent proc_time_diff tot_diff else 0%Q
  | None => 0%Q
  end.

Definition mem_pct_of (mem_total : Z) (cur : ProcSnapshot) : Q :=
  if 0 <? mem_total then percent (Proc.rss cur) mem_total else 0%Q.

(** The body of the loop over [pids]. *)
Definition sample_proc (env : Env) (prev_procs : gmap Z ProcSnapshot)
    (tot_diff mem_total : Z) (files : Z -> ProcFiles) (pid : Z)
    : result ProcSnapshot :=
  do cur <- read_proc env (files pid) pid;
  let cur := Proc.set_cpu_percent (cpu_pct_of prev_procs tot_diff pid cur) cur in
  let cur := Proc.set_mem_percent (mem_pct_of mem_total cur) cur in
  Ok cur.

(** Lines 280-281: [prev_procs.clear()] then [prev_procs[p.pid] = p]. *)
Definition install (procs : list ProcSnapshot) : gmap Z ProcSnapshot :=
  fold_left (fun m p => <[Proc.pid p := p]> m) procs ∅.

(** ** Ranking (lines 285-295) *)

Definition Qgtb (a b : Q) : bool := negb (Qle_bool a b).

Definition by_cpu (a b : ProcSnapshot) : bool :=
  if Qeq_bool (Proc.cpu_percent a) (Proc.cpu_percent b)
  then Qgtb (Proc.mem_percent a) (Proc.mem_percent b)
  else Qgtb (Proc.cpu_percent a) (Proc.cpu_percent b).

Definition by_mem (a b : ProcSnapshot) : bool :=
  if Qeq_bool (Proc.mem_percent a) (Proc.mem_percent b)
  then Qgtb (Proc.cpu_percent a) (Proc.cpu_percent b)
  else Qgtb (Proc.mem_percent a) (Proc.mem_percent b).

Definition comparator (sort_by_cpu : bool) : ProcSnapshot -> ProcSnapshot -> bool :=
  if sort_by_cpu then by_cpu else by_mem.

(** The primary and the secondary key of a mode. *)
Definition key1 (sort_by_cpu : bool) (p : ProcSnapshot) : Q :=
  if sort_by_cpu then Proc.cpu_percent p else Proc.mem_percent p.
Definition key2 (sort_by_cpu : bool) (p : ProcSnapshot) : Q :=
  if sort_by_cpu then Proc.mem_percent p else Proc.cpu_percent p.

(** ** Rendering (lines 306-312) *)

Definition max_rows (LINES : Z) : Z := LINES - 5.

(** The loop [for (size_t i = 0; i < procs.size() && i < (size_t)max_rows; ++i)]
    started at index [i]: one [mvprintw] per iteration, at screen line
    [row + i] with [row = 3]. *)
Fixpoint draw_from (bound : Z) (i : Z) (procs : list ProcSnapshot)
    : list (Z * ProcSnapshot) :=
  match procs with
  | [] => []
  | p :: rest =>
      if i <? bound then (3 + i, p) :: draw_from bound (i + 1) rest else []
  end.

Definition draw_rows (LINES : Z) (procs : list ProcSnapshot)
    : list (Z * ProcSnapshot) :=
  draw_from (wrap64 (max_rows LINES)) 0 procs.

(** ** One iteration of the main loop *)

Record SessionState : Type := {
  prev_cpu : CpuSnapshot;
  prev_procs : gmap Z ProcSnapshot;
  sort_by_cpu : bool;
  total_mem_kb_cache : Z
}.

(** Lines 182-186: the state before the first iteration, from the first
    reads of [/proc/stat] and [/proc/meminfo]. *)
Definition startup (env : Env) (first_cpu : CpuSnapshot) (meminfo : option string)
    : SessionState :=
  {| prev_cpu := first_cpu;
     prev_procs := ∅;
     sort_by_cpu := true;
     total_mem_kb_cache := read_total_memory_kb env meminfo |}.

(** What one iteration reads: [/proc/stat], [/proc/meminfo], the numeric
    directories of [/proc], their files, and the terminal height. *)
Record Sample : Type := {
  cur_cpu : CpuSnapshot;
  meminfo : option string;
  pids : list Z;
  files : Z -> ProcFiles;
  LINES : Z
}.

(** What one iteration puts on the screen. *)
Record Frame : Type := {
  cpu_usage : Q;
  mem_total : Z;
  mem_used : Z;
  table : list ProcSnapshot;
  rows : list (Z * ProcSnapshot)
}.

Section Tick.

(** [std::sort(first, last, comp)]. *)
Variable std_sort :
  (ProcSnapshot -> ProcSnapshot -> bool) -> list ProcSnapshot -> list ProcSnapshot.

Definition tick (env : Env) (st : SessionState) (s : Sample)
    : result (SessionState * Frame) :=
  let tot_diff := tot_diff_of (prev_cpu st) (cur_cpu s) in
  let cpu_usage := cpu_usage_of (prev_cpu st) (cur_cpu s) in
  let mem_total := total_mem_kb_cache st in
  let mem_used := mem_used_of mem_total (scan_meminfo env (meminfo s)) in
  do procs <- for_each
                (sample_proc env (prev_procs st) tot_diff mem_total (files s))
                (pids s);
  let st' := {| prev_cpu := cur_cpu s;
                prev_procs := install procs;
                sort_by_cpu := sort_by_cpu st;
                total_mem_kb_cache := total_mem_kb_cache st |} in
  let procs := std_sort (comparator (sort_by_cpu st)) procs in
  Ok (st', {| cpu_usage := cpu_usage;
              mem_total := mem_total;
              mem_used := mem_used;
              table := procs;
              rows := draw_rows (LINES s) procs |}).

End Tick.

(** ** The contract of [std::sort] and an instance of it *)

Section SortContract.

Context {A : Type}.

(** The requirement on [comp]: a strict weak ordering. *)
Record strict_weak (comp : A -> A -> bool) : Prop := {
  sw_irrefl : forall x, comp x x = false;
  sw_trans : forall x y z, comp x y = true -> comp y z = true -> comp x z = true;
  sw_incomp : forall x y z, comp x y = false -> comp y z = false -> comp x z = false
}.

(** [y] does not have to come before [x]. *)
Definition not_after (comp : A -> A -> bool) (x y : A) : Prop := comp y x = false.

(** The same relation read from the right: the order of a reversed range. *)
Definition before (comp : A -> A -> bool) (x y : A) : Prop := comp x y = false.

(** Neither has to come before the other. *)
Definition tied (comp : A -> A -> bool) (x y : A) : Prop :=
  comp x y = false /\ comp y x = false.

(** What the library promises of [sort]: for a strict weak ordering the
    result holds the same elements and no element is followed by one
    that [comp] puts before it. *)
Definition sort_contract (sort : (A -> A -> bool) -> list A -> list A) : Prop :=
  forall comp, strict_weak comp ->
    forall l, Permutation (sort comp l) l /\ Sorted (not_after comp) (sort comp l).

(** Insertion sort, the algorithm libstdc++ runs on short ranges.  The
    sorted prefix is kept reversed; [val] moves left past every element
    it must precede. *)
Fixpoint linear_insert (comp : A -> A -> bool) (val : A) (rev_prefix : list A) : list A :=
  match rev_prefix with
  | [] => [val]
  | e :: rest =>
      if comp val e then e :: linear_insert comp val rest
      else val :: rev_prefix
  end.

Definition insertion_sort (comp : A -> A -> bool) (l : list A) : list A :=
  reverse (fold_left (fun acc val => linear_insert comp val acc) l []).

End SortContract.

(** ** The parsers as the specification words them *)

(** Specification, section 4.2: "locate the last [)] on the line".  The
    text that follows the last close-parenthesis, if there is one. *)
Fixpoint after_last_paren (s : string) : option string :=
  match s with
  | EmptyString => None
  | String c s' =>
      match after_last_paren s' with
      | Some t => Some t
      | None => if Ascii.eqb c ")"%char then Some s' else None
      end
  end.

(** Specification, section 4.2: "tokenize fields 3..N from the tail";
    fields 14, 15 and 24 are the tokens 11, 12 and 21 of the tail, and
    [rss_kib = rss_pages * page_size_bytes / 1024]. *)
Definition spec_stat_fields (env : Env) (line : string) : option StatFields :=
  match after_last_paren line with
  | Some tail =>
      let fields := tokens tail in
      match fields !! 11%nat, fields !! 12%nat, fields !! 21%nat with
      | Some u, Some s, Some r =>
          match stoull u, stoull s, stol r with
          | Ok utime, Ok stime, Ok rss_pages =>
              Some {| sf_utime := utime; sf_stime := stime;
                      sf_rss := rss_pages * page_size env / 1024 |}
          | _, _, _ => None
          end
      | _, _, _ => None
      end
  | None => None
  end.

(** Specification, section 3: "NUL-separated arguments joined by spaces". *)
Fixpoint args_from (s : string) (cur : string) (started : bool) : list string :=
  match s with
  | EmptyString => if started then [cur] else []
  | String c s' =>
      if Ascii.eqb c NUL then cur :: args_from s' EmptyString false
      else args_from s' (push_back cur c) true
  end.

Fixpoint join_spaces (args : list string) : string :=
  match args with
  | [] => EmptyString
  | [a] => a
  | a :: rest => a +:+ String SP (join_spaces rest)
  end.

Definition spec_command (cmdline : string) : string :=
  join_spaces (args_from cmdline EmptyString false).

(** * Concrete inputs used below *)

(** Two snapshots whose counters grow but whose sum leaves 64 bits. *)
Definition C1_prev : CpuSnapshot := Cpu.zero.
Definition C1_cur : CpuSnapshot := Cpu.mk 2 0 0 (U64 - 1) 0 0 0 0 0 0.


(** A text file from its lines. *)
Fixpoint unlines (ls : list string) : string :=
  match ls with
  | [] => EmptyString
  | l :: ls' => l +:+ String LF (unlines ls')
  end.

(** The lines a file offers to [getline]; none when it does not open. *)
Definition lines_of (file : option string) : list string :=
  match file with
  | Some content => lines content
  | None => []
  end.

(** No line of the file starts with [label]. *)
Definition no_line (label : string) (file : option string) : Prop :=
  Forall (fun line => starts_with label line = false) (lines_of file).

Definition env0 : Env :=
  {| page_size := 4096;
     getpwuid := fun uid => if uid =? 0 then Some "root"%string else None;
     indeterminate := fun _ => 140733993810192 |}.

Definition no_files : ProcFiles :=
  {| f_cmdline := None; f_comm := None; f_stat := None; f_status := None |}.

Definition state0 (total_kb : Z) : SessionState :=
  {| prev_cpu := Cpu.zero; prev_procs := ∅; sort_by_cpu := true;
     total_mem_kb_cache := total_kb |}.

(** A memory summary of a kernel that does not publish [MemAvailable]. *)
Definition meminfo_old_kernel : string :=
  unlines ["MemTotal:        1000 kB"; "MemFree:          300 kB";
           "Buffers:           10 kB"]%string.

Definition sample_mem (file : string) : Sample :=
  {| cur_cpu := Cpu.zero; meminfo := Some file; pids := [];
     files := fun _ => no_files; LINES := 24 |}.

(** A memory summary without a [MemTotal:] line: the total cached at
    startup is 0. *)
Definition meminfo_free_only : string :=
  unlines ["MemFree:          300 kB"; "MemAvailable:    600 kB"]%string.

(** A row with given ranking keys and nothing else. *)
Definition row (pid : Z) (cpu mem : Q) : ProcSnapshot :=
  Proc.mk pid EmptyString EmptyString 0 0 0 cpu mem.

(** Two processes of which nothing can be read: both rows are all zeros. *)
Definition sample_unreadable : Sample :=
  {| cur_cpu := Cpu.zero; meminfo := None; pids := [100; 9];
     files := fun _ => no_files; LINES := 24 |}.

(** Rows that agree on both keys of a mode. *)
Definition same_keys (mode : bool) (a b : ProcSnapshot) : Prop :=
  (key1 mode a == key1 mode b)%Q /\ (key2 mode a == key2 mode b)%Q.

(** A well-formed stat line: 27 fields, of which the caller chooses the
    process id, the command, utime (14), stime (15) and rss (24). *)
Definition stat_line (pid comm utime stime rss : string) : string :=
  (pid +:+ " (" +:+ comm +:+ ") S 1 1 1 0 -1 4194560 100 0 0 0 "
   +:+ utime +:+ " " +:+ stime +:+ " 0 0 20 0 1 0 5000 10000000 "
   +:+ rss +:+ " 18446744073709551615 1 1")%string.

(** The files of a live process owned by uid 1000. *)
Definition live (stat : string) (comm : string) : ProcFiles :=
  {| f_cmdline := Some (comm +:+ String NUL EmptyString);
     f_comm := Some (comm +:+ String LF EmptyString);
     f_stat := Some (stat +:+ String LF EmptyString);
     f_status := Some (unlines ["Name:	x"; "Uid:	1000	1000	1000	1000"]%string) |}.

(** Scenarios A to D of the specification in one tick: the CPU counters
    advance by 1000 ticks; process 42 was seen before with utime 10 and
    stime 5; process 77 was seen before and is gone; process 101 is new. *)
Definition state_B : SessionState :=
  {| prev_cpu := Cpu.mk 100 0 0 900 0 0 0 0 0 0;
     prev_procs :=
       <[42 := Proc.mk 42 "1000" "init" 10 5 50000 0 5]>
         (<[77 := Proc.mk 77 "1000" "gone" 1 1 4 0 0]> ∅);
     sort_by_cpu := true;
     total_mem_kb_cache := 1000000 |}.

Definition files_B (pid : Z) : ProcFiles :=
  if pid =? 42 then live (stat_line "42" "init" "20" "15" "12500") "init"
  else if pid =? 101 then live (stat_line "101" "new" "3" "4" "250") "new"
  else no_files.

Definition sample_B : Sample :=
  {| cur_cpu := Cpu.mk 200 0 0 1800 0 0 0 0 0 0;
     meminfo := Some (unlines ["MemTotal: 1000000 kB"; "MemFree: 300000 kB";
                               "MemAvailable: 600000 kB"]%string);
     pids := [42; 101];
     files := files_B;
     LINES := 24 |}.

(** A stat line cut short, or no stat file at all: fewer than 24 tokens. *)
Definition short_stat (fs : ProcFiles) : Prop :=
  match f_stat fs with
  | Some file => (length (tokens (getline LF file)) < 24)%nat
  | None => True
  end.

(** Process 42 with a truncated stat line. *)
Definition files_truncated (pid : Z) : ProcFiles :=
  if pid =? 42 then live "42 (init) S 1 1" "init" else files_B pid.

Definition sample_truncated : Sample :=
  {| cur_cpu := cur_cpu sample_B; meminfo := meminfo sample_B;
     pids := [42; 101]; files := files_truncated; LINES := 24 |}.

(** Process 42 with a stat line whose field 14 is not a number. *)
Definition files_garbled (pid : Z) : ProcFiles :=
  if pid =? 42 then live (stat_line "42" "init" "x" "15" "12500") "init"
  else files_B pid.

Definition sample_garbled : Sample :=
  {| cur_cpu := cur_cpu sample_B; meminfo := meminfo sample_B;
     pids := [42; 101]; files := files_garbled; LINES := 24 |}.

(** The stat line of a process whose command is [weird ) name]. *)
Definition stat_weird : string :=
  "1234 (weird ) name) S 1 1234 1234 0 -1 4194560 100 0 7 3 250 75 0 0 20 0 1 0 5000 10000000 321 18446744073709551615 1 1".

(** The command line of [ls -l]: two arguments, each ended by a NUL. *)
Definition cmdline_ls : string :=
  "ls" +:+ String NUL ("-l" +:+ String NUL EmptyString).

Definition files_ls : ProcFiles :=
  {| f_cmdline := Some cmdline_ls;
     f_comm := Some ("ls" +:+ String LF EmptyString);
     f_stat := None; f_status := None |}.

(** A kernel thread: its command line is empty. *)
Definition files_kthread : ProcFiles :=
  {| f_cmdline := Some EmptyString;
     f_comm := Some ("kthreadd" +:+ String LF EmptyString);
     f_stat := None; f_status := None |}.

(** The tick of [sample_B] on a terminal of four lines. *)
Definition sample_short_terminal : Sample :=
  {| cur_cpu := cur_cpu sample_B; meminfo := meminfo sample_B;
     pids := pids sample_B; files := files sample_B; LINES := 4 |}.

(** A tick count at which binary64 rounding shows. *)
Definition ticks_rounding : Z := 5764607523034265.

(** Values on which the rounding is compared with [IEEE754]: small ones,
    the figures of the scenarios, and values around [2^53 / 100], [2^53],
    [2^63] and [2^64]. *)
Definition ieee754_samples : list Z :=
  [1; 2; 3; 7; 10; 20; 100; 999; 1000; 50000; 1000000;
   90071992547409; 90071992547410; ticks_rounding;
   2 ^ 53 - 1; 2 ^ 53; 2 ^ 53 + 1; 2 ^ 53 + 3;
   18014398509481985; 23058430092137060; 123456789012345678;
   2 ^ 63; 2 ^ 63 + 1025; 2 ^ 64 - 2049; 2 ^ 64 - 1].

(** Process 42 was seen with utime 100 and stime 2; its stat line now shows
    a utime of [2^64 - 1] and the same stime. *)
Definition state_W : SessionState :=
  {| prev_cpu := Cpu.mk 100 0 0 900 0 0 0 0 0 0;
     prev_procs := <[42 := Proc.mk 42 "1000" "init" 100 2 50000 0 5]> ∅;
     sort_by_cpu := true;
     total_mem_kb_cache := 1000000 |}.

Definition sample_W : Sample :=
  {| cur_cpu := Cpu.mk 200 0 0 1800 0 0 0 0 0 0;
     meminfo := meminfo sample_B;
     pids := [42];
     files := fun pid =>
       if pid =? 42
       then live (stat_line "42" "init" "18446744073709551615" "2" "12500") "init"
       else no_files;
     LINES := 24 |}.

(** The tick of [sample_B] when [/proc/stat] does not open: [read_cpu_line]
    returns the all-zero snapshot. *)
Definition sample_no_stat : Sample :=
  {| cur_cpu := Cpu.zero; meminfo := meminfo sample_B;
     pids := pids sample_B; files := files sample_B; LINES := 24 |}.

(** * The rest of the program *)

(** ** [read_cpu_line] (lines 52-64) *)

(** [k] chained extractions into zero-initialised fields. *)
Fixpoint extract_u64s (k : nat) (ss : istream) : list Z :=
  match k with
  | O => []
  | S k' =>
      let r := extract_u64 ss 0 in
      snd r :: extract_u64s k' (fst r)
  end.

(** The snapshot whose counters are the first ten elements of a list,
    0 where the list is shorter. *)
Definition snapshot_of (vals : list Z) : CpuSnapshot :=
  Cpu.mk (nth 0 vals 0) (nth 1 vals 0) (nth 2 vals 0) (nth 3 vals 0)
         (nth 4 vals 0) (nth 5 vals 0) (nth 6 vals 0) (nth 7 vals 0)
         (nth 8 vals 0) (nth 9 vals 0).

(** [s = {0}], then [ss >> label] and the ten extractions
    [ss >> s.user >> ... >> s.guest_nice] on the first line of the file. *)
Definition read_cpu_line (stat : option string) : CpuSnapshot :=
  match stat with
  | None => Cpu.zero
  | Some file =>
      let line := getline LF file in
      let ss := extract_label (open_stream line) in
      snapshot_of (extract_u64s 10 ss)
  end.

(** ** [is_number] and [list_pids] (lines 88-91 and 156-171) *)

Fixpoint is_number (s : string) : bool :=
  match s with
  | EmptyString => true
  | String c s' => if isdigit c then is_number s' else false
  end.

Definition INT_MAX : Z := 2 ^ 31 - 1.
Definition INT_MIN : Z := - 2 ^ 31.

(** [std::stoi(str)]: [strtol], then the range of [int]. *)
Definition stoi (s : string) : result Z :=
  match scan_int s with
  | None => Throw invalid_argument
  | Some (neg, m) =>
      let v := if neg then - m else m in
      if (v <? LONG_MIN) || (LONG_MAX <? v) then Throw out_of_range
      else if (v <? INT_MIN) || (INT_MAX <? v) then Throw out_of_range
      else Ok v
  end.

(** A directory entry: whether [d_type == DT_DIR], and [d_name]. *)
Record dirent : Set := {
  is_dir : bool;
  d_name : string
}.

(** The [readdir] loop; [None] is a directory that does not open. *)
Fixpoint scan_pids (entries : list dirent) : result (list Z) :=
  match entries with
  | [] => Ok []
  | entry :: rest =>
      if is_dir entry && is_number (d_name entry) then
        do pid <- stoi (d_name entry);
        do pids <- scan_pids rest;
        Ok (pid :: pids)
      else scan_pids rest
  end.

Definition list_pids (proc_dir : option (list dirent)) : result (list Z) :=
  match proc_dir with
  | None => Ok []
  | Some entries => scan_pids entries
  end.

(** ** One iteration from the raw files *)

(** What the loop body reads before anything is parsed. *)
Record RawSample : Type := {
  raw_stat : option string;
  raw_meminfo : option string;
  raw_proc_dir : option (list dirent);
  raw_files : Z -> ProcFiles;
  raw_LINES : Z
}.

(** Lines 221-253: [read_cpu_line], the memory lines (read by [tick] from
    the same file) and [list_pids]. *)
Definition sample_of (raw : RawSample) : result Sample :=
  let cur := read_cpu_line (raw_stat raw) in
  do pids <- list_pids (raw_proc_dir raw);
  Ok {| cur_cpu := cur; meminfo := raw_meminfo raw; pids := pids;
        files := raw_files raw; LINES := raw_LINES raw |}.

(** ** The keyboard (lines 189-195 and 316-329) *)

Definition ERR : Z := -1.
Definition key (c : ascii) : Z := code c.

(** The keyboard in no-delay mode: what the coming calls of [getch] return,
    [ERR] for a call that finds no key. *)
Definition getch (kb : list Z) : Z * list Z :=
  match kb with
  | [] => (ERR, [])
  | c :: kb' => (c, kb')
  end.

Definition ungetch (c : Z) (kb : list Z) : list Z := c :: kb.

Definition is_key (c : Z) (lower upper : ascii) : bool :=
  (c =? key lower) || (c =? key upper).

(** What the top of the loop does with the key it reads. *)
Inductive TopAction : Set := Quit | ToggleSort | Refresh | KillPrompt | NoAction.

Definition top_action (ch : Z) : TopAction :=
  if is_key ch "q" "Q" then Quit
  else if is_key ch "s" "S" then ToggleSort
  else if is_key ch "r" "R" then Refresh
  else if is_key ch "k" "K" then KillPrompt
  else NoAction.

Definition REFRESH_INTERVAL : Z := 2.

(** How the polling loop ends: the interval ran out, [goto cleanup], or
    [break]. *)
Inductive SleepEnd : Set := Elapsed | Cleanup | Break.

Record Slept : Set := {
  ending : SleepEnd;
  slept_sort_by_cpu : bool;
  slept_kb : list Z;
  naps : Z
}.

(** Lines 317-329 with [n] iterations left; [done] counts the calls of
    [napms(100)] so far. *)
Fixpoint sleep_from (n : nat) (sort_by_cpu : bool) (kb : list Z) (done : Z) : Slept :=
  match n with
  | O => {| ending := Elapsed; slept_sort_by_cpu := sort_by_cpu;
            slept_kb := kb; naps := done |}
  | S n' =>
      let '(c, kb) := getch kb in
      if is_key c "q" "Q" then
        {| ending := Cleanup; slept_sort_by_cpu := sort_by_cpu;
           slept_kb := kb; naps := done + 1 |}
      else if is_key c "s" "S" then
        {| ending := Break; slept_sort_by_cpu := negb sort_by_cpu;
           slept_kb := kb; naps := done + 1 |}
      else if is_key c "k" "K" then
        {| ending := Break; slept_sort_by_cpu := sort_by_cpu;
           slept_kb := ungetch (key "k") kb; naps := done + 1 |}
      else sleep_from n' sort_by_cpu kb (done + 1)
  end.

Definition sleep (sort_by_cpu : bool) (kb : list Z) : Slept :=
  sleep_from (Z.to_nat (REFRESH_INTERVAL * 10)) sort_by_cpu kb 0.

(** ** The kill prompt (lines 202-214) *)

(** Conversion of a [long] to [int]. *)
Definition to_int (z : Z) : Z := (z + 2 ^ 31) mod 2 ^ 32 - 2 ^ 31.

(** [atoi(buf)]: [(int) strtol(buf, NULL, 10)], 0 when nothing converts,
    the nearest [long] when the value does not fit one. *)
Definition atoi (s : string) : Z :=
  match scan_int s with
  | None => 0
  | Some (neg, m) =>
      let v := if neg then - m else m in
      to_int (Z.max LONG_MIN (Z.min LONG_MAX v))
  end.

Definition SIGTERM : Z := 15.

(** What the prompt line shows. *)
Inductive KillReport : Set :=
| Sent (pid : Z)
| Failed (pid : Z) (errno : Z)
| InvalidPid.

(** The prompt on the text [buf] that [getnstr] returned; [kill pid sig]
    answers [None] for success and the [errno] otherwise.  The result is
    the list of signals requested and the report. *)
Definition kill_prompt (kill : Z -> Z -> option Z) (buf : string)
    : list (Z * Z) * KillReport :=
  let pid := atoi buf in
  if 0 <? pid then
    match kill pid SIGTERM with
    | None => ([(pid, SIGTERM)], Sent pid)
    | Some errno => ([(pid, SIGTERM)], Failed pid errno)
    end
  else ([], InvalidPid).

(** The three [mvprintw] formats of the prompt. *)
Definition report_text (r : KillReport) : string :=
  match r with
  | Sent pid => "Sent SIGTERM to " +:+ pretty pid +:+ ". Press any key to continue..."
  | Failed pid errno =>
      "Failed to kill " +:+ pretty pid +:+ " (errno " +:+ pretty errno
      +:+ "). Press any key to continue..."
  | InvalidPid => "Invalid PID. Press any key to continue..."
  end.

(** ** Texts built from numerals *)

(** A decimal numeral: digits only, at least one. *)
Definition numeral (s : string) : Prop := is_number s = true /\ s <> EmptyString.

(** The number a numeral denotes. *)
Definition value (s : string) : Z := decimal (digits s).

(** Words separated by single spaces, each preceded by one. *)
Fixpoint spaced (words : list string) : string :=
  match words with
  | [] => EmptyString
  | w :: rest => String SP (w +:+ spaced rest)
  end.

(** A token as [ss >> token] delivers it: not empty, no white space. *)
Definition clean (w : string) : Prop :=
  w <> EmptyString /\ forall c, In c (list_ascii_of_string w) -> isspace c = false.

(** The string has no occurrence of the character. *)
Definition lacks (c : ascii) (s : string) : Prop :=
  ~ In c (list_ascii_of_string s).

(** The text does not go on with a digit. *)
Definition stops (tail : string) : Prop :=
  match tail with
  | EmptyString => True
  | String c _ => isdigit c = false
  end.

(** A numeral that fits an unsigned type of modulus [M]. *)
Definition numeral_below (M : Z) (w : string) : Prop := numeral w /\ value w < M.

(** The first line of [/proc/stat] of a running kernel, with the lines of
    two CPUs after it. *)
Definition proc_stat_file : string :=
  unlines ["cpu  4705 150 1994 136239 234 0 45 0 0 0";
           "cpu0 2350 75 997 68119 117 0 22 0 0 0";
           "cpu1 2355 75 997 68120 117 0 23 0 0 0"]%string.

(** The same line as kernels before 2.6.24 wrote it: eight counters. *)
Definition proc_stat_old : string :=
  unlines ["cpu  4705 150 1994 136239 234 0 45 0"]%string.

(** The entries [list_pids] converts: directories with an all-digit name. *)
Definition numeric_dir (e : dirent) : bool := is_dir e && is_number (d_name e).

(** The name of a numeric directory is a numeral that fits an [int]. *)
Definition pid_name_ok (e : dirent) : Prop :=
  numeric_dir e = true -> d_name e <> EmptyString /\ value (d_name e) <= INT_MAX.

(** The name of a numeric directory is empty or too large for an [int]. *)
Definition pid_name_bad (e : dirent) : Prop :=
  numeric_dir e = true /\ (d_name e = EmptyString \/ INT_MAX < value (d_name e)).

(** A listing of [/proc]. *)
Definition proc_listing : list dirent :=
  [ {| is_dir := true; d_name := "1" |};
    {| is_dir := true; d_name := "self" |};
    {| is_dir := false; d_name := "4242" |};
    {| is_dir := true; d_name := "42" |};
    {| is_dir := false; d_name := "meminfo" |};
    {| is_dir := true; d_name := "7x" |};
    {| is_dir := true; d_name := "00101" |} ]%string.

(** A listing with a numeric directory beyond the range of [int]. *)
Definition proc_listing_huge : list dirent :=
  [ {| is_dir := true; d_name := "1" |};
    {| is_dir := true; d_name := "2147483648" |} ]%string.

(** Every entry of the mapping is stored under its own process id. *)
Definition keyed (m : gmap Z ProcSnapshot) : Prop :=
  forall q p, m !! q = Some p -> Proc.pid p = q.

(** What holds of the state between iterations. *)
Record good_state (st : SessionState) : Prop := {
  gs_cpu : Cpu.wf (prev_cpu st);
  gs_mem : is_u64 (total_mem_kb_cache st);
  gs_keyed : keyed (prev_procs st)
}.

(** The raw files behind [sample_B]. *)
Definition raw_B : RawSample :=
  {| raw_stat := Some (unlines ["cpu  200 0 0 1800 0 0 0 0 0 0"]%string);
     raw_meminfo := meminfo sample_B;
     raw_proc_dir := Some [ {| is_dir := true; d_name := "42" |};
                            {| is_dir := true; d_name := "101" |};
                            {| is_dir := true; d_name := "sys" |} ]%string;
     raw_files := files_B;
     raw_LINES := 24 |}.

(** The raw files of the iteration after [raw_B]: the counters advance by
    another 500 ticks, process 42 by 5 of them, process 101 is gone. *)
Definition raw_B2 : RawSample :=
  {| raw_stat := Some (unlines ["cpu  250 0 0 2250 0 0 0 0 0 0"]%string);
     raw_meminfo := meminfo sample_B;
     raw_proc_dir := Some [ {| is_dir := true; d_name := "42" |} ]%string;
     raw_files := fun pid =>
       if pid =? 42 then live (stat_line "42" "init" "22" "18" "12500") "init"
       else no_files;
     raw_LINES := 24 |}.

(** The sample parsed from [raw_B2]. *)
Definition sample_B2 : Sample :=
  {| cur_cpu := Cpu.mk 250 0 0 2250 0 0 0 0 0 0;
     meminfo := meminfo sample_B;
     pids := [42];
     files := raw_files raw_B2;
     LINES := 24 |}.

(** No line of the list starts with the label. *)
Definition none_starts (label : string) (ls : list string) : Prop :=
  Forall (fun line => starts_with label line = false) ls.

(** A line made of a label, one white-space character, a numeral and
    whatever follows it. *)
Definition labelled (label : string) (sep : ascii) (w tail : string) : string :=
  label +:+ String sep (w +:+ tail).

Definition TAB : ascii := ascii_of_nat 9.

(** The status file of a process of uid 1000 (real, effective, saved and
    file-system uid on one line). *)
Definition status_file : string :=
  unlines ["Name:	init"; "Uid:	1000	1000	1000	1000"; "Gid:	100	100	100	100"]%string.

Definition files_status : ProcFiles :=
  {| f_cmdline := None; f_comm := None; f_stat := None;
     f_status := Some status_file |}.

(** A memory summary with two [MemTotal:] lines. *)
Definition meminfo_two_totals : string :=
  unlines ["MemTotal: 8000 kB"; "MemFree: 2000 kB"; "MemTotal: 9 kB";
           "MemAvailable: 5000 kB"; "MemFree: 2500 kB"]%string.

(** The fields of a stat line for a command without white space. *)
Definition stat_words : list string :=
  ["42"; "(init)"; "S"; "1"; "1"; "1"; "0"; "-1"; "4194560"; "100"; "0"; "0";
   "0"; "20"; "15"; "0"; "0"; "20"; "0"; "1"; "0"; "5000"; "10000000";
   "12500"; "18446744073709551615"; "1"; "1"]%string.

Definition files_stat_words : ProcFiles :=
  {| f_cmdline := None; f_comm := None;
     f_stat := Some (join_spaces stat_words +:+ String LF EmptyString);
     f_status := None |}.

(** The keys that end the polling loop. *)
Definition wakes (c : Z) : bool :=
  is_key c "q" "Q" || is_key c "s" "S" || is_key c "k" "K".

(** How the polling loop ends on a waking key, [post] being the keys
    after it and [n] the number of naps taken. *)
Definition woken (sort_by_cpu : bool) (c : Z) (post : list Z) (n : Z) : Slept :=
  if is_key c "q" "Q" then
    {| ending := Cleanup; slept_sort_by_cpu := sort_by_cpu;
       slept_kb := post; naps := n |}
  else if is_key c "s" "S" then
    {| ending := Break; slept_sort_by_cpu := negb sort_by_cpu;
       slept_kb := post; naps := n |}
  else
    {| ending := Break; slept_sort_by_cpu := sort_by_cpu;
       slept_kb := key "k" :: post; naps := n |}.

(** A kill function that knows no process. *)
Definition kill_esrch (pid sig : Z) : option Z := Some 3.

(** The rows of process 42 in the ticks of [sample_B] and [sample_B2]. *)
Definition row_B_42 : ProcSnapshot :=
  Proc.mk 42 "1000" "init" 20 15 50000 (percent 20 1000) (percent 50000 1000000).

Definition row_B2_42 : ProcSnapshot :=
  Proc.mk 42 "1000" "init" 22 18 50000 (percent 5 500) (percent 50000 1000000).

(** The listing of [/proc] in [raw_B]. *)
Definition listing_B : list dirent :=
  [ {| is_dir := true; d_name := "42" |};
    {| is_dir := true; d_name := "101" |};
    {| is_dir := true; d_name := "sys" |} ]%string.
(** * Properties *)

(** ** Machine arithmetic *)

Lemma wrap64_small (z : Z) : is_u64 z -> wrap64 z = z.
Proof. intros H. apply Z.mod_small. exact H. Qed.

Lemma wrap64_range (z : Z) : is_u64 (wrap64 z).
Proof. apply Z.mod_pos_bound. reflexivity. Qed.

Lemma sub64_borrow (a b : Z) :
  is_u64 a -> is_u64 b -> a < b -> sub64 a b = U64 - (b - a).
Proof.
  intros [Ha _] [_ Hb] Hlt. unfold sub64, wrap64.
  replace (a - b) with ((U64 - (b - a)) + (-1) * U64) by ring.
  rewrite Z.mod_add by discriminate.
  apply Z.mod_small. lia.
Qed.

Lemma add64_wrap (a b : Z) : add64 (wrap64 a) b = wrap64 (a + b).
Proof. unfold add64, wrap64. apply Zplus_mod_idemp_l. Qed.

Lemma total_sum (s : CpuSnapshot) : Cpu.total s = wrap64 (Cpu.sum s).
Proof.
  unfold Cpu.total, Cpu.sum.
  change (add64 (Cpu.user s) (Cpu.nice s))
    with (wrap64 (Cpu.user s + Cpu.nice s)).
  now rewrite !add64_wrap.
Qed.

Lemma sum_nonneg (s : CpuSnapshot) : Cpu.wf s -> 0 <= Cpu.sum s.
Proof. unfold Cpu.wf, Cpu.sum, is_u64. lia. Qed.

Lemma sum_mono (p c : CpuSnapshot) : Cpu.le p c -> Cpu.sum p <= Cpu.sum c.
Proof. unfold Cpu.le, Cpu.sum. lia. Qed.

(** ** Binary64 rounding *)

Module Binary64Facts.
Import Binary64.

Local Open Scope Q_scope.

Lemma pow2_pos (e : Z) : 0 < 2 ^ e.
Proof. apply Qpower_0_lt. reflexivity. Qed.

Lemma pow2_nonzero (e : Z) : ~ 2 ^ e == 0.
Proof. pose proof (pow2_pos e). lra. Qed.

Lemma pow2_add (a b : Z) : 2 ^ (a + b) == 2 ^ a * 2 ^ b.
Proof. apply Qpower_plus. discriminate. Qed.

Lemma pow2_sub (a b : Z) : 2 ^ (a - b) == 2 ^ a / 2 ^ b.
Proof.
  unfold Z.sub. rewrite pow2_add, Qpower_opp. reflexivity.
Qed.

Lemma pow2_le (a b : Z) : (a <= b)%Z -> 2 ^ a <= 2 ^ b.
Proof. intros H. apply Qpower_le_compat_l; [exact H | discriminate]. Qed.

Lemma pow2_lt (a b : Z) : (a < b)%Z -> 2 ^ a < 2 ^ b.
Proof. intros H. apply Qpower_lt_compat_l; [exact H | reflexivity]. Qed.

Lemma pow2_lt_inv (a b : Z) : 2 ^ a < 2 ^ b -> (a < b)%Z.
Proof. intros H. apply (Qpower_lt_compat_l_inv 2); [exact H | reflexivity]. Qed.

Lemma pow2_Z (n : Z) : (0 <= n)%Z -> inject_Z (2 ^ n) == 2 ^ n.
Proof. intros H. apply (Zpower_Qpower 2 n H). Qed.

(** *** The nearest integer *)

Lemma nearest_even_floor (x : Q) :
  (Qfloor x <= nearest_even x <= Qfloor x + 1)%Z.
Proof.
  unfold nearest_even.
  destruct (x - inject_Z (Qfloor x) ?= 1 # 2); [destruct (Z.even _) | |]; lia.
Qed.

Lemma nearest_even_comp (x y : Q) : x == y -> nearest_even x = nearest_even y.
Proof.
  intros H. unfold nearest_even.
  rewrite (Qfloor_comp _ _ H).
  assert (E : x - inject_Z (Qfloor y) == y - inject_Z (Qfloor y)) by now rewrite H.
  now rewrite (Qcompare_comp _ _ E _ _ (Qeq_refl (1 # 2))).
Qed.

Lemma nearest_even_Z (n : Z) : nearest_even (inject_Z n) = n.
Proof.
  unfold nearest_even. rewrite Qfloor_Z.
  assert (E : (inject_Z n - inject_Z n ?= 1 # 2) = Lt).
  { apply (proj1 (Qlt_alt _ _)). lra. }
  now rewrite E.
Qed.

(** The nearest integer is within one half. *)
Lemma nearest_even_error (x : Q) :
  Qabs (inject_Z (nearest_even x) - x) <= 1 # 2.
Proof.
  pose proof (Qfloor_le x) as Hlo. pose proof (Qlt_floor x) as Hhi.
  rewrite inject_Z_plus in Hhi. change (inject_Z 1) with 1 in Hhi.
  apply Qabs_Qle_condition. unfold nearest_even.
  destruct (Qcompare_spec (x - inject_Z (Qfloor x)) (1 # 2)) as [E | E | E].
  - destruct (Z.even (Qfloor x)).
    + split; lra.
    + rewrite inject_Z_plus. change (inject_Z 1) with 1. split; lra.
  - split; lra.
  - rewrite inject_Z_plus. change (inject_Z 1) with 1. split; lra.
Qed.

Lemma nearest_even_mono (x y : Q) : x <= y -> (nearest_even x <= nearest_even y)%Z.
Proof.
  intros H.
  pose proof (Qfloor_resp_le _ _ H) as Hf.
  pose proof (nearest_even_floor x) as Hx. pose proof (nearest_even_floor y) as Hy.
  destruct (Z.eq_dec (Qfloor x) (Qfloor y)) as [E | E]; [| lia].
  unfold nearest_even. rewrite E.
  destruct (Qcompare_spec (x - inject_Z (Qfloor y)) (1 # 2)) as [Ex | Ex | Ex];
    destruct (Qcompare_spec (y - inject_Z (Qfloor y)) (1 # 2)) as [Ey | Ey | Ey];
    try destruct (Z.even (Qfloor y)); try lia; exfalso; lra.
Qed.

Lemma nearest_even_le (x : Q) (n : Z) : x <= inject_Z n -> (nearest_even x <= n)%Z.
Proof. intros H. rewrite <- (nearest_even_Z n). now apply nearest_even_mono. Qed.

Lemma nearest_even_ge (x : Q) (n : Z) : inject_Z n <= x -> (n <= nearest_even x)%Z.
Proof. intros H. rewrite <- (nearest_even_Z n). now apply nearest_even_mono. Qed.

(** *** The magnitude *)

Lemma Qabs_num_den (x : Q) :
  Qabs x == inject_Z (Z.abs (Qnum x)) / inject_Z (Z.pos (Qden x)).
Proof.
  destruct x as [p q]. cbn [Qnum Qden].
  rewrite <- Zabs_Qabs. apply Qmake_Qdiv.
Qed.

Lemma mag_bounds (x : Q) :
  ~ x == 0 -> 2 ^ (mag x - 1) <= Qabs x /\ Qabs x < 2 ^ mag x.
Proof.
  intros Hx.
  set (p := Z.abs (Qnum x)). set (q := Z.pos (Qden x)).
  assert (Hp : (0 < p)%Z).
  { unfold p. destruct x as [n d]. unfold Qeq in Hx. cbn in Hx |- *. lia. }
  assert (Hq : (0 < q)%Z) by reflexivity.
  pose proof (Z.log2_spec p Hp) as [Hp1 Hp2].
  pose proof (Z.log2_spec q Hq) as [Hq1 Hq2].
  pose proof (Z.log2_nonneg p) as Lp. pose proof (Z.log2_nonneg q) as Lq.
  assert (Habs : Qabs x == inject_Z p / inject_Z q) by apply Qabs_num_den.
  assert (Hq' : 0 < inject_Z q) by (rewrite (Zlt_Qlt 0 q) in Hq; exact Hq).
  rewrite (Zle_Qle (2 ^ Z.log2 p) p) in Hp1.
  rewrite (Zlt_Qlt p (2 ^ Z.succ (Z.log2 p))) in Hp2.
  rewrite (Zle_Qle (2 ^ Z.log2 q) q) in Hq1.
  rewrite (Zlt_Qlt q (2 ^ Z.succ (Z.log2 q))) in Hq2.
  rewrite pow2_Z in Hp1, Hp2, Hq1, Hq2 by lia.
  set (k := (Z.log2 p - Z.log2 q)%Z).
  assert (Hlow : 2 ^ (k - 1) <= Qabs x).
  { rewrite Habs. apply Qle_shift_div_l; [exact Hq' |].
    apply Qle_trans with (2 ^ (k - 1) * 2 ^ Z.succ (Z.log2 q)).
    - apply Qmult_le_l; [apply pow2_pos | apply Qlt_le_weak, Hq2].
    - rewrite <- pow2_add. replace (k - 1 + Z.succ (Z.log2 q))%Z with (Z.log2 p)
        by (unfold k; lia). exact Hp1. }
  assert (Hhigh : Qabs x < 2 ^ (k + 1)).
  { rewrite Habs. apply Qlt_shift_div_r; [exact Hq' |].
    apply Qlt_le_trans with (2 ^ (k + 1) * 2 ^ Z.log2 q).
    - rewrite <- pow2_add. replace (k + 1 + Z.log2 q)%Z with (Z.succ (Z.log2 p))
        by (unfold k; lia). exact Hp2.
    - apply Qmult_le_l; [apply pow2_pos | exact Hq1]. }
  unfold mag. fold p q k.
  destruct (Qle_bool (2 ^ k) (Qabs x)) eqn:E.
  - apply Qle_bool_iff in E. replace (k + 1 - 1)%Z with k by lia. now split.
  - split; [exact Hlow |]. apply Qnot_le_lt. intros H.
    apply Qle_bool_iff in H. congruence.
Qed.

Lemma mag_unique (x : Q) (m : Z) :
  2 ^ (m - 1) <= Qabs x -> Qabs x < 2 ^ m -> mag x = m.
Proof.
  intros H1 H2.
  assert (Hx : ~ x == 0).
  { intros E. rewrite E in H1. pose proof (pow2_pos (m - 1)).
    change (Qabs 0) with 0 in H1. lra. }
  destruct (mag_bounds x Hx) as [B1 B2].
  assert (L1 : (m - 1 < mag x)%Z) by (apply pow2_lt_inv; lra).
  assert (L2 : (mag x - 1 < m)%Z) by (apply pow2_lt_inv; lra).
  lia.
Qed.

Lemma mag_comp (x y : Q) : ~ x == 0 -> x == y -> mag x = mag y.
Proof.
  intros Hx E. destruct (mag_bounds x Hx) as [B1 B2].
  symmetry. apply mag_unique; now rewrite <- E.
Qed.

(** *** Rounding *)

Lemma round_nonzero (x : Q) :
  ~ x == 0 -> round x = inject_Z (nearest_even (x / 2 ^ (mag x - prec))) * 2 ^ (mag x - prec).
Proof.
  intros Hx. unfold round.
  destruct (Qeq_bool x 0) eqn:E; [| reflexivity].
  apply Qeq_bool_eq in E. contradiction.
Qed.

Lemma round_zero (x : Q) : x == 0 -> round x = 0.
Proof. intros E. unfold round. now rewrite (Qeq_eq_bool _ _ E). Qed.

Lemma round_comp (x y : Q) : x == y -> round x == round y.
Proof.
  intros E. unfold round. rewrite (Qeqb_comp _ _ E _ _ (Qeq_refl 0)).
  destruct (Qeq_bool y 0) eqn:E0; [reflexivity |].
  apply Qeq_bool_neq in E0.
  assert (Hx : ~ x == 0) by now rewrite E.
  rewrite (mag_comp x y Hx E).
  assert (E' : x / 2 ^ (mag y - prec) == y / 2 ^ (mag y - prec)) by now rewrite E.
  now rewrite (nearest_even_comp _ _ E').
Qed.

#[export] Instance round_Proper : Proper (Qeq ==> Qeq) round.
Proof. intros x y E. now apply round_comp. Qed.

Lemma round_nonneg (x : Q) : 0 <= x -> 0 <= round x.
Proof.
  intros Hx. unfold round. destruct (Qeq_bool x 0); [apply Qle_refl |].
  cbv zeta. apply Qmult_le_0_compat; [| apply Qlt_le_weak, pow2_pos].
  rewrite <- (Zle_Qle 0). apply nearest_even_ge.
  apply Qle_shift_div_l; [apply pow2_pos |].
  change (inject_Z 0) with 0. lra.
Qed.

(** The significand of a rounded number has [prec] bits, and the error is
    at most half a unit in the last place. *)
Lemma round_significand (x : Q) :
  0 < x ->
  let m := nearest_even (x / 2 ^ (mag x - prec)) in
  round x = inject_Z m * 2 ^ (mag x - prec) /\
  (2 ^ (prec - 1) <= m <= 2 ^ prec)%Z.
Proof.
  intros Hx m.
  assert (Hx0 : ~ x == 0) by lra.
  split; [now apply round_nonzero |].
  destruct (mag_bounds x Hx0) as [B1 B2].
  rewrite (Qabs_pos x) in B1, B2 by lra.
  pose proof (pow2_pos (mag x - prec)) as He.
  split.
  - apply nearest_even_ge. rewrite pow2_Z by (unfold prec; lia).
    apply Qle_shift_div_l; [exact He |].
    rewrite <- pow2_add.
    replace (prec - 1 + (mag x - prec))%Z with (mag x - 1)%Z by lia. exact B1.
  - apply nearest_even_le. rewrite pow2_Z by (unfold prec; lia).
    apply Qle_shift_div_r; [exact He |].
    rewrite <- pow2_add.
    replace (prec + (mag x - prec))%Z with (mag x) by lia. lra.
Qed.

Lemma round_error (x : Q) :
  ~ x == 0 -> Qabs (round x - x) <= 2 ^ (mag x - prec - 1).
Proof.
  intros Hx. rewrite (round_nonzero x Hx).
  set (e := (mag x - prec)%Z).
  pose proof (pow2_pos e) as He.
  pose proof (nearest_even_error (x / 2 ^ e)) as H.
  assert (E : inject_Z (nearest_even (x / 2 ^ e)) * 2 ^ e - x ==
              (inject_Z (nearest_even (x / 2 ^ e)) - x / 2 ^ e) * 2 ^ e).
  { field. apply pow2_nonzero. }
  rewrite E, Qabs_Qmult, (Qabs_pos (2 ^ e)) by lra.
  unfold Z.sub at 1. rewrite pow2_add. fold e.
  change (2 ^ (-1)) with (1 # 2). rewrite (Qmult_comm (2 ^ e)).
  apply Qmult_le_compat_r; [exact H | lra].
Qed.

(** A number with a significand of at most [prec] bits is not changed. *)
Lemma round_representable (m e : Z) :
  (Z.abs m < 2 ^ prec)%Z -> round (inject_Z m * 2 ^ e) == inject_Z m * 2 ^ e.
Proof.
  intros Hm. set (x := inject_Z m * 2 ^ e).
  destruct (Z.eq_dec m 0%Z) as [E0 | Hm0].
  { rewrite round_zero; unfold x; rewrite E0; ring. }
  pose proof (pow2_pos e) as He.
  assert (Hx : ~ x == 0).
  { unfold x. intros E. apply Qmult_integral in E as [E | E]; [| lra].
    change 0 with (inject_Z 0) in E. apply (proj1 (inject_Z_injective m 0)) in E. exact (Hm0 E). }
  rewrite (round_nonzero x Hx).
  destruct (mag_bounds x Hx) as [B1 _].
  assert (Habs : Qabs x < 2 ^ (prec + e)).
  { unfold x. rewrite Qabs_Qmult, (Qabs_pos (2 ^ e)) by lra.
    rewrite pow2_add. apply Qmult_lt_compat_r; [exact He |].
    rewrite <- (pow2_Z prec) by (unfold prec; lia).
    rewrite <- (Zabs_Qabs m 1). change (Z.abs m # 1) with (inject_Z (Z.abs m)).
    now rewrite <- Zlt_Qlt. }
  assert (Hmag : (mag x - prec <= e)%Z).
  { assert (mag x - 1 < prec + e)%Z by (apply pow2_lt_inv; lra). lia. }
  set (e' := (mag x - prec)%Z) in *.
  assert (Hsc : x / 2 ^ e' == inject_Z (m * 2 ^ (e - e'))).
  { rewrite inject_Z_mult, pow2_Z by lia. unfold x. rewrite pow2_sub.
    field. try split; apply pow2_nonzero. }
  rewrite (nearest_even_comp _ _ Hsc), nearest_even_Z.
  rewrite inject_Z_mult, pow2_Z by lia. unfold x. rewrite pow2_sub.
  field. apply pow2_nonzero.
Qed.

Lemma round_Z (n : Z) : (Z.abs n < 2 ^ prec)%Z -> round (inject_Z n) == inject_Z n.
Proof.
  intros H. pose proof (round_representable n 0 H) as E.
  change (2 ^ 0) with 1 in E. rewrite Qmult_1_r in E. exact E.
Qed.

(** Rounding keeps the order of numbers that are not negative. *)
Lemma round_mono (x y : Q) : 0 <= x -> x <= y -> round x <= round y.
Proof.
  intros Hx Hxy.
  destruct (Qeq_dec x 0) as [E | Hx0].
  { rewrite (round_zero x E). apply round_nonneg. lra. }
  assert (Hxp : 0 < x) by lra. assert (Hyp : 0 < y) by lra.
  destruct (round_significand x Hxp) as [Rx [_ Mx]].
  destruct (round_significand y Hyp) as [Ry [My _]].
  destruct (mag_bounds x Hx0) as [Bx1 Bx2].
  destruct (mag_bounds y ltac:(lra)) as [By1 By2].
  rewrite (Qabs_pos x) in Bx1, Bx2 by lra.
  rewrite (Qabs_pos y) in By1, By2 by lra.
  assert (Hm : (mag x <= mag y)%Z).
  { assert (mag x - 1 < mag y)%Z by (apply pow2_lt_inv; lra). lia. }
  destruct (Z.eq_dec (mag x) (mag y)) as [E | E].
  - rewrite Rx, Ry, E.
    apply Qmult_le_compat_r; [| apply Qlt_le_weak, pow2_pos].
    rewrite <- Zle_Qle. apply nearest_even_mono.
    apply Qmult_le_compat_r; [exact Hxy |].
    apply Qlt_le_weak, Qinv_lt_0_compat, pow2_pos.
  - apply Qle_trans with (2 ^ mag x).
    + rewrite Rx. replace (mag x) with (prec + (mag x - prec))%Z at 3 by lia.
      rewrite pow2_add. apply Qmult_le_compat_r; [| apply Qlt_le_weak, pow2_pos].
      rewrite <- (pow2_Z prec) by (unfold prec; lia). now rewrite <- Zle_Qle.
    + apply Qle_trans with (2 ^ (mag y - 1)); [apply pow2_le; lia |].
      rewrite Ry. replace (mag y - 1)%Z with (prec - 1 + (mag y - prec))%Z at 1 by lia.
      rewrite pow2_add. apply Qmult_le_compat_r; [| apply Qlt_le_weak, pow2_pos].
      rewrite <- (pow2_Z (prec - 1)) by (unfold prec; lia). now rewrite <- Zle_Qle.
Qed.

(** A rounded number does not pass an integer of at most [prec] bits. *)
Lemma round_le_Z (x : Q) (n : Z) :
  0 <= x -> (Z.abs n < 2 ^ prec)%Z -> x <= inject_Z n -> round x <= inject_Z n.
Proof.
  intros Hx Hn H. rewrite <- (round_Z n Hn). now apply round_mono.
Qed.

End Binary64Facts.

(** ** Percentages *)

Section PercentFacts.
Import Binary64 Binary64Facts.
Local Open Scope Q_scope.

Lemma round_relative (x : Q) : 0 <= x -> round x <= x * (1 + 2 ^ (- prec)).
Proof.
  intros Hx. destruct (Qeq_dec x 0) as [E | Hx0].
  { rewrite (round_zero x E), E. discriminate. }
  pose proof (round_error x Hx0) as He.
  destruct (mag_bounds x Hx0) as [B1 _]. rewrite (Qabs_pos x) in B1 by lra.
  apply Qabs_Qle_condition in He as [_ He].
  assert (E : 2 ^ (mag x - prec - 1) == 2 ^ (mag x - 1) * 2 ^ (- prec)).
  { rewrite <- pow2_add. now replace (mag x - 1 + - prec)%Z with (mag x - prec - 1)%Z by lia. }
  rewrite E in He.
  pose proof (pow2_pos (- prec)) as Hu.
  assert (2 ^ (mag x - 1) * 2 ^ (- prec) <= x * 2 ^ (- prec))
    by (apply Qmult_le_compat_r; lra).
  lra.
Qed.

Lemma of_u64_nonneg (n : Z) : (0 <= n)%Z -> 0 <= of_u64 n.
Proof.
  intros H. apply round_nonneg. now rewrite <- (Zle_Qle 0).
Qed.

Lemma of_u64_exact (n : Z) : (0 <= n < 2 ^ 53)%Z -> of_u64 n == inject_Z n.
Proof. intros H. apply round_Z. unfold prec. lia. Qed.

Lemma of_u64_mono (n m : Z) : (0 <= n <= m)%Z -> of_u64 n <= of_u64 m.
Proof.
  intros [H0 H]. apply round_mono; [now rewrite <- (Zle_Qle 0) | now rewrite <- Zle_Qle].
Qed.

Lemma of_u64_pos (n : Z) : (0 < n)%Z -> 1 <= of_u64 n.
Proof.
  intros H. assert (E : of_u64 1 == 1) by (apply (of_u64_exact 1); lia).
  rewrite <- E. apply of_u64_mono. lia.
Qed.

Lemma percent_nonneg (n d : Z) : (0 <= n)%Z -> (0 <= d)%Z -> 0 <= percent n d.
Proof.
  intros Hn Hd. unfold percent, div, mul.
  pose proof (of_u64_nonneg n Hn) as Ha. pose proof (of_u64_nonneg d Hd) as Hb.
  assert (Hm : 0 <= round (100 * of_u64 n)) by (apply round_nonneg; lra).
  apply round_nonneg. unfold Qdiv.
  apply Qmult_le_0_compat; [exact Hm |].
  apply Qinv_le_0_compat, Hb.
Qed.

Lemma percent_zero (d : Z) : percent 0 d == 0.
Proof.
  unfold percent, div, mul, of_u64.
  rewrite (round_zero (inject_Z 0)) by reflexivity.
  rewrite (round_zero (100 * 0)) by reflexivity.
  assert (E : 0 / round (inject_Z d) == 0) by (unfold Qdiv; ring).
  now rewrite (round_zero _ E).
Qed.

(** When the product [100 * n] and the divisor fit 53 bits, the two
    conversions and the multiplication are exact and only the division
    rounds. *)
Lemma percent_rounds_once (n d : Z) :
  (0 <= n)%Z -> (100 * n < 2 ^ 53)%Z -> (0 <= d < 2 ^ 53)%Z ->
  percent n d == round (100 * inject_Z n / inject_Z d).
Proof.
  intros Hn Hn' Hd. unfold percent, div, mul.
  assert (Ea : of_u64 n == inject_Z n) by (apply of_u64_exact; lia).
  assert (Eb : of_u64 d == inject_Z d) by (apply of_u64_exact; lia).
  assert (Em : round (100 * of_u64 n) == 100 * inject_Z n).
  { rewrite Ea. change 100 with (inject_Z 100). rewrite <- inject_Z_mult.
    apply round_Z. unfold prec. lia. }
  now rewrite Em, Eb.
Qed.

(** A share of the whole is at most one unit in the last place above 100,
    and at most 100 when [100 * d] fits 53 bits. *)
Lemma percent_le_100 (n d : Z) :
  (0 <= n <= d)%Z -> (0 < d)%Z ->
  percent n d <= 100 + ulp_100 /\
  ((100 * d < 2 ^ 53)%Z -> percent n d <= 100).
Proof.
  intros [Hn Hnd] Hd. split.
  - unfold percent, div, mul.
    pose proof (of_u64_nonneg n Hn) as Ha.
    pose proof (of_u64_pos d Hd) as Hb.
    pose proof (of_u64_mono n d (conj Hn Hnd)) as Hab.
    assert (Hm : 0 <= round (100 * of_u64 n)) by (apply round_nonneg; lra).
    pose proof (round_relative (100 * of_u64 n) ltac:(lra)) as Hr.
    assert (E : round (100 * (1 + 2 ^ (- prec))) == 100 + ulp_100) by (vm_compute; reflexivity).
    pose proof (pow2_pos (- prec)) as Hu.
    set (u := 2 ^ (- prec)) in *.
    rewrite <- E. apply round_mono.
    + apply Qle_shift_div_l; [lra |]. rewrite Qmult_0_l. exact Hm.
    + apply Qle_shift_div_r; [lra |].
      assert (100 * of_u64 n * (1 + u) <= 100 * of_u64 d * (1 + u))
        by (apply Qmult_le_compat_r; lra).
      lra.
  - intros H53. rewrite percent_rounds_once by lia.
    apply (round_le_Z _ 100).
    + apply Qle_shift_div_l; [rewrite (Zlt_Qlt 0 d) in Hd; exact Hd |].
      rewrite (Zle_Qle 0 n) in Hn. change (inject_Z 0) with 0 in *. lra.
    + reflexivity.
    + apply Qle_shift_div_r; [rewrite (Zlt_Qlt 0 d) in Hd; exact Hd |].
      rewrite (Zle_Qle n d) in Hnd. change (inject_Z 100) with 100. lra.
Qed.

Lemma percent_mono (n n' d : Z) :
  (0 <= n <= n')%Z -> (0 <= d)%Z -> percent n d <= percent n' d.
Proof.
  intros [Hn Hnn] Hd. unfold percent, div, mul.
  pose proof (of_u64_nonneg n Hn) as Ha.
  pose proof (of_u64_nonneg d Hd) as Hb.
  pose proof (of_u64_mono n n' (conj Hn Hnn)) as Hab.
  assert (Hm : 0 <= round (100 * of_u64 n)) by (apply round_nonneg; lra).
  assert (Hmm : round (100 * of_u64 n) <= round (100 * of_u64 n'))
    by (apply round_mono; lra).
  apply round_mono.
  - unfold Qdiv. apply Qmult_le_0_compat; [exact Hm | apply Qinv_le_0_compat, Hb].
  - unfold Qdiv. apply Qmult_le_compat_r; [exact Hmm | apply Qinv_le_0_compat, Hb].
Qed.

(** The exponent range of binary64 is never reached: for nonzero 64-bit
    operands the two conversions, the product and the quotient all stay
    between [100 / 2^64] and [100 * 2^64]. *)
Lemma percent_normal_range (n d : Z) :
  (0 < n < 2 ^ 64)%Z -> (0 < d < 2 ^ 64)%Z ->
  1 <= of_u64 n <= 2 ^ 64 /\
  100 <= mul 100 (of_u64 n) <= 100 * 2 ^ 64 /\
  100 / 2 ^ 64 <= percent n d <= 100 * 2 ^ 64.
Proof.
  assert (Hconv : forall k, (0 < k < 2 ^ 64)%Z -> 1 <= of_u64 k <= 2 ^ 64).
  { intros k [Hk0 Hk]. split; [now apply of_u64_pos |].
    assert (E : of_u64 (2 ^ 64) == 2 ^ 64) by (vm_compute; reflexivity).
    rewrite <- E. apply of_u64_mono. lia. }
  intros Hn Hd.
  destruct (Hconv n Hn) as [A1 A2]. destruct (Hconv d Hd) as [B1 B2].
  assert (M : 100 <= mul 100 (of_u64 n) <= 100 * 2 ^ 64).
  { unfold mul. split.
    - assert (E : round 100 == 100) by (vm_compute; reflexivity).
      rewrite <- E at 1. apply round_mono; lra.
    - assert (E : round (100 * 2 ^ 64) == 100 * 2 ^ 64) by (vm_compute; reflexivity).
      rewrite <- E. apply round_mono; lra. }
  split; [now split |]. split; [exact M |].
  destruct M as [M1 M2]. unfold percent, div.
  set (m := mul 100 (of_u64 n)) in *. set (b := of_u64 d) in *.
  split.
  - assert (E : round (100 / 2 ^ 64) == 100 / 2 ^ 64) by (vm_compute; reflexivity).
    rewrite <- E. apply round_mono; [vm_compute; discriminate |].
    apply Qle_shift_div_l; [lra |].
    apply Qle_trans with (100 / 2 ^ 64 * 2 ^ 64).
    + apply Qmult_le_l; [reflexivity | exact B2].
    + assert (E' : 100 / 2 ^ 64 * 2 ^ 64 == 100) by reflexivity. lra.
  - assert (E : round (100 * 2 ^ 64) == 100 * 2 ^ 64) by (vm_compute; reflexivity).
    rewrite <- E. apply round_mono.
    + apply Qle_shift_div_l; [lra |]. rewrite Qmult_0_l. lra.
    + apply Qle_shift_div_r; [lra |].
      apply Qle_trans with (100 * 2 ^ 64 * 1); [lra |].
      apply Qmult_le_l; [reflexivity | exact B1].
Qed.

End PercentFacts.

(** *** The rounding against the Standard Library's IEEE 754 *)

(** On every pair of the sample values, from 1 to [2^64 - 1], [percent] is
    the number [IEEE754.percent] computes. *)
Remark percent_matches_ieee754 :
  forallb same_percent (list_prod (0 :: ieee754_samples) ieee754_samples) = true.
Proof. vm_compute. reflexivity. Qed.

(** On the figures of the specification's scenarios nothing is rounded. *)
Remark percent_on_scenarios :
  (percent 100 1000 == 10)%Q /\ (percent 20 1000 == 2)%Q /\
  (percent 50000 1000000 == 5)%Q.
Proof. repeat split. Qed.

(** Rounding shows on ordinary figures: one tick of three is
    33.333333333333336 percent, not [100 / 3].  It can also lift the share
    of a whole one unit in the last place above 100. *)
Remark percent_rounds :
  (percent 1 3 == 4691249611844267 # 140737488355328)%Q /\
  ~ (percent 1 3 == 100 / 3)%Q /\
  (percent ticks_rounding ticks_rounding == 100 + Binary64.ulp_100)%Q /\
  (100 < percent ticks_rounding ticks_rounding)%Q /\
  IEEE754.percent ticks_rounding ticks_rounding =
    S754_finite false 7036874417766401 (-46) /\
  IEEE754.of_u64 100 = S754_finite false 7036874417766400 (-46).
Proof. repeat split. vm_compute. discriminate. Qed.

(** ** System CPU percentage *)

(** C1, as stated, fails: the counters of [C1_cur] are all at least those
    of [C1_prev] and fit 64 bits, yet their sum wraps, [tot_diff] is 1,
    [idle_diff] is [2^64 - 1], and the percentage is 200. *)
Lemma cpu_usage_wraps :
  Cpu.wf C1_prev /\ Cpu.wf C1_cur /\ Cpu.le C1_prev C1_cur /\
  tot_diff_of C1_prev C1_cur = 1 /\
  idle_diff_of C1_prev C1_cur = U64 - 1 /\
  cpu_usage_of C1_prev C1_cur = percent 2 1 /\
  (cpu_usage_of C1_prev C1_cur == 200)%Q /\
  ~ (0 <= cpu_usage_of C1_prev C1_cur <= 100)%Q.
Proof.
  repeat split; try (vm_compute; congruence).
  intros [_ H]. vm_compute in H. apply H. reflexivity.
Qed.

(** Without any wrap the bound of 100 can still fail, by rounding: from all
    zeros to [ticks_rounding] busy ticks every counter grows, the exact
    quotient is 100, and the value computed is one unit in the last place
    above it, 100.00000000000001. *)
Remark cpu_usage_rounds_above_100 :
  let P := Cpu.zero in
  let C := Cpu.mk ticks_rounding 0 0 0 0 0 0 0 0 0 in
  Cpu.wf P /\ Cpu.wf C /\ Cpu.le P C /\ Cpu.sum C < U64 /\
  tot_diff_of P C = ticks_rounding /\ idle_diff_of P C = 0 /\
  (cpu_usage_of P C == 100 + Binary64.ulp_100)%Q /\
  (100 < cpu_usage_of P C)%Q /\
  2 ^ 53 <= 100 * ticks_rounding.
Proof.
  repeat split; try (vm_compute; congruence).
Qed.

(** C1 (amended): when every counter of the current snapshot is at least
    the previous one and the ten current counters sum to less than [2^64],
    the two differences are the true differences, and the percentage is
    the binary64 value of [100.0 * (double)(tot_diff - idle_diff) /
    (double)tot_diff] for a positive [tot_diff] and 0 otherwise.  It lies
    between 0 and one unit in the last place above 100.  When moreover
    [100 * tot_diff] is below [2^53], only the division rounds: the
    percentage is the exact quotient rounded to the nearest binary64
    number, and it lies between 0 and 100. *)
Theorem cpu_usage_monotone (P C : CpuSnapshot) :
  Cpu.wf P -> Cpu.wf C -> Cpu.le P C -> Cpu.sum C < U64 ->
  let tot_diff := Cpu.sum C - Cpu.sum P in
  let idle_diff := (Cpu.idle C + Cpu.iowait C) - (Cpu.idle P + Cpu.iowait P) in
  tot_diff_of P C = tot_diff /\
  idle_diff_of P C = idle_diff /\
  cpu_usage_of P C =
    (if 0 <? tot_diff then percent (tot_diff - idle_diff) tot_diff else 0%Q) /\
  (0 <= cpu_usage_of P C <= 100 + Binary64.ulp_100)%Q /\
  (100 * tot_diff < 2 ^ 53 ->
     (cpu_usage_of P C ==
        if 0 <? tot_diff
        then Binary64.round (100 * inject_Z (tot_diff - idle_diff) / inject_Z tot_diff)
        else 0)%Q /\
     (cpu_usage_of P C <= 100)%Q).
Proof.
  intros HP HC Hle Hsum tot_diff idle_diff.
  pose proof (sum_nonneg P HP) as HP0.
  pose proof (sum_mono P C Hle) as Hmono.
  assert (Htot : tot_diff_of P C = tot_diff).
  { unfold tot_diff_of. rewrite !total_sum.
    rewrite (wrap64_small (Cpu.sum C)) by (unfold is_u64; lia).
    rewrite (wrap64_small (Cpu.sum P)) by (unfold is_u64; lia).
    apply wrap64_small. unfold is_u64, tot_diff. lia. }
  assert (Hidle : idle_diff_of P C = idle_diff).
  { unfold idle_diff_of, Cpu.idleAll, add64.
    unfold Cpu.wf, Cpu.le, Cpu.sum, is_u64 in *.
    rewrite (wrap64_small (Cpu.idle C + Cpu.iowait C)) by (unfold is_u64; lia).
    rewrite (wrap64_small (Cpu.idle P + Cpu.iowait P)) by (unfold is_u64; lia).
    apply wrap64_small. unfold is_u64, idle_diff. lia. }
  assert (Hbusy : 0 <= tot_diff - idle_diff <= tot_diff).
  { unfold tot_diff, idle_diff, Cpu.wf, Cpu.le, Cpu.sum, is_u64 in *. lia. }
  assert (Hsub : sub64 tot_diff idle_diff = tot_diff - idle_diff).
  { apply wrap64_small. unfold is_u64. lia. }
  assert (Hcpu : cpu_usage_of P C =
    (if 0 <? tot_diff then percent (tot_diff - idle_diff) tot_diff else 0%Q)).
  { unfold cpu_usage_of. rewrite Htot, Hidle, Hsub. reflexivity. }
  split; [exact Htot |]. split; [exact Hidle |]. split; [exact Hcpu |].
  rewrite Hcpu. destruct (0 <? tot_diff) eqn:E.
  - apply Z.ltb_lt in E.
    destruct (percent_le_100 _ _ Hbusy E) as [Hulp H100].
    split; [split; [apply percent_nonneg; lia | exact Hulp] |].
    intros H53. split; [apply percent_rounds_once; lia | now apply H100].
  - split; [split; [apply Qle_refl | vm_compute; discriminate] |].
    intros _. split; [reflexivity | discriminate].
Qed.

(** Scenario A of the specification: 1000 ticks of which 900 idle. *)
Lemma cpu_usage_monotone_scenario_A :
  let P := Cpu.mk 100 0 0 900 0 0 0 0 0 0 in
  let C := Cpu.mk 200 0 0 1800 0 0 0 0 0 0 in
  (cpu_usage_of P C == 10)%Q /\
  tot_diff_of P C = 1000 /\ idle_diff_of P C = 900 /\
  cpu_usage_of P C = percent 100 1000 /\
  (0 <= cpu_usage_of P C <= 100 + Binary64.ulp_100)%Q /\
  (100 * 1000 < 2 ^ 53 ->
     (cpu_usage_of P C == Binary64.round (100 * inject_Z 100 / inject_Z 1000))%Q /\
     (cpu_usage_of P C <= 100)%Q).
Proof.
  intros P C. split; [reflexivity |].
  apply (cpu_usage_monotone P C); vm_compute; intuition congruence.
Defined.

(** ** Numeric conversions *)

Lemma digits_nonneg (s : string) : Forall (fun d => 0 <= d) (digits s).
Proof.
  induction s as [| c s IH]; simpl; [constructor |].
  destruct (isdigit c) eqn:E; constructor; [| exact IH].
  unfold isdigit in E. apply andb_true_iff in E as [E _].
  apply Z.leb_le in E. unfold digit_val. lia.
Qed.

Lemma decimal_from_nonneg (ds : list Z) (acc : Z) :
  Forall (fun d => 0 <= d) ds -> 0 <= acc ->
  0 <= fold_left (fun acc d => 10 * acc + d) ds acc.
Proof.
  intros H. revert acc.
  induction H as [| d ds Hd _ IH]; intros acc Hacc; simpl; [exact Hacc |].
  apply IH. lia.
Qed.

Lemma decimal_nonneg (ds : list Z) :
  Forall (fun d => 0 <= d) ds -> 0 <= decimal ds.
Proof. intros H. apply decimal_from_nonneg; [exact H | reflexivity]. Qed.

Lemma scan_int_nonneg (s : string) (neg : bool) (m : Z) :
  scan_int s = Some (neg, m) -> 0 <= m.
Proof.
  unfold scan_int.
  destruct (match skip_ws s with
            | EmptyString => _
            | String c s' => _
            end) as [n body].
  pose proof (digits_nonneg body) as Hd.
  destruct (digits body) as [| d ds]; [discriminate |].
  intros [= _ <-]. apply decimal_nonneg, Hd.
Qed.

Lemma extract_unsigned_range (M : Z) (s : string) :
  0 < M -> 0 <= extract_unsigned M s < M.
Proof.
  intros HM. unfold extract_unsigned.
  destruct (scan_int s) as [[neg m] |] eqn:E; [| lia].
  apply scan_int_nonneg in E.
  destruct (M <=? m) eqn:Em; [lia |].
  apply Z.leb_gt in Em.
  destruct neg; [apply Z.mod_pos_bound; exact HM | lia].
Qed.

(** ** Values after a label *)

(** After the label, either a conversion runs on what follows or, with
    nothing but white space left, the variable keeps what it held. *)
Lemma extract_after_label_cases (M : Z) (line : string) (cur : Z) :
  is_empty (skip_ws line) = false ->
  extract_after_label M line cur =
    if is_empty (skip_ws (after_label line)) then cur
    else extract_unsigned M (after_label line).
Proof.
  intros H. unfold extract_after_label, extract_label, open_stream, extract_uint.
  cbn [failed buf]. rewrite H. cbn [failed buf]. fold (after_label line).
  destruct (is_empty (skip_ws (after_label line))); reflexivity.
Qed.

Lemma extract_uint_range (M : Z) (ss : istream) (cur : Z) :
  0 <= cur < M -> 0 <= snd (extract_uint M ss cur) < M.
Proof.
  intros H. unfold extract_uint.
  destruct (failed ss); [exact H |].
  destruct (is_empty (skip_ws (buf ss))); [exact H |].
  cbn [snd]. apply extract_unsigned_range. lia.
Qed.

Lemma extract_after_label_range (M : Z) (line : string) (cur : Z) :
  0 <= cur < M -> 0 <= extract_after_label M line cur < M.
Proof. apply extract_uint_range. Qed.

Lemma indeterminate_u64 (env : Env) (line : string) :
  is_u64 (indeterminate env line mod U64).
Proof. apply Z.mod_pos_bound. reflexivity. Qed.

(** ** Memory *)

Lemma scan_meminfo_range env (file : option string) :
  is_u64 (mem_available (scan_meminfo env file)) /\
  is_u64 (mem_free (scan_meminfo env file)).
Proof.
  unfold scan_meminfo. destruct file as [content |]; [| now vm_compute].
  assert (H0 : is_u64 (mem_available {| mem_available := 0; mem_free := 0 |}) /\
               is_u64 (mem_free {| mem_available := 0; mem_free := 0 |}))
    by now vm_compute.
  revert H0. generalize {| mem_available := 0; mem_free := 0 |} as m.
  induction (lines content) as [| line ls IH]; intros m H0; cbn [fold_left]; [exact H0 |].
  apply IH. cbv zeta.
  pose proof (extract_after_label_range U64 line _ (indeterminate_u64 env line)) as Hv.
  destruct (starts_with "MemAvailable:" line); cbn [mem_available mem_free].
  { split; [exact Hv | apply H0]. }
  destruct (starts_with "MemFree:" line); cbn [mem_available mem_free]; [| exact H0].
  split; [apply H0 | exact Hv].
Qed.

Lemma scan_meminfo_no_available env (file : option string) :
  no_line "MemAvailable:" file -> mem_available (scan_meminfo env file) = 0.
Proof.
  unfold no_line, lines_of, scan_meminfo.
  destruct file as [content |]; [| reflexivity].
  assert (H0 : mem_available {| mem_available := 0; mem_free := 0 |} = 0)
    by reflexivity.
  revert H0. generalize {| mem_available := 0; mem_free := 0 |} as m.
  induction (lines content) as [| line ls IH]; intros m H0 H; cbn [fold_left]; [exact H0 |].
  inversion H as [| ? ? Hline Hrest]; subst.
  apply IH; [| exact Hrest]. cbv zeta.
  rewrite Hline. destruct (starts_with "MemFree:" line); cbn [mem_available]; exact H0.
Qed.

(** ** The shape of a completed tick *)

Lemma tick_inv std_sort env st s st' fr :
  tick std_sort env st s = Ok (st', fr) ->
  exists procs,
    for_each
      (sample_proc env (prev_procs st) (tot_diff_of (prev_cpu st) (cur_cpu s))
         (total_mem_kb_cache st) (files s))
      (pids s) = Ok procs /\
    prev_cpu st' = cur_cpu s /\
    prev_procs st' = install procs /\
    cpu_usage fr = cpu_usage_of (prev_cpu st) (cur_cpu s) /\
    mem_total fr = total_mem_kb_cache st /\
    mem_used fr = mem_used_of (total_mem_kb_cache st) (scan_meminfo env (meminfo s)) /\
    table fr = std_sort (comparator (sort_by_cpu st)) procs /\
    rows fr = draw_rows (LINES s) (table fr).
Proof.
  unfold tick. intros H.
  destruct (for_each _ (pids s)) as [procs | e] eqn:E; [| discriminate].
  cbn [bind] in H. injection H as <- <-.
  exists procs. repeat split.
Qed.

(** ** Used memory *)

(** C6, as stated, fails: the summary has no [MemAvailable:] line, the
    total is 1000 and free is 300, and the tick shows 1000 used, not 700. *)
Lemma mem_used_without_available :
  no_line "MemAvailable:" (Some meminfo_old_kernel) /\
  mem_free (scan_meminfo env0 (Some meminfo_old_kernel)) = 300 /\
  exists st' fr,
    tick insertion_sort env0 (state0 1000) (sample_mem meminfo_old_kernel)
      = Ok (st', fr) /\
    mem_used fr = 1000 /\
    mem_used fr <> 1000 - 300.
Proof.
  split; [repeat constructor |].
  split; [reflexivity |].
  eexists. eexists. split; [vm_compute; reflexivity |].
  split; [reflexivity | discriminate].
Qed.

(** C6 (amended): the used memory of a tick is [total - available] when
    the total exceeds the available value, and [total - free] reduced
    modulo [2^64] otherwise; a summary without a [MemAvailable:] line
    leaves available at 0, so that for a positive total the used memory
    is the total itself. *)
Theorem mem_used_by_comparison std_sort env st s st' fr :
  tick std_sort env st s = Ok (st', fr) ->
  is_u64 (total_mem_kb_cache st) ->
  let total := total_mem_kb_cache st in
  let m := scan_meminfo env (meminfo s) in
  (mem_available m < total -> mem_used fr = total - mem_available m) /\
  (total <= mem_available m -> mem_used fr = wrap64 (total - mem_free m)) /\
  (no_line "MemAvailable:" (meminfo s) ->
     mem_available m = 0 /\ (0 < total -> mem_used fr = total)).
Proof.
  intros Ht Htot total m.
  destruct (tick_inv _ _ _ _ _ _ Ht) as (procs & _ & _ & _ & _ & _ & Hu & _).
  destruct (scan_meminfo_range env (meminfo s)) as [Ha Hf].
  fold m in Ha, Hf, Hu. fold total in Hu, Htot.
  assert (Hlt : mem_available m < total -> mem_used fr = total - mem_available m).
  { intros Hlt. rewrite Hu. unfold mem_used_of.
    apply Z.ltb_lt in Hlt as Hb. rewrite Hb.
    apply wrap64_small. unfold is_u64 in *. lia. }
  repeat split.
  - exact Hlt.
  - intros Hge. rewrite Hu. unfold mem_used_of.
    apply Z.ltb_ge in Hge. now rewrite Hge.
  - now apply scan_meminfo_no_available.
  - intros Hpos.
    assert (Hz : mem_available m = 0) by now apply scan_meminfo_no_available.
    rewrite Hlt; lia.
Qed.

Lemma mem_used_by_comparison_old_kernel :
  exists st' fr,
    tick insertion_sort env0 (state0 1000) (sample_mem meminfo_old_kernel)
      = Ok (st', fr) /\
    is_u64 1000 /\
    let m := scan_meminfo env0 (Some meminfo_old_kernel) in
    (mem_available m < 1000 -> mem_used fr = 1000 - mem_available m) /\
    (1000 <= mem_available m -> mem_used fr = wrap64 (1000 - mem_free m)) /\
    (no_line "MemAvailable:" (Some meminfo_old_kernel) ->
       mem_available m = 0 /\ (0 < 1000 -> mem_used fr = 1000)).
Proof.
  eexists. eexists. split; [vm_compute; reflexivity |].
  split; [vm_compute; intuition congruence |].
  eapply (mem_used_by_comparison insertion_sort env0 (state0 1000)
           (sample_mem meminfo_old_kernel)).
  - vm_compute; reflexivity.
  - vm_compute; intuition congruence.
Defined.

(** C10: the subtraction is unguarded 64-bit arithmetic.  When the cached
    total does not exceed the available value and free exceeds the total,
    the used memory shown is [(total - free) mod 2^64], that is
    [2^64 - (free - total)]: at least [2^64 - free] and never 0. *)
Theorem mem_used_underflow std_sort env st s st' fr :
  tick std_sort env st s = Ok (st', fr) ->
  is_u64 (total_mem_kb_cache st) ->
  let total := total_mem_kb_cache st in
  let m := scan_meminfo env (meminfo s) in
  total <= mem_available m ->
  total < mem_free m ->
  mem_used fr = (total - mem_free m) mod 2 ^ 64 /\
  mem_used fr = 2 ^ 64 - (mem_free m - total) /\
  2 ^ 64 - mem_free m <= mem_used fr < 2 ^ 64 /\
  mem_used fr <> 0.
Proof.
  intros Ht Htot total m Hav Hfree.
  destruct (tick_inv _ _ _ _ _ _ Ht) as (procs & _ & _ & _ & _ & _ & Hu & _).
  destruct (scan_meminfo_range env (meminfo s)) as [_ Hf].
  fold m in Hf, Hu. fold total in Hu, Htot.
  assert (E : mem_used fr = sub64 total (mem_free m)).
  { rewrite Hu. unfold mem_used_of. apply Z.ltb_ge in Hav. now rewrite Hav. }
  pose proof (sub64_borrow total (mem_free m) Htot Hf Hfree) as Hb.
  change U64 with (2 ^ 64) in Hb.
  unfold is_u64 in *. change U64 with (2 ^ 64) in *.
  repeat split; try (rewrite E, Hb; lia).
  rewrite E. reflexivity.
Qed.

Lemma mem_used_underflow_total_zero :
  startup env0 Cpu.zero (Some meminfo_free_only) = state0 0 /\
  exists st' fr,
    tick insertion_sort env0 (state0 0) (sample_mem meminfo_free_only)
      = Ok (st', fr) /\
    is_u64 0 /\
    let m := scan_meminfo env0 (Some meminfo_free_only) in
    0 <= mem_available m /\
    0 < mem_free m /\
    mem_used fr = (0 - mem_free m) mod 2 ^ 64 /\
    mem_used fr = 2 ^ 64 - (mem_free m - 0) /\
    2 ^ 64 - mem_free m <= mem_used fr < 2 ^ 64 /\
    mem_used fr <> 0.
Proof.
  split; [reflexivity |].
  eexists. eexists. split; [vm_compute; reflexivity |].
  split; [vm_compute; intuition congruence |].
  split; [vm_compute; congruence |].
  split; [reflexivity |].
  eapply (mem_used_underflow insertion_sort env0 (state0 0)
           (sample_mem meminfo_free_only)).
  - vm_compute; reflexivity.
  - vm_compute; intuition congruence.
  - vm_compute; congruence.
  - reflexivity.
Defined.

(** ** Comparators *)

Lemma Qgtb_true (a b : Q) : Qgtb a b = true <-> (b < a)%Q.
Proof.
  unfold Qgtb. rewrite negb_true_iff, <- not_true_iff_false, Qle_bool_iff.
  split; [apply Qnot_le_lt | apply Qlt_not_le].
Qed.

Lemma Qgtb_false (a b : Q) : Qgtb a b = false <-> (a <= b)%Q.
Proof. unfold Qgtb. rewrite negb_false_iff. apply Qle_bool_iff. Qed.

(** The comparator of a mode is the strict lexicographic "greater" on
    (primary key, secondary key). *)
Lemma comparator_true (mode : bool) (a b : ProcSnapshot) :
  comparator mode a b = true <->
  (key1 mode b < key1 mode a)%Q \/
  (key1 mode a == key1 mode b /\ key2 mode b < key2 mode a)%Q.
Proof.
  destruct mode; unfold comparator, by_cpu, by_mem, key1, key2.
  all: destruct (Qeq_bool _ _) eqn:E;
    [apply Qeq_bool_iff in E | apply Qeq_bool_neq in E];
    rewrite Qgtb_true; split; intros H; try lra.
  all: destruct H as [H | [H1 H2]]; try lra; contradiction.
Qed.

Lemma comparator_false (mode : bool) (a b : ProcSnapshot) :
  comparator mode a b = false <->
  (key1 mode a < key1 mode b)%Q \/
  (key1 mode a == key1 mode b /\ key2 mode a <= key2 mode b)%Q.
Proof.
  rewrite <- not_true_iff_false, comparator_true.
  split; intros H.
  - destruct (Qlt_le_dec (key1 mode a) (key1 mode b)) as [Hlt | Hge]; [now left |].
    right. split; lra.
  - intros [H1 | [H1 H2]]; destruct H as [H | [H3 H4]]; lra.
Qed.

Lemma comparator_strict_weak (mode : bool) : strict_weak (comparator mode).
Proof.
  constructor.
  - intros x. apply comparator_false. right. split; [reflexivity | apply Qle_refl].
  - intros x y z. rewrite !comparator_true. intros H1 H2.
    destruct H1 as [H1 | [H1 H1']]; destruct H2 as [H2 | [H2 H2']];
      [left | left | left | right; split]; lra.
  - intros x y z. rewrite !comparator_false. intros H1 H2.
    destruct H1 as [H1 | [H1 H1']]; destruct H2 as [H2 | [H2 H2']];
      [left | left | left | right; split]; lra.
Qed.

(** ** Sorting *)

Section SortFacts.

Context {A : Type} (comp : A -> A -> bool) (Hsw : strict_weak comp).

Lemma comp_asym (x y : A) : comp x y = true -> comp y x = false.
Proof.
  intros H. destruct (comp y x) eqn:E; [| reflexivity].
  rewrite <- (sw_irrefl comp Hsw x). symmetry.
  exact (sw_trans comp Hsw x y x H E).
Qed.

Lemma not_after_trans (x y z : A) :
  not_after comp x y -> not_after comp y z -> not_after comp x z.
Proof. unfold not_after. intros H1 H2. exact (sw_incomp comp Hsw z y x H2 H1). Qed.

Lemma not_after_total (x y : A) : not_after comp x y \/ not_after comp y x.
Proof.
  unfold not_after. destruct (comp y x) eqn:E; [| now left].
  right. now apply comp_asym.
Qed.

Lemma Sorted_not_after_strong (l : list A) :
  Sorted (not_after comp) l -> StronglySorted (not_after comp) l.
Proof.
  apply Sorted_StronglySorted. intros x y z. apply not_after_trans.
Qed.

Lemma tied_refl (x : A) : tied comp x x.
Proof. split; apply (sw_irrefl comp Hsw). Qed.

Lemma tied_sym (x y : A) : tied comp x y -> tied comp y x.
Proof. unfold tied. tauto. Qed.

Lemma tied_trans (x y z : A) : tied comp x y -> tied comp y z -> tied comp x z.
Proof.
  intros [H1 H2] [H3 H4]. split.
  - exact (sw_incomp comp Hsw x y z H1 H3).
  - exact (sw_incomp comp Hsw z y x H4 H2).
Qed.

(** *** Insertion sort meets the contract *)

Lemma linear_insert_perm (val : A) (acc : list A) :
  Permutation (linear_insert comp val acc) (val :: acc).
Proof.
  induction acc as [| e rest IH]; simpl; [reflexivity |].
  destruct (comp val e); [| reflexivity].
  rewrite IH. apply perm_swap.
Qed.

Lemma insertion_fold_perm (l acc : list A) :
  Permutation (fold_left (fun acc val => linear_insert comp val acc) l acc)
              (l ++ acc).
Proof.
  revert acc. induction l as [| x l IH]; intros acc; simpl; [reflexivity |].
  rewrite IH, linear_insert_perm. symmetry. apply Permutation_middle.
Qed.

Lemma insertion_sort_perm (l : list A) : Permutation (insertion_sort comp l) l.
Proof.
  unfold insertion_sort. rewrite reverse_Permutation, insertion_fold_perm.
  now rewrite app_nil_r.
Qed.

(** The reversed prefix is sorted for the flipped relation [before]. *)
Lemma linear_insert_hd (e val : A) (rest : list A) :
  HdRel (before comp) e rest -> before comp e val ->
  HdRel (before comp) e (linear_insert comp val rest).
Proof.
  intros Hh Hv. destruct rest as [| e' rest']; simpl; [now constructor |].
  destruct (comp val e'); constructor; [| exact Hv].
  now inversion Hh.
Qed.

Lemma linear_insert_sorted (val : A) (acc : list A) :
  Sorted (before comp) acc -> Sorted (before comp) (linear_insert comp val acc).
Proof.
  induction 1 as [| e rest Hs IH Hh]; simpl; [repeat constructor |].
  destruct (comp val e) eqn:E.
  - constructor; [exact IH |].
    apply linear_insert_hd; [exact Hh |].
    unfold before. now apply comp_asym.
  - constructor; [now constructor |]. now constructor.
Qed.

Lemma insertion_fold_sorted (l acc : list A) :
  Sorted (before comp) acc ->
  Sorted (before comp) (fold_left (fun acc val => linear_insert comp val acc) l acc).
Proof.
  revert acc. induction l as [| x l IH]; intros acc H; simpl; [exact H |].
  apply IH, linear_insert_sorted, H.
Qed.

Lemma insertion_sort_sorted (l : list A) :
  Sorted (not_after comp) (insertion_sort comp l).
Proof.
  unfold insertion_sort.
  change (not_after comp) with (flip (before comp)).
  apply Sorted_reverse, insertion_fold_sorted. constructor.
Qed.

(** *** Two sorted arrangements of the same rows agree up to ties *)

Lemma Forall2_tied_refl (l : list A) : Forall2 (tied comp) l l.
Proof. apply Forall_Forall2_diag, Forall_forall. intros x _. apply tied_refl. Qed.

Lemma sorted_perm_tied (l1 l2 : list A) :
  StronglySorted (not_after comp) l1 ->
  StronglySorted (not_after comp) l2 ->
  Permutation l1 l2 ->
  Forall2 (tied comp) l1 l2.
Proof.
  revert l2. induction l1 as [| x t1 IH]; intros l2 H1 H2 HP.
  { apply Permutation_nil in HP. subst. constructor. }
  assert (Hx : x ∈ l2) by (rewrite <- HP; left).
  apply list_elem_of_split in Hx as (a & b & ->).
  apply Permutation_cons_app_inv in HP.
  apply StronglySorted_cons in H1 as [Hx1 Ht1].
  destruct a as [| y a'].
  { simpl in *. apply StronglySorted_cons in H2 as [_ Hb].
    constructor; [apply tied_refl | now apply IH]. }
  rewrite Forall_forall in Hx1.
  assert (Ha : forall z, z ∈ y :: a' -> tied comp z x).
  { intros z Hz. split.
    - apply Hx1. rewrite HP. apply elem_of_app. left. exact Hz.
    - apply (StronglySorted_app_1_elem_of _ _ _ _ _ H2 Hz). left. }
  assert (Hy : tied comp y x) by (apply Ha; left).
  assert (Hs : StronglySorted (not_after comp) (a' ++ y :: b)).
  { apply StronglySorted_app_2.
    - intros z1 z2 Hz1 Hz2. apply elem_of_cons in Hz2 as [-> | Hz2].
      + assert (Hz : tied comp z1 y).
        { apply (tied_trans _ x); [apply Ha; now right | now apply tied_sym]. }
        apply Hz.
      + apply (StronglySorted_app_1_elem_of _ _ _ _ _ H2); now right.
    - apply StronglySorted_app_1_l in H2.
      now apply StronglySorted_cons in H2 as [_ H2].
    - apply StronglySorted_cons. split.
      + apply Forall_forall. intros z Hz.
        apply (StronglySorted_app_1_elem_of _ _ _ _ _ H2); [left |].
        right. exact Hz.
      + apply StronglySorted_app_1_r in H2.
        now apply StronglySorted_cons in H2 as [_ H2]. }
  assert (HP' : Permutation t1 (a' ++ y :: b)).
  { rewrite HP. simpl. apply Permutation_middle. }
  specialize (IH _ Ht1 Hs HP').
  simpl. constructor; [now apply tied_sym |].
  apply (Forall2_trans (tied comp) (tied comp) (tied comp) t1 (a' ++ y :: b));
    [intros ? ? ?; apply tied_trans | exact IH |].
  apply Forall2_app; [apply Forall2_tied_refl |].
  constructor; [exact Hy | apply Forall2_tied_refl].
Qed.

End SortFacts.

Lemma insertion_sort_contract {A : Type} : sort_contract (@insertion_sort A).
Proof.
  intros comp Hsw l. split.
  - apply insertion_sort_perm.
  - now apply insertion_sort_sorted.
Qed.

(** ** Ranking *)

Lemma StronglySorted_lookup {A} (R : A -> A -> Prop) (l : list A) (i j : nat) (a b : A) :
  StronglySorted R l -> (i < j)%nat -> l !! i = Some a -> l !! j = Some b -> R a b.
Proof.
  intros H. revert i j. induction H as [| x l Hs IH Hx]; intros i j Hij Hi Hj.
  { discriminate. }
  destruct j as [| j]; [lia |]. simpl in Hj.
  destruct i as [| i]; simpl in Hi.
  - injection Hi as <-. rewrite Forall_forall in Hx. apply Hx.
    apply list_elem_of_lookup. now exists j.
  - apply (IH i j); [lia | assumption | assumption].
Qed.

Lemma tied_same_keys (mode : bool) (a b : ProcSnapshot) :
  tied (comparator mode) a b -> same_keys mode a b.
Proof.
  intros [H1 H2]. apply comparator_false in H1, H2. unfold same_keys.
  destruct H1 as [H1 | [H1 H1']]; destruct H2 as [H2 | [H2 H2']]; split; lra.
Qed.

(** C5, as stated, fails: the comparators never look at the process id.
    Rows 9 and 100 agree on both keys, neither is ranked before the
    other, and a tick that lists 100 before 9 shows them in that order. *)
Lemma ranking_ignores_pid :
  let a := row 9 4 2 in
  let b := row 100 4 2 in
  a <> b /\
  by_cpu a b = false /\ by_cpu b a = false /\
  by_mem a b = false /\ by_mem b a = false /\
  sort_contract (@insertion_sort ProcSnapshot) /\
  insertion_sort by_cpu [b; a] = [b; a] /\
  exists st' fr,
    tick insertion_sort env0 (state0 1000) sample_unreadable = Ok (st', fr) /\
    map Proc.pid (table fr) = [100; 9] /\
    map (fun r => Proc.pid (snd r)) (rows fr) = [100; 9].
Proof.
  intros a b.
  split; [discriminate |].
  do 4 (split; [reflexivity |]).
  split; [apply insertion_sort_contract |].
  split; [reflexivity |].
  eexists. eexists. split; [vm_compute; reflexivity |].
  split; reflexivity.
Qed.

(** C5 (amended): in either mode the sorted table holds the rows it was
    given, ordered by the primary key descending and, among equal primary
    keys, by the secondary key descending; rows equal on both keys are
    left in an order the comparator does not determine (it is a strict
    weak ordering, with no process-id tie-break); sorting the sorted table
    again yields, position by position, rows with the same two keys. *)
Theorem ranking_by_two_keys
    (std_sort : (ProcSnapshot -> ProcSnapshot -> bool) ->
                list ProcSnapshot -> list ProcSnapshot)
    (mode : bool) (l : list ProcSnapshot) :
  sort_contract std_sort ->
  let out := std_sort (comparator mode) l in
  Permutation out l /\
  (forall i j a b, (i < j)%nat -> out !! i = Some a -> out !! j = Some b ->
     (key1 mode b <= key1 mode a)%Q /\
     (key1 mode a == key1 mode b -> key2 mode b <= key2 mode a)%Q) /\
  strict_weak (comparator mode) /\
  Forall2 (same_keys mode) (std_sort (comparator mode) out) out.
Proof.
  intros Hc out.
  pose proof (comparator_strict_weak mode) as Hsw.
  destruct (Hc _ Hsw l) as [Hperm Hsorted]. fold out in Hperm, Hsorted.
  destruct (Hc _ Hsw out) as [Hperm2 Hsorted2].
  apply (Sorted_not_after_strong _ Hsw) in Hsorted, Hsorted2.
  split; [exact Hperm |].
  split; [| split; [exact Hsw |]].
  - intros i j a b Hij Hi Hj.
    pose proof (StronglySorted_lookup _ _ _ _ _ _ Hsorted Hij Hi Hj) as Hab.
    apply comparator_false in Hab.
    split; [| intros Heq]; destruct Hab as [Hab | [Hab Hab']]; lra.
  - eapply Forall2_impl; [| intros a b; apply tied_same_keys].
    now apply sorted_perm_tied.
Qed.

Lemma ranking_by_two_keys_scenario_E :
  sort_contract (@insertion_sort ProcSnapshot) /\
  let l := [row 9 4 2; row 100 4 3] in
  let out := insertion_sort (comparator true) l in
  Permutation out l /\
  (forall i j a b, (i < j)%nat -> out !! i = Some a -> out !! j = Some b ->
     (key1 true b <= key1 true a)%Q /\
     (key1 true a == key1 true b -> key2 true b <= key2 true a)%Q) /\
  strict_weak (comparator true) /\
  Forall2 (same_keys true) (insertion_sort (comparator true) out) out.
Proof.
  split; [apply insertion_sort_contract |].
  apply (ranking_by_two_keys insertion_sort true [row 9 4 2; row 100 4 3]).
  apply insertion_sort_contract.
Defined.

Example scenario_E_order :
  map Proc.pid (insertion_sort (comparator true) [row 9 4 2; row 100 4 3]) = [100; 9].
Proof. reflexivity. Qed.

(** ** The process loop *)

Lemma for_each_Forall2 {A B} (f : A -> result B) (l : list A) (ys : list B) :
  for_each f l = Ok ys -> Forall2 (fun x y => f x = Ok y) l ys.
Proof.
  revert ys. induction l as [| x l IH]; intros ys H; simpl in H.
  { injection H as <-. constructor. }
  destruct (f x) as [y | e] eqn:Ex; [| discriminate].
  destruct (for_each f l) as [ys' | e] eqn:El; [| discriminate].
  injection H as <-. constructor; [exact Ex | now apply IH].
Qed.

Lemma Forall2_In_r {A B} (P : A -> B -> Prop) (l : list A) (k : list B) (y : B) :
  Forall2 P l k -> In y k -> exists x, In x l /\ P x y.
Proof.
  induction 1 as [| x y' l k Hxy _ IH]; intros Hin; [contradiction |].
  destruct Hin as [<- | Hin].
  - exists x. split; [now left | exact Hxy].
  - destruct (IH Hin) as (x' & Hx' & HP). exists x'. split; [now right | exact HP].
Qed.

Lemma Forall2_In_l {A B} (P : A -> B -> Prop) (l : list A) (k : list B) (x : A) :
  Forall2 P l k -> In x l -> exists y, In y k /\ P x y.
Proof.
  induction 1 as [| x' y l k Hxy _ IH]; intros Hin; [contradiction |].
  destruct Hin as [<- | Hin].
  - exists y. split; [now left | exact Hxy].
  - destruct (IH Hin) as (y' & Hy' & HP). exists y'. split; [now right | exact HP].
Qed.

Lemma read_proc_inv env fs pid cur :
  read_proc env fs pid = Ok cur ->
  exists sf, read_stat env fs = Ok sf /\
    Proc.pid cur = pid /\ Proc.utime cur = sf_utime sf /\
    Proc.stime cur = sf_stime sf /\ Proc.rss cur = sf_rss sf /\
    Proc.cmd cur = read_cmd fs /\ Proc.user cur = read_user env fs.
Proof.
  unfold read_proc. destruct (read_stat env fs) as [sf | e]; [| discriminate].
  cbn [bind]. intros [= <-]. exists sf. repeat split.
Qed.

Lemma sample_proc_inv env prev tot_diff mem_total files pid r :
  sample_proc env prev tot_diff mem_total files pid = Ok r ->
  exists cur, read_proc env (files pid) pid = Ok cur /\
    Proc.pid r = pid /\
    Proc.utime r = Proc.utime cur /\ Proc.stime r = Proc.stime cur /\
    Proc.rss r = Proc.rss cur /\
    Proc.cpu_percent r = cpu_pct_of prev tot_diff pid r /\
    Proc.mem_percent r = mem_pct_of mem_total r.
Proof.
  unfold sample_proc.
  destruct (read_proc env (files pid) pid) as [cur | e] eqn:E; [| discriminate].
  cbn [bind]. intros [= <-]. exists cur.
  apply read_proc_inv in E as (sf & _ & Hpid & _).
  repeat split. exact Hpid.
Qed.

Lemma total_time_range (p : ProcSnapshot) : is_u64 (Proc.total_time p).
Proof. apply wrap64_range. Qed.

Lemma proc_time_diff_exact (prev cur : ProcSnapshot) :
  proc_time_diff_of prev cur =
    if Proc.total_time prev <=? Proc.total_time cur
    then Proc.total_time cur - Proc.total_time prev else 0.
Proof.
  unfold proc_time_diff_of.
  destruct (Proc.total_time prev <=? Proc.total_time cur) eqn:E; [| reflexivity].
  apply Z.leb_le in E.
  pose proof (total_time_range prev). pose proof (total_time_range cur).
  apply wrap64_small. unfold is_u64 in *. lia.
Qed.

(** ** The installed mapping *)

Lemma install_from_lookup (procs : list ProcSnapshot) (m : gmap Z ProcSnapshot) (q : Z) :
  is_Some (fold_left (fun m p => <[Proc.pid p := p]> m) procs m !! q) <->
  is_Some (m !! q) \/ In q (map Proc.pid procs).
Proof.
  revert m. induction procs as [| p procs IH]; intros m; simpl.
  { tauto. }
  rewrite IH. rewrite lookup_insert_is_Some. 
  destruct (decide (Proc.pid p = q)) as [-> | Hne]; intuition congruence.
Qed.

Lemma install_lookup (procs : list ProcSnapshot) (q : Z) :
  is_Some (install procs !! q) <-> In q (map Proc.pid procs).
Proof.
  unfold install. rewrite install_from_lookup, lookup_empty.
  split; [intros [[? [=]] | H]; exact H | now right].
Qed.

Lemma sampled_pids env prev tot_diff mem_total files pids procs :
  for_each (sample_proc env prev tot_diff mem_total files) pids = Ok procs ->
  map Proc.pid procs = pids.
Proof.
  intros H. apply for_each_Forall2 in H.
  induction H as [| pid r pids procs Hr _ IH]; [reflexivity |].
  apply sample_proc_inv in Hr as (_ & _ & Hpid & _).
  simpl. now rewrite Hpid, IH.
Qed.

(** ** Rendering *)

Lemma draw_from_In (bound i line : Z) (procs : list ProcSnapshot) (r : ProcSnapshot) :
  In (line, r) (draw_from bound i procs) -> In r procs.
Proof.
  revert i. induction procs as [| p rest IH]; intros i H; simpl in H; [contradiction |].
  destruct (i <? bound); [| contradiction].
  destruct H as [[= _ <-] | H]; [now left | right; now apply (IH (i + 1))].
Qed.

Lemma table_In std_sort mode (procs : list ProcSnapshot) (r : ProcSnapshot) :
  sort_contract std_sort ->
  In r (std_sort (comparator mode) procs) <-> In r procs.
Proof.
  intros Hc. destruct (Hc _ (comparator_strict_weak mode) procs) as [Hperm _].
  split; apply Permutation_in; [exact Hperm | now symmetry].
Qed.

(** ** Per-process CPU percentage *)

Lemma tot_diff_plain (P C : CpuSnapshot) :
  is_u64 (Cpu.sum P) -> is_u64 (Cpu.sum C) -> Cpu.sum P <= Cpu.sum C ->
  tot_diff_of P C = Cpu.sum C - Cpu.sum P.
Proof.
  intros HP HC Hle. unfold tot_diff_of. rewrite !total_sum.
  rewrite (wrap64_small _ HP), (wrap64_small _ HC).
  apply wrap64_small. unfold is_u64 in *. lia.
Qed.

Lemma proc_time_diff_plain (prev cur : ProcSnapshot) :
  is_u64 (Proc.utime prev + Proc.stime prev) ->
  is_u64 (Proc.utime cur + Proc.stime cur) ->
  proc_time_diff_of prev cur =
    if Proc.utime prev + Proc.stime prev <=? Proc.utime cur + Proc.stime cur
    then (Proc.utime cur + Proc.stime cur) - (Proc.utime prev + Proc.stime prev)
    else 0.
Proof.
  intros Hp Hc. rewrite proc_time_diff_exact. unfold Proc.total_time, add64.
  now rewrite (wrap64_small _ Hp), (wrap64_small _ Hc).
Qed.

(** C3, as stated, fails: process 42 had [utime + stime = 102] and now has
    a utime of [2^64 - 1] and a stime of 2.  Its current [utime + stime]
    is at least the previous one and [tot_diff] is 1000, which makes
    [proc_diff = 2^64 - 101] and a cpu_percent far from 0; the sum wraps
    to 1 in [total_time()], the guard [cur_total_time >= prev_total_time]
    fails, and the cpu_percent shown is 0. *)
Lemma cpu_percent_total_time_wraps :
  exists st' fr r prev,
    tick insertion_sort env0 state_W sample_W = Ok (st', fr) /\
    table fr = [r] /\ Proc.pid r = 42 /\
    prev_procs state_W !! 42 = Some prev /\
    Proc.utime prev + Proc.stime prev = 102 /\
    Proc.utime r + Proc.stime r = 2 ^ 64 + 1 /\
    Proc.total_time r = 1 /\
    tot_diff_of (prev_cpu state_W) (cur_cpu sample_W) = 1000 /\
    Proc.cpu_percent r = 0%Q /\
    ~ (Proc.cpu_percent r == 100 * inject_Z (2 ^ 64 + 1 - 102) / inject_Z 1000)%Q.
Proof.
  do 4 eexists.
  split; [vm_compute; reflexivity |].
  split; [reflexivity |].
  split; [reflexivity |].
  split; [vm_compute; reflexivity |].
  repeat split. vm_compute. discriminate.
Qed.

(** The difference of the totals wraps as well: when [/proc/stat] does not
    open in a tick, the current total is 0, below the previous 1000, and
    [tot_diff] is [2^64 - 1000], a positive number; a process that
    advanced shows a cpu_percent that is tiny but not the 0 of
    [tot_diff <= 0]. *)
Remark cpu_percent_after_unreadable_stat :
  Cpu.sum (cur_cpu sample_no_stat) - Cpu.sum (prev_cpu state_B) = - 1000 /\
  tot_diff_of (prev_cpu state_B) (cur_cpu sample_no_stat) = 2 ^ 64 - 1000 /\
  exists st' fr r rest,
    tick insertion_sort env0 state_B sample_no_stat = Ok (st', fr) /\
    table fr = r :: rest /\ Proc.pid r = 42 /\
    Proc.cpu_percent r = percent 20 (2 ^ 64 - 1000) /\
    (0 < Proc.cpu_percent r)%Q.
Proof.
  split; [reflexivity |]. split; [reflexivity |].
  do 4 eexists.
  split; [vm_compute; reflexivity |].
  repeat split.
Qed.

(** C3 (amended): in a tick that completes, with CPU totals that do not
    wrap, every sampled process id has a row in the table and every row
    belongs to a sampled id [q].  When [q] is not in the previous mapping
    its cpu_percent is 0.  When it is, and neither [utime + stime] leaves
    64 bits, [proc_diff] is the current [utime + stime] minus the previous
    one when that is not negative and 0 when it is, and the cpu_percent is
    the binary64 value of [100.0 * (double)proc_diff / (double)tot_diff]
    for a positive [tot_diff], 0 otherwise.  When [100 * proc_diff] and
    [tot_diff] are below [2^53], that value is the exact quotient rounded
    to the nearest binary64 number. *)
Theorem cpu_percent_of_row
    (std_sort : (ProcSnapshot -> ProcSnapshot -> bool) ->
                list ProcSnapshot -> list ProcSnapshot)
    env st s st' fr :
  sort_contract std_sort ->
  tick std_sort env st s = Ok (st', fr) ->
  is_u64 (Cpu.sum (prev_cpu st)) -> is_u64 (Cpu.sum (cur_cpu s)) ->
  Cpu.sum (prev_cpu st) <= Cpu.sum (cur_cpu s) ->
  let tot_diff := Cpu.sum (cur_cpu s) - Cpu.sum (prev_cpu st) in
  (forall q, In q (pids s) -> exists r, In r (table fr) /\ Proc.pid r = q) /\
  (forall r, In r (table fr) ->
     let q := Proc.pid r in
     In q (pids s) /\
     (prev_procs st !! q = None -> Proc.cpu_percent r = 0%Q) /\
     (forall prev, prev_procs st !! q = Some prev ->
        let cur_time := Proc.utime r + Proc.stime r in
        let prev_time := Proc.utime prev + Proc.stime prev in
        is_u64 cur_time -> is_u64 prev_time ->
        let proc_diff := if prev_time <=? cur_time then cur_time - prev_time else 0 in
        Proc.cpu_percent r =
          (if 0 <? tot_diff then percent proc_diff tot_diff else 0%Q) /\
        (100 * proc_diff < 2 ^ 53 -> tot_diff < 2 ^ 53 ->
           (Proc.cpu_percent r ==
              if 0 <? tot_diff
              then Binary64.round (100 * inject_Z proc_diff / inject_Z tot_diff)
              else 0)%Q))).
Proof.
  intros Hc Ht HP HC Hle tot_diff.
  destruct (tick_inv _ _ _ _ _ _ Ht) as (procs & Hfor & _ & _ & _ & _ & _ & Htab & _).
  pose proof (for_each_Forall2 _ _ _ Hfor) as Hall.
  pose proof (tot_diff_plain _ _ HP HC Hle) as Htot. fold tot_diff in Htot.
  split.
  { intros q Hq. destruct (Forall2_In_l _ _ _ _ Hall Hq) as (r & Hr & Hs).
    apply sample_proc_inv in Hs as (_ & _ & Hpid & _).
    exists r. rewrite Htab. split; [| exact Hpid].
    now apply (table_In std_sort (sort_by_cpu st) procs r Hc). }
  intros r Hr q.
  rewrite Htab in Hr.
  apply (table_In std_sort (sort_by_cpu st) procs r Hc) in Hr.
  destruct (Forall2_In_r _ _ _ _ Hall Hr) as (pid & Hpid & Hs).
  apply sample_proc_inv in Hs as (cur & _ & Hq & _ & _ & _ & Hcpu & _).
  fold q in Hq. subst pid. rewrite Htot in Hcpu.
  split; [exact Hpid |].
  unfold cpu_pct_of in Hcpu.
  split.
  { intros Hnone. now rewrite Hnone in Hcpu. }
  intros prev Hprev cur_time prev_time Hct Hpt proc_diff.
  rewrite Hprev in Hcpu.
  rewrite (proc_time_diff_plain prev r Hpt Hct) in Hcpu.
  fold cur_time prev_time proc_diff in Hcpu.
  split; [exact Hcpu |].
  intros H53 Ht53. rewrite Hcpu.
  destruct (0 <? tot_diff) eqn:E; [| reflexivity].
  apply Z.ltb_lt in E.
  apply percent_rounds_once; [| exact H53 | lia].
  unfold proc_diff. destruct (prev_time <=? cur_time) eqn:Ele; [| lia].
  apply Z.leb_le in Ele. lia.
Qed.

(** Scenarios B and D of the specification: process 42 advanced by 20 of
    1000 ticks and shows 2 percent; process 101 is new and shows 0. *)
Lemma cpu_percent_of_row_scenario_B :
  sort_contract (@insertion_sort ProcSnapshot) /\
  exists st' fr,
    tick insertion_sort env0 state_B sample_B = Ok (st', fr) /\
    map (fun r => (Proc.pid r, Qred (Proc.cpu_percent r))) (table fr)
      = [(42, 2%Q); (101, 0%Q)] /\
    is_u64 (Cpu.sum (prev_cpu state_B)) /\ is_u64 (Cpu.sum (cur_cpu sample_B)) /\
    Cpu.sum (prev_cpu state_B) <= Cpu.sum (cur_cpu sample_B) /\
    let tot_diff := Cpu.sum (cur_cpu sample_B) - Cpu.sum (prev_cpu state_B) in
    (forall q, In q (pids sample_B) ->
       exists r, In r (table fr) /\ Proc.pid r = q) /\
    (forall r, In r (table fr) ->
       let q := Proc.pid r in
       In q (pids sample_B) /\
       (prev_procs state_B !! q = None -> Proc.cpu_percent r = 0%Q) /\
       (forall prev, prev_procs state_B !! q = Some prev ->
          let cur_time := Proc.utime r + Proc.stime r in
          let prev_time := Proc.utime prev + Proc.stime prev in
          is_u64 cur_time -> is_u64 prev_time ->
          let proc_diff :=
            if prev_time <=? cur_time then cur_time - prev_time else 0 in
          Proc.cpu_percent r =
            (if 0 <? tot_diff then percent proc_diff tot_diff else 0%Q) /\
          (100 * proc_diff < 2 ^ 53 -> tot_diff < 2 ^ 53 ->
             (Proc.cpu_percent r ==
                if 0 <? tot_diff
                then Binary64.round (100 * inject_Z proc_diff / inject_Z tot_diff)
                else 0)%Q))).
Proof.
  split; [apply insertion_sort_contract |].
  eexists. eexists. split; [vm_compute; reflexivity |].
  split; [vm_compute; reflexivity |].
  split; [vm_compute; intuition congruence |].
  split; [vm_compute; intuition congruence |].
  split; [vm_compute; congruence |].
  eapply (cpu_percent_of_row insertion_sort env0 state_B sample_B).
  - apply insertion_sort_contract.
  - vm_compute; reflexivity.
  - vm_compute; intuition congruence.
  - vm_compute; intuition congruence.
  - vm_compute; congruence.
Defined.

(** ** Reconciliation *)

(** C4: after a tick the new previous mapping holds exactly the sampled
    process ids; an id that was not sampled is in neither the new mapping
    nor the rendered rows, whether or not the old mapping had it. *)
Theorem prev_procs_are_sampled
    (std_sort : (ProcSnapshot -> ProcSnapshot -> bool) ->
                list ProcSnapshot -> list ProcSnapshot)
    env st s st' fr :
  sort_contract std_sort ->
  tick std_sort env st s = Ok (st', fr) ->
  (forall q, is_Some (prev_procs st' !! q) <-> In q (pids s)) /\
  (forall q, ~ In q (pids s) ->
     prev_procs st' !! q = None /\
     forall line r, In (line, r) (rows fr) -> Proc.pid r <> q).
Proof.
  intros Hc Ht.
  destruct (tick_inv _ _ _ _ _ _ Ht)
    as (procs & Hfor & _ & Hmap & _ & _ & _ & Htab & Hrows).
  pose proof (sampled_pids _ _ _ _ _ _ _ Hfor) as Hpids.
  assert (Hdom : forall q, is_Some (prev_procs st' !! q) <-> In q (pids s)).
  { intros q. rewrite Hmap, install_lookup, Hpids. reflexivity. }
  split; [exact Hdom |].
  intros q Hq. split.
  - apply eq_None_not_Some. now rewrite Hdom.
  - intros line r Hr Heq. apply Hq.
    rewrite Hrows in Hr. apply draw_from_In in Hr.
    rewrite Htab in Hr.
  apply (table_In std_sort (sort_by_cpu st) procs r Hc) in Hr.
    rewrite <- Hpids, <- Heq. now apply in_map.
Qed.

Lemma prev_procs_are_sampled_scenario_C :
  sort_contract (@insertion_sort ProcSnapshot) /\
  is_Some (prev_procs state_B !! 77) /\
  exists st' fr,
    tick insertion_sort env0 state_B sample_B = Ok (st', fr) /\
    (forall q, is_Some (prev_procs st' !! q) <-> In q (pids sample_B)) /\
    (forall q, ~ In q (pids sample_B) ->
       prev_procs st' !! q = None /\
       forall line r, In (line, r) (rows fr) -> Proc.pid r <> q).
Proof.
  split; [apply insertion_sort_contract |].
  split; [vm_compute; eauto |].
  eexists. eexists. split; [vm_compute; reflexivity |].
  eapply (prev_procs_are_sampled insertion_sort env0 state_B sample_B).
  - apply insertion_sort_contract.
  - vm_compute; reflexivity.
Defined.

(** ** Malformed stat lines *)

Lemma read_stat_short env fs : short_stat fs -> read_stat env fs = Ok no_stat.
Proof.
  unfold short_stat, read_stat. destruct (f_stat fs) as [file |]; [| reflexivity].
  intros H. apply Nat.leb_gt in H. now rewrite H.
Qed.

(** C8, as stated, fails.  Process 42 has a stat line of five tokens: the
    tick completes, its row is on the screen with zero counters and it
    is in the new previous mapping.  With a stat line whose field 14 is
    not a number the conversion throws and the tick produces no frame. *)
Lemma truncated_stat_is_not_skipped :
  short_stat (files_truncated 42) /\
  (exists st' fr,
     tick insertion_sort env0 state_B sample_truncated = Ok (st', fr) /\
     map (fun lr => (fst lr, Proc.pid (snd lr))) (rows fr) = [(3, 101); (4, 42)] /\
     is_Some (prev_procs st' !! 42)) /\
  tick insertion_sort env0 state_B sample_garbled = Throw invalid_argument.
Proof.
  split; [vm_compute; lia |].
  split; [| vm_compute; reflexivity].
  eexists. eexists. split; [vm_compute; reflexivity |].
  split; [reflexivity | vm_compute; eauto].
Qed.

(** C8 (amended): a process whose stat line has fewer than 24 tokens, or
    whose stat file does not open, makes no parser fail: [read_proc]
    returns a record with utime, stime and rss 0, and in a tick that
    completes the process has a row with these zeros and is entered into
    the new previous mapping. *)
Theorem short_stat_keeps_process
    (std_sort : (ProcSnapshot -> ProcSnapshot -> bool) ->
                list ProcSnapshot -> list ProcSnapshot)
    env st s st' fr (q : Z) :
  sort_contract std_sort ->
  tick std_sort env st s = Ok (st', fr) ->
  In q (pids s) ->
  short_stat (files s q) ->
  (exists cur, read_proc env (files s q) q = Ok cur /\
     Proc.utime cur = 0 /\ Proc.stime cur = 0 /\ Proc.rss cur = 0) /\
  (exists r, In r (table fr) /\ Proc.pid r = q /\
     Proc.utime r = 0 /\ Proc.stime r = 0 /\ Proc.rss r = 0) /\
  is_Some (prev_procs st' !! q).
Proof.
  intros Hc Ht Hq Hshort.
  destruct (tick_inv _ _ _ _ _ _ Ht)
    as (procs & Hfor & _ & Hmap & _ & _ & _ & Htab & _).
  destruct (Forall2_In_l _ _ _ _ (for_each_Forall2 _ _ _ Hfor) Hq)
    as (r & Hr & Hs).
  apply sample_proc_inv in Hs as (cur & Hcur & Hpid & Hu & Hst & Hrss & _).
  destruct (read_proc_inv _ _ _ _ Hcur) as (sf & Hsf & _ & Hu' & Hs' & Hr' & _).
  rewrite (read_stat_short _ _ Hshort) in Hsf. injection Hsf as <-.
  cbn [no_stat sf_utime sf_stime sf_rss] in Hu', Hs', Hr'.
  split; [exists cur; repeat split; assumption |].
  split.
  - exists r. rewrite Htab. split; [now apply (table_In std_sort (sort_by_cpu st) procs r Hc) |].
    repeat split; congruence.
  - rewrite Hmap, install_lookup, (sampled_pids _ _ _ _ _ _ _ Hfor). exact Hq.
Qed.

Lemma short_stat_keeps_process_truncated :
  sort_contract (@insertion_sort ProcSnapshot) /\
  In 42 (pids sample_truncated) /\
  short_stat (files sample_truncated 42) /\
  exists st' fr,
    tick insertion_sort env0 state_B sample_truncated = Ok (st', fr) /\
    (exists cur, read_proc env0 (files sample_truncated 42) 42 = Ok cur /\
       Proc.utime cur = 0 /\ Proc.stime cur = 0 /\ Proc.rss cur = 0) /\
    (exists r, In r (table fr) /\ Proc.pid r = 42 /\
       Proc.utime r = 0 /\ Proc.stime r = 0 /\ Proc.rss r = 0) /\
    is_Some (prev_procs st' !! 42).
Proof.
  split; [apply insertion_sort_contract |].
  split; [vm_compute; tauto |].
  split; [vm_compute; lia |].
  eexists. eexists. split; [vm_compute; reflexivity |].
  eapply (short_stat_keeps_process insertion_sort env0 state_B sample_truncated).
  - apply insertion_sort_contract.
  - vm_compute; reflexivity.
  - vm_compute; tauto.
  - vm_compute; lia.
Defined.

(** ** The stat line *)

Example stat_plain_command_agrees :
  let line := stat_line "42" "init" "20" "15" "12500" in
  read_stat env0 (live line "init") = Ok {| sf_utime := 20; sf_stime := 15; sf_rss := 50000 |} /\
  spec_stat_fields env0 line = Some {| sf_utime := 20; sf_stime := 15; sf_rss := 50000 |}.
Proof. split; reflexivity. Qed.

(** C2 at its failing input.  The command [weird ) name] splits into three
    tokens, so every later field sits two places to the right: the code
    takes majflt (7) for utime, cmajflt (3) for stime and starttime (5000
    pages, 20000 kB) for rss, where the split at the last close-parenthesis
    gives utime 250, stime 75 and rss 321 pages (1284 kB). *)
Theorem stat_fields_shift_with_spaced_command :
  spec_stat_fields env0 stat_weird =
    Some {| sf_utime := 250; sf_stime := 75; sf_rss := 1284 |} /\
  field (tokens stat_weird) 13 = "7"%string /\
  field (tokens stat_weird) 14 = "3"%string /\
  field (tokens stat_weird) 23 = "5000"%string /\
  read_stat env0 (live stat_weird "weird ) name") =
    Ok {| sf_utime := 7; sf_stime := 3; sf_rss := 20000 |}.
Proof. repeat split. Qed.

(** ** The command column *)

Lemma replace_nul_getline (s : string) :
  replace_nul (getline NUL s) = getline NUL s.
Proof.
  induction s as [| c s IH]; simpl; [reflexivity |].
  destruct (Ascii.eqb c NUL) eqn:E; simpl; [reflexivity |].
  now rewrite E, IH.
Qed.

(** With a non-empty first argument the command column is that argument
    alone, whatever follows the first NUL. *)
Lemma read_cmd_first_argument (fs : ProcFiles) (content : string) :
  f_cmdline fs = Some content ->
  is_empty (getline NUL content) = false ->
  read_cmd fs = getline NUL content.
Proof.
  intros Hc He. unfold read_cmd. rewrite Hc, He. apply replace_nul_getline.
Qed.

Example read_cmd_falls_back_to_comm : read_cmd files_kthread = "kthreadd"%string.
Proof. reflexivity. Qed.

(** C9 at its failing input.  For the command line of [ls -l] the joined
    arguments are [ls -l]; the code stops reading at the first NUL and
    shows [ls]. *)
Theorem command_stops_at_first_nul :
  spec_command cmdline_ls = "ls -l"%string /\
  getline NUL cmdline_ls = "ls"%string /\
  read_cmd files_ls = "ls"%string /\
  read_cmd files_ls <> spec_command cmdline_ls.
Proof. repeat split. discriminate. Qed.

(** ** Row truncation *)

Lemma draw_from_length (bound i : Z) (procs : list ProcSnapshot) :
  Z.of_nat (length (draw_from bound i procs)) =
  Z.max 0 (Z.min (Z.of_nat (length procs)) (bound - i)).
Proof.
  revert i. induction procs as [| p rest IH]; intros i; simpl length.
  { cbn [draw_from length]. lia. }
  cbn [draw_from]. destruct (i <? bound) eqn:E.
  - apply Z.ltb_lt in E. simpl length. rewrite Nat2Z.inj_succ, IH. lia.
  - apply Z.ltb_ge in E. simpl length. lia.
Qed.

(** On a terminal of at least five lines the loop stops at [LINES - 5]. *)
Lemma draw_rows_tall (LINES : Z) (procs : list ProcSnapshot) :
  5 <= LINES < U64 ->
  Z.of_nat (length (draw_rows LINES procs)) =
  Z.min (Z.of_nat (length procs)) (max_rows LINES).
Proof.
  intros H. unfold draw_rows. rewrite draw_from_length.
  rewrite wrap64_small by (unfold is_u64, max_rows; lia).
  unfold max_rows. lia.
Qed.

(** On a shorter terminal [(size_t)max_rows] is at least [2^64 - 4] and
    the loop runs over the whole table. *)
Lemma draw_rows_short (LINES : Z) (procs : list ProcSnapshot) :
  1 <= LINES < 5 ->
  Z.of_nat (length procs) < U64 - 4 ->
  length (draw_rows LINES procs) = length procs.
Proof.
  intros H Hlen. apply Nat2Z.inj. unfold draw_rows. rewrite draw_from_length.
  assert (E : wrap64 (max_rows LINES) = U64 + LINES - 5).
  { unfold wrap64, max_rows.
    replace (LINES - 5) with ((U64 + LINES - 5) + (-1) * U64) by ring.
    rewrite Z.mod_add by discriminate.
    apply Z.mod_small. change U64 with (2 ^ 64). lia. }
  rewrite E. lia.
Qed.

(** C7 at its failing input.  On a terminal of four lines [max_rows] is
    -1, its conversion to [size_t] is [2^64 - 1], and the tick of
    [sample_B] draws both of its rows, the first on screen line 3. *)
Theorem short_terminal_draws_every_row :
  max_rows 4 = -1 /\
  wrap64 (max_rows 4) = 2 ^ 64 - 1 /\
  draw_rows 4 [row 9 4 2; row 100 4 3] = [(3, row 9 4 2); (4, row 100 4 3)] /\
  exists st' fr,
    tick insertion_sort env0 state_B sample_short_terminal = Ok (st', fr) /\
    map (fun lr => (fst lr, Proc.pid (snd lr))) (rows fr) = [(3, 42); (4, 101)].
Proof.
  do 3 (split; [reflexivity |]).
  eexists. eexists. split; [vm_compute; reflexivity | reflexivity].
Qed.

(** * Properties of the rest of the program *)

(** ** Strings *)

Lemma append_cons (c : ascii) (a b : string) :
  String c a +:+ b = String c (a +:+ b).
Proof. reflexivity. Qed.

Lemma append_nil_l (b : string) : EmptyString +:+ b = b.
Proof. reflexivity. Qed.

Lemma chars_app (a b : string) :
  list_ascii_of_string (a +:+ b) = list_ascii_of_string a ++ list_ascii_of_string b.
Proof.
  induction a as [| c a IH]; [reflexivity |].
  rewrite append_cons. simpl. now rewrite IH.
Qed.

Lemma append_nil_r (a : string) : a +:+ EmptyString = a.
Proof.
  induction a as [| c a IH]; [reflexivity |].
  rewrite append_cons. now rewrite IH.
Qed.

Lemma append_assoc (a b c : string) : (a +:+ b) +:+ c = a +:+ (b +:+ c).
Proof.
  induction a as [| x a IH]; [reflexivity |].
  rewrite !append_cons. now rewrite IH.
Qed.

Lemma push_back_cons (a : string) (c : ascii) (b : string) :
  push_back a c +:+ b = a +:+ String c b.
Proof. unfold push_back. now rewrite append_assoc. Qed.

Lemma is_empty_true (s : string) : is_empty s = true <-> s = EmptyString.
Proof. destruct s; simpl; split; congruence. Qed.

Lemma is_empty_append (a b : string) :
  a <> EmptyString -> is_empty (a +:+ b) = false.
Proof. destruct a; [congruence | reflexivity]. Qed.

Lemma isspace_SP : isspace SP = true.
Proof. reflexivity. Qed.

Lemma isdigit_not_space (c : ascii) : isdigit c = true -> isspace c = false.
Proof.
  unfold isdigit, isspace. intros H.
  apply andb_true_iff in H as [H1 H2]. apply Z.leb_le in H1, H2.
  apply orb_false_iff. split; [apply Z.eqb_neq; lia |].
  apply andb_false_iff. right. apply Z.leb_gt. lia.
Qed.

Lemma isdigit_not_sign (c : ascii) :
  isdigit c = true -> Ascii.eqb c "-" = false /\ Ascii.eqb c "+" = false.
Proof.
  intros H. split; apply Ascii.eqb_neq; intros ->; discriminate.
Qed.

(** ** Tokens of a line (lines 124-127) *)

Lemma tokens_from_clean (s cur : string) :
  (forall c, In c (list_ascii_of_string cur) -> isspace c = false) ->
  Forall clean (tokens_from s cur).
Proof.
  revert cur. induction s as [| c s IH]; intros cur Hcur; simpl.
  - destruct (is_empty cur) eqn:E; [constructor |].
    repeat constructor; [| exact Hcur].
    intros ->. discriminate.
  - destruct (isspace c) eqn:Ec.
    + destruct (is_empty cur) eqn:E.
      * apply IH. intros ? [].
      * constructor; [| apply IH; intros ? []].
        split; [intros ->; discriminate | exact Hcur].
    + apply IH. intros x Hx. unfold push_back in Hx.
      rewrite chars_app in Hx. apply in_app_or in Hx as [Hx | [<- | []]];
        [now apply Hcur | exact Ec].
Qed.

(** X1: every token that the loop [while (ss >> token)] collects is
    non-empty and free of white space, whatever the line. *)
Theorem tokens_are_clean (s : string) : Forall clean (tokens s).
Proof. apply tokens_from_clean. intros ? []. Qed.

Lemma tokens_from_word (w rest cur : string) :
  (forall c, In c (list_ascii_of_string w) -> isspace c = false) ->
  tokens_from (w +:+ rest) cur = tokens_from rest (cur +:+ w).
Proof.
  revert cur. induction w as [| c w IH]; intros cur Hw.
  - now rewrite append_nil_l, append_nil_r.
  - rewrite append_cons. cbn [tokens_from]. rewrite (Hw c) by now left.
    rewrite IH by (intros x Hx; apply Hw; now right).
    now rewrite push_back_cons.
Qed.

Lemma tokens_from_spaced (ws : list string) (cur : string) :
  Forall clean ws ->
  tokens_from (spaced ws) cur = (if is_empty cur then [] else [cur]) ++ ws.
Proof.
  intros H. revert cur. induction H as [| w ws [Hne Hw] _ IH]; intros cur.
  - simpl. destruct (is_empty cur); reflexivity.
  - cbn [spaced tokens_from]. rewrite isspace_SP.
    assert (E : tokens_from (w +:+ spaced ws) EmptyString = w :: ws).
    { rewrite tokens_from_word by exact Hw. rewrite append_nil_l.
      rewrite IH. destruct w; [congruence | reflexivity]. }
    destruct (is_empty cur); rewrite E; reflexivity.
Qed.

Lemma join_spaces_spaced (w : string) (ws : list string) :
  join_spaces (w :: ws) = w +:+ spaced ws.
Proof.
  revert w. induction ws as [| w' ws IH]; intros w.
  - cbn [join_spaces spaced]. now rewrite append_nil_r.
  - change (join_spaces (w :: w' :: ws)) with (w +:+ String SP (join_spaces (w' :: ws))).
    now rewrite IH.
Qed.

Lemma tokens_join_spaces_words (ws : list string) :
  Forall clean ws -> tokens (join_spaces ws) = ws.
Proof.
  intros H. destruct H as [| w ws [Hne Hw] H]; [reflexivity |].
  rewrite join_spaces_spaced. unfold tokens.
  rewrite tokens_from_word by exact Hw. rewrite append_nil_l.
  rewrite tokens_from_spaced by exact H.
  destruct w; [congruence | reflexivity].
Qed.

(** X2: splitting undoes joining: the tokens of clean words joined by
    single spaces are those words, in order. *)
Theorem tokens_join_spaces (ws : list string) :
  Forall clean ws -> tokens (join_spaces ws) = ws.
Proof.
  intros H. destruct H as [| w ws [Hne Hw] H]; [reflexivity |].
  rewrite join_spaces_spaced. unfold tokens.
  rewrite tokens_from_word by exact Hw. rewrite append_nil_l.
  rewrite tokens_from_spaced by exact H.
  destruct w; [congruence | reflexivity].
Qed.

Lemma tokens_join_spaces_example :
  Forall clean ["42"; "(init)"; "S"]%string /\
  tokens (join_spaces ["42"; "(init)"; "S"]%string) = ["42"; "(init)"; "S"]%string.
Proof.
  assert (H : Forall clean ["42"; "(init)"; "S"]%string).
  { repeat constructor; try discriminate;
      intros c Hc; simpl in Hc;
      repeat (destruct Hc as [<- | Hc]; [reflexivity |]); destruct Hc. }
  split; [exact H |].
  apply (tokens_join_spaces ["42"; "(init)"; "S"]%string H).
Defined.

(** ** Lines of a file (lines 143 and 235) *)

Lemma getline_lacks (delim : ascii) (s : string) : lacks delim (getline delim s).
Proof.
  unfold lacks. induction s as [| c s IH]; simpl; [tauto |].
  destruct (Ascii.eqb c delim) eqn:E; simpl; [tauto |].
  apply Ascii.eqb_neq in E. intros [H | H]; [congruence | now apply IH].
Qed.

Lemma getline_line (delim : ascii) (l rest : string) :
  lacks delim l -> getline delim (l +:+ String delim rest) = l.
Proof.
  unfold lacks. induction l as [| c l IH]; intros H.
  - rewrite append_nil_l. simpl. now rewrite Ascii.eqb_refl.
  - rewrite append_cons. simpl. destruct (Ascii.eqb c delim) eqn:E.
    + apply Ascii.eqb_eq in E. subst. exfalso. apply H. now left.
    + rewrite IH; [reflexivity |]. intros Hin. apply H. now right.
Qed.

Lemma getline_whole (delim : ascii) (l : string) :
  lacks delim l -> getline delim l = l.
Proof.
  unfold lacks. induction l as [| c l IH]; intros H; simpl; [reflexivity |].
  destruct (Ascii.eqb c delim) eqn:E.
  - apply Ascii.eqb_eq in E. subst. exfalso. apply H. now left.
  - rewrite IH; [reflexivity |]. intros Hin. apply H. now right.
Qed.

Lemma lines_from_line (l rest cur : string) (started : bool) :
  lacks LF l ->
  lines_from (l +:+ String LF rest) cur started
  = (cur +:+ l) :: lines_from rest EmptyString false.
Proof.
  unfold lacks. revert cur started.
  induction l as [| c l IH]; intros cur started H.
  - rewrite append_nil_l. cbn [lines_from]. rewrite Ascii.eqb_refl.
    now rewrite append_nil_r.
  - rewrite append_cons. cbn [lines_from]. destruct (Ascii.eqb c LF) eqn:E.
    + apply Ascii.eqb_eq in E. subst. exfalso. apply H. now left.
    + rewrite IH by (intros Hin; apply H; now right).
      now rewrite push_back_cons.
Qed.

(** X3: the [getline] loop reads back what was written line by line: for
    lines without a newline character, the lines of the file that ends
    each of them with a newline are those lines. *)
Theorem lines_unlines (ls : list string) :
  Forall (lacks LF) ls -> lines (unlines ls) = ls.
Proof.
  unfold lines. induction 1 as [| l ls Hl _ IH]; [reflexivity |].
  cbn [unlines]. rewrite lines_from_line by exact Hl.
  rewrite append_nil_l. now rewrite IH.
Qed.

Lemma lines_unlines_example :
  Forall (lacks LF) ["MemTotal: 8 kB"; ""; "MemFree: 2 kB"]%string /\
  lines (unlines ["MemTotal: 8 kB"; ""; "MemFree: 2 kB"]%string)
  = ["MemTotal: 8 kB"; ""; "MemFree: 2 kB"]%string.
Proof.
  assert (H : Forall (lacks LF) ["MemTotal: 8 kB"; ""; "MemFree: 2 kB"]%string).
  { repeat constructor; unfold lacks; simpl; intros Hc;
      repeat (destruct Hc as [Hc | Hc]; [discriminate Hc |]); exact Hc. }
  split; [exact H |].
  apply (lines_unlines _ H).
Defined.

(** ** Numerals *)

Lemma decimal_from_shift (ds : list Z) (acc : Z) :
  fold_left (fun acc d => 10 * acc + d) ds acc
  = acc * 10 ^ Z.of_nat (length ds) + decimal ds.
Proof.
  unfold decimal. revert acc. induction ds as [| d ds IH]; intros acc.
  - simpl. lia.
  - cbn [fold_left length]. rewrite IH, (IH (10 * 0 + d)).
    rewrite Nat2Z.inj_succ, Z.pow_succ_r by lia. ring.
Qed.

Lemma digits_length (s : string) :
  is_number s = true -> length (digits s) = String.length s.
Proof.
  induction s as [| c s IH]; simpl; [reflexivity |].
  destruct (isdigit c); [| discriminate].
  intros H. simpl. now rewrite IH.
Qed.

Lemma value_cons (c : ascii) (s : string) :
  isdigit c = true -> is_number s = true ->
  value (String c s) = digit_val c * 10 ^ Z.of_nat (String.length s) + value s.
Proof.
  intros Hc Hs. unfold value, decimal. cbn [digits]. rewrite Hc.
  cbn [fold_left]. rewrite decimal_from_shift, (digits_length s Hs).
  unfold decimal. ring.
Qed.

Lemma value_nonneg (s : string) : 0 <= value s.
Proof. apply decimal_nonneg, digits_nonneg. Qed.

Lemma digits_numeral_app (s tail : string) :
  is_number s = true -> stops tail -> digits (s +:+ tail) = digits s.
Proof.
  induction s as [| c s IH]; intros Hs Ht.
  - rewrite append_nil_l. destruct tail as [| c t]; [reflexivity |].
    simpl in *. now rewrite Ht.
  - rewrite append_cons. simpl in *. destruct (isdigit c); [| discriminate].
    now rewrite IH.
Qed.

Lemma numeral_head (s : string) :
  numeral s -> exists c s', s = String c s' /\ isdigit c = true /\ is_number s' = true.
Proof.
  intros [Hn Hne]. destruct s as [| c s']; [congruence |].
  simpl in Hn. destruct (isdigit c) eqn:E; [| discriminate].
  now exists c, s'.
Qed.

Lemma scan_int_numeral (s tail : string) :
  numeral s -> stops tail -> scan_int (s +:+ tail) = Some (false, value s).
Proof.
  intros Hn Ht. pose proof Hn as [Hnum _].
  destruct (numeral_head s Hn) as (c & s' & -> & Hc & Hs').
  pose proof (isdigit_not_space c Hc) as Hsp.
  destruct (isdigit_not_sign c Hc) as [Hm Hp].
  unfold scan_int. rewrite append_cons. cbn [skip_ws]. rewrite Hsp, Hm, Hp.
  rewrite <- append_cons, (digits_numeral_app _ _ Hnum Ht).
  unfold value. cbn [digits]. rewrite Hc. reflexivity.
Qed.

Lemma scan_int_space (c : ascii) (s : string) :
  isspace c = true -> scan_int (String c s) = scan_int s.
Proof. intros H. unfold scan_int. cbn [skip_ws]. now rewrite H. Qed.

Lemma drop_digits_numeral (s tail : string) :
  is_number s = true -> stops tail -> drop_digits (s +:+ tail) = tail.
Proof.
  induction s as [| c s IH]; intros Hs Ht.
  - rewrite append_nil_l. destruct tail as [| c t]; [reflexivity |].
    simpl in *. now rewrite Ht.
  - rewrite append_cons. simpl in *. destruct (isdigit c); [| discriminate].
    now apply IH.
Qed.

Lemma drop_int_numeral (s tail : string) :
  numeral s -> stops tail -> drop_int (s +:+ tail) = tail.
Proof.
  intros Hn Ht. pose proof Hn as [Hnum _].
  destruct (numeral_head s Hn) as (c & s' & -> & Hc & Hs').
  pose proof (isdigit_not_space c Hc) as Hsp.
  destruct (isdigit_not_sign c Hc) as [Hm Hp].
  unfold drop_int. rewrite append_cons. cbn [skip_ws]. rewrite Hsp, Hm, Hp.
  cbn [orb]. rewrite <- append_cons. now apply drop_digits_numeral.
Qed.

Lemma extract_unsigned_numeral (M : Z) (s tail : string) :
  numeral s -> stops tail -> value s < M ->
  extract_unsigned M (s +:+ tail) = value s.
Proof.
  intros Hn Ht Hv. unfold extract_unsigned.
  rewrite (scan_int_numeral _ _ Hn Ht).
  apply Z.leb_gt in Hv. now rewrite Hv.
Qed.

Lemma extract_unsigned_space (M : Z) (c : ascii) (s : string) :
  isspace c = true -> extract_unsigned M (String c s) = extract_unsigned M s.
Proof. intros H. unfold extract_unsigned. now rewrite scan_int_space. Qed.

(** *** Decimal printing *)

Lemma pretty_N_char_digit (d : N) :
  (d < 10)%N ->
  isdigit (pretty_N_char d) = true /\ digit_val (pretty_N_char d) = Z.of_N d.
Proof.
  intros H.
  assert (d = 0 \/ d = 1 \/ d = 2 \/ d = 3 \/ d = 4 \/ d = 5 \/ d = 6 \/ d = 7
          \/ d = 8 \/ d = 9)%N as Hd by lia.
  repeat (destruct Hd as [-> | Hd]; [split; reflexivity |]).
  subst. split; reflexivity.
Qed.

Lemma pretty_N_go_numeral (x : N) (s : string) :
  is_number s = true ->
  is_number (pretty_N_go x s) = true /\
  value (pretty_N_go x s)
  = Z.of_N x * 10 ^ Z.of_nat (String.length s) + value s /\
  (s <> EmptyString -> pretty_N_go x s <> EmptyString).
Proof.
  revert s. induction (N.lt_wf_0 x) as [x _ IH]; intros s Hs.
  destruct (N.eq_dec x 0%N) as [-> | Hx].
  { rewrite pretty_N_go_0. change (Z.of_N 0) with 0. rewrite Z.mul_0_l.
    repeat split; [exact Hs | tauto]. }
  assert (Hpos : (0 < x)%N) by lia.
  rewrite pretty_N_go_step by exact Hpos.
  destruct (pretty_N_char_digit (x mod 10)) as [Hd Hv].
  { now apply N.mod_lt. }
  assert (Hs' : is_number (String (pretty_N_char (x mod 10)) s) = true).
  { simpl. now rewrite Hd. }
  destruct (IH (x / 10)%N (N.div_lt x 10 Hpos eq_refl) _ Hs') as (H1 & H2 & H3).
  split; [exact H1 |]. split.
  - rewrite H2, (value_cons _ _ Hd Hs), Hv.
    cbn [String.length]. rewrite Nat2Z.inj_succ, Z.pow_succ_r by lia.
    rewrite (N.div_mod x 10) at 3 by discriminate.
    rewrite N2Z.inj_add, N2Z.inj_mul. change (Z.of_N 10) with 10. ring.
  - intros _. apply H3. discriminate.
Qed.

Lemma pretty_nonneg_numeral (n : Z) :
  0 <= n -> numeral (pretty n) /\ value (pretty n) = n.
Proof.
  intros Hn. destruct n as [| p | p]; [| | lia].
  { split; [split; [reflexivity | discriminate] | reflexivity]. }
  change (pretty (Z.pos p)) with (pretty_N_go (N.pos p) EmptyString).
  set (c := pretty_N_char (N.pos p mod 10)).
  assert (E : pretty_N_go (N.pos p) EmptyString
              = pretty_N_go (N.pos p / 10) (String c EmptyString)).
  { apply pretty_N_go_step. reflexivity. }
  destruct (pretty_N_char_digit (N.pos p mod 10)) as [Hd Hv].
  { now apply N.mod_lt. }
  fold c in Hd, Hv.
  assert (Hs : is_number (String c EmptyString) = true) by (simpl; now rewrite Hd).
  destruct (pretty_N_go_numeral (N.pos p / 10) _ Hs) as (H1 & H2 & H3).
  rewrite E. split; [split; [exact H1 | apply H3; discriminate] |].
  rewrite H2, (value_cons c EmptyString Hd eq_refl), Hv.
  cbn [String.length]. change (value EmptyString) with 0.
  change (10 ^ Z.of_nat 1) with 10. change (10 ^ Z.of_nat 0) with 1.
  assert (Hdm : Z.of_N (N.pos p)
                = 10 * Z.of_N (N.pos p / 10) + Z.of_N (N.pos p mod 10)).
  { rewrite (N.div_mod (N.pos p) 10) at 1 by discriminate.
    now rewrite N2Z.inj_add, N2Z.inj_mul. }
  change (Z.pos p) with (Z.of_N (N.pos p)). rewrite Hdm. ring.
Qed.

(** ** Formatted extraction *)

Lemma stops_spaced (ws : list string) : stops (spaced ws).
Proof. destruct ws; simpl; [exact I | reflexivity]. Qed.

Lemma extract_u64_space (c : ascii) (b : string) (cur : Z) :
  isspace c = true ->
  extract_u64 {| buf := String c b; failed := false |} cur
  = extract_u64 {| buf := b; failed := false |} cur.
Proof.
  intros H. unfold extract_u64, extract_uint, conversion_fails, drop_int.
  cbn [failed buf skip_ws]. rewrite H.
  now rewrite scan_int_space, extract_unsigned_space.
Qed.

Lemma extract_u64_numeral (w tail : string) (cur : Z) :
  numeral_below U64 w -> stops tail ->
  extract_u64 {| buf := w +:+ tail; failed := false |} cur
  = ({| buf := tail; failed := false |}, value w).
Proof.
  intros [Hn Hv] Ht. unfold extract_u64, extract_uint, conversion_fails. cbn [failed buf].
  destruct (numeral_head w Hn) as (c & s' & Hw & Hc & _).
  assert (Hskip : is_empty (skip_ws (w +:+ tail)) = false).
  { rewrite Hw, append_cons. cbn [skip_ws].
    now rewrite (isdigit_not_space c Hc). }
  rewrite Hskip, (scan_int_numeral _ _ Hn Ht), (drop_int_numeral _ _ Hn Ht).
  rewrite (extract_unsigned_numeral _ _ _ Hn Ht Hv).
  apply Z.leb_gt in Hv. now rewrite Hv.
Qed.

Lemma extract_u64_failed (ss : istream) (cur : Z) :
  failed ss = true -> extract_u64 ss cur = (ss, cur).
Proof. intros H. unfold extract_u64, extract_uint. now rewrite H. Qed.

Lemma extract_u64s_failed (k : nat) (ss : istream) (i : nat) :
  failed ss = true -> nth i (extract_u64s k ss) 0 = 0.
Proof.
  intros H. revert i. induction k as [| k IH]; intros i; [now destruct i |].
  cbn [extract_u64s]. rewrite (extract_u64_failed ss 0 H). cbn [fst snd].
  destruct i; [reflexivity | apply IH].
Qed.

Lemma extract_u64_range (ss : istream) (cur : Z) :
  is_u64 cur -> is_u64 (snd (extract_u64 ss cur)).
Proof.
  intros H. apply extract_uint_range, H.
Qed.

Lemma extract_u64s_range (k : nat) (ss : istream) (i : nat) :
  is_u64 (nth i (extract_u64s k ss) 0).
Proof.
  revert ss i. induction k as [| k IH]; intros ss i.
  { destruct i; now vm_compute. }
  cbn [extract_u64s]. destruct i; [| apply IH].
  apply extract_u64_range. now vm_compute.
Qed.

Lemma extract_u64s_spaced (k : nat) (ws : list string) (i : nat) :
  Forall (numeral_below U64) ws ->
  nth i (extract_u64s k {| buf := spaced ws; failed := false |}) 0
  = if (i <? k)%nat then nth i (map value ws) 0 else 0.
Proof.
  intros H. revert k i. induction H as [| w ws Hw _ IH]; intros k i.
  - destruct k as [| k]; [now destruct i |].
    cbn [extract_u64s spaced]. unfold extract_u64 at 1 2. cbn [failed buf skip_ws is_empty fst snd].
    destruct i as [| i]; cbn [nth map].
    + reflexivity.
    + rewrite extract_u64s_failed by reflexivity. now destruct (S i <? S k)%nat.
  - destruct k as [| k]; [now destruct i |].
    cbn [extract_u64s spaced].
    rewrite (extract_u64_space SP _ 0 isspace_SP).
    rewrite (extract_u64_numeral w (spaced ws) 0 Hw (stops_spaced ws)).
    cbn [fst snd]. destruct i as [| i]; cbn [nth map]; [reflexivity |].
    rewrite IH. reflexivity.
Qed.

(** ** [read_cpu_line] *)

Lemma read_cpu_line_range (stat : option string) : Cpu.wf (read_cpu_line stat).
Proof.
  destruct stat as [file |]; [| now vm_compute].
  unfold read_cpu_line, snapshot_of, Cpu.wf. cbn [Cpu.user Cpu.nice Cpu.system
    Cpu.idle Cpu.iowait Cpu.irq Cpu.softirq Cpu.steal Cpu.guest Cpu.guest_nice].
  repeat split; apply extract_u64s_range.
Qed.

(** X4: whatever [/proc/stat] holds, and also when it cannot be opened,
    the snapshot that [read_cpu_line] returns has ten counters in the
    range of an unsigned 64-bit integer; a file that cannot be opened or
    is empty gives the all-zero snapshot. *)
Theorem read_cpu_line_wf (stat : option string) :
  Cpu.wf (read_cpu_line stat) /\
  read_cpu_line None = Cpu.zero /\
  read_cpu_line (Some EmptyString) = Cpu.zero.
Proof.
  split; [| split; reflexivity].
  destruct stat as [file |]; [| now vm_compute].
  unfold read_cpu_line, snapshot_of, Cpu.wf. cbn [Cpu.user Cpu.nice Cpu.system
    Cpu.idle Cpu.iowait Cpu.irq Cpu.softirq Cpu.steal Cpu.guest Cpu.guest_nice].
  repeat split; apply extract_u64s_range.
Qed.

(** X5: when the first line of [/proc/stat] is [cpu], a space, and numerals
    each preceded by one space, the counters are the values of the first
    ten numerals in order, and the counters for which the line has no
    numeral are 0. *)
Theorem read_cpu_line_numerals (file : string) (ws : list string) :
  getline LF file = "cpu" +:+ String SP (spaced ws) ->
  Forall (numeral_below U64) ws ->
  read_cpu_line (Some file) = snapshot_of (map value ws).
Proof.
  intros Hline Hws. unfold read_cpu_line. rewrite Hline.
  assert (E : extract_label (open_stream ("cpu" +:+ String SP (spaced ws)))
              = {| buf := String SP (spaced ws); failed := false |})
    by reflexivity.
  rewrite E. unfold snapshot_of.
  assert (Hnth : forall i, (i < 10)%nat ->
            nth i (extract_u64s 10 {| buf := String SP (spaced ws); failed := false |}) 0
            = nth i (map value ws) 0).
  { intros i Hi.
    change (extract_u64s 10 {| buf := String SP (spaced ws); failed := false |})
      with (snd (extract_u64 {| buf := String SP (spaced ws); failed := false |} 0)
            :: extract_u64s 9
                 (fst (extract_u64 {| buf := String SP (spaced ws); failed := false |} 0))).
    rewrite (extract_u64_space SP _ 0 isspace_SP).
    change (snd (extract_u64 {| buf := spaced ws; failed := false |} 0)
            :: extract_u64s 9 (fst (extract_u64 {| buf := spaced ws; failed := false |} 0)))
      with (extract_u64s 10 {| buf := spaced ws; failed := false |}).
    rewrite (extract_u64s_spaced 10 ws i Hws).
    apply Nat.ltb_lt in Hi. now rewrite Hi. }
  rewrite !Hnth by lia. reflexivity.
Qed.

Lemma read_cpu_line_numerals_kernel :
  let ws := ["4705"; "150"; "1994"; "136239"; "234"; "0"; "45"; "0"; "0"; "0"]%string in
  getline LF proc_stat_file = "cpu" +:+ String SP (spaced ws) /\
  Forall (numeral_below U64) ws /\
  read_cpu_line (Some proc_stat_file) = Cpu.mk 4705 150 1994 136239 234 0 45 0 0 0.
Proof.
  intros ws.
  assert (H1 : getline LF proc_stat_file = "cpu" +:+ String SP (spaced ws))
    by reflexivity.
  assert (H2 : Forall (numeral_below U64) ws).
  { repeat constructor; try discriminate. }
  split; [exact H1 |]. split; [exact H2 |].
  rewrite (read_cpu_line_numerals proc_stat_file ws H1 H2). reflexivity.
Defined.

Example read_cpu_line_old_kernel :
  read_cpu_line (Some proc_stat_old) = Cpu.mk 4705 150 1994 136239 234 0 45 0 0 0.
Proof. reflexivity. Qed.

(** ** [is_number] and [list_pids] *)

Lemma stoi_numeral (s : string) :
  numeral s ->
  stoi s = if INT_MAX <? value s then Throw out_of_range else Ok (value s).
Proof.
  intros Hn. unfold stoi.
  pose proof (scan_int_numeral s EmptyString Hn I) as E.
  rewrite append_nil_r in E. rewrite E.
  pose proof (value_nonneg s) as H0.
  destruct (value s <? LONG_MIN) eqn:E1.
  { apply Z.ltb_lt in E1. unfold LONG_MIN in E1. lia. }
  destruct (value s <? INT_MIN) eqn:E2.
  { apply Z.ltb_lt in E2. unfold INT_MIN in E2. lia. }
  cbn [orb].
  destruct (LONG_MAX <? value s) eqn:E3.
  - apply Z.ltb_lt in E3.
    assert (E4 : (INT_MAX <? value s) = true).
    { apply Z.ltb_lt. unfold LONG_MAX, INT_MAX in *. lia. }
    now rewrite E4.
  - reflexivity.
Qed.

Lemma stoi_empty : stoi EmptyString = Throw invalid_argument.
Proof. reflexivity. Qed.

(** X6: when every numeric directory of the listing has a non-empty name
    whose value fits an [int], [list_pids] returns, in listing order, the
    values of exactly the entries that are directories with an all-digit
    name; all of them lie between 0 and [INT_MAX]. *)
Theorem list_pids_numeric_dirs (entries : list dirent) :
  Forall pid_name_ok entries ->
  list_pids (Some entries)
    = Ok (map (fun e => value (d_name e)) (List.filter numeric_dir entries)) /\
  Forall (fun p => 0 <= p <= INT_MAX)
    (map (fun e => value (d_name e)) (List.filter numeric_dir entries)).
Proof.
  unfold list_pids. induction 1 as [| e es He _ [IH1 IH2]]; cbn [scan_pids List.filter map].
  { split; [reflexivity | constructor]. }
  fold (numeric_dir e). destruct (numeric_dir e) eqn:E; [| now split].
  destruct (He E) as [Hne Hmax].
  assert (Hn : numeral (d_name e)).
  { split; [| exact Hne]. unfold numeric_dir in E.
    now apply andb_true_iff in E as [_ E]. }
  rewrite (stoi_numeral _ Hn).
  apply Z.ltb_ge in Hmax as Hb. rewrite Hb. cbn [bind]. rewrite IH1. cbn [bind map].
  split; [reflexivity |].
  constructor; [| exact IH2]. split; [apply value_nonneg | exact Hmax].
Qed.

Lemma list_pids_numeric_dirs_listing :
  Forall pid_name_ok proc_listing /\
  list_pids (Some proc_listing) = Ok [1; 42; 101] /\
  Forall (fun p => 0 <= p <= INT_MAX) [1; 42; 101].
Proof.
  assert (H : Forall pid_name_ok proc_listing).
  { repeat constructor; intros Hd; try discriminate Hd;
      (split; [discriminate | vm_compute; congruence]). }
  split; [exact H |].
  exact (list_pids_numeric_dirs proc_listing H).
Defined.

(** X7: a numeric directory whose name is empty or denotes a value above
    [INT_MAX] makes [list_pids] throw; nothing in the program catches it. *)
Theorem list_pids_throws (entries : list dirent) :
  Exists pid_name_bad entries ->
  exists e, list_pids (Some entries) = Throw e.
Proof.
  unfold list_pids. induction 1 as [e es [Hd Hbad] | e es _ IH]; cbn [scan_pids].
  - fold (numeric_dir e). rewrite Hd.
    assert (Hs : exists x, stoi (d_name e) = Throw x).
    { destruct Hbad as [-> | Hbig]; [now exists invalid_argument |].
      destruct (string_dec (d_name e) EmptyString) as [-> | Hne];
        [now exists invalid_argument |].
      assert (Hn : numeral (d_name e)).
      { split; [| exact Hne]. unfold numeric_dir in Hd.
        now apply andb_true_iff in Hd as [_ Hd]. }
      rewrite (stoi_numeral _ Hn). apply Z.ltb_lt in Hbig. rewrite Hbig.
      now exists out_of_range. }
    destruct Hs as [x Hx]. rewrite Hx. now exists x.
  - destruct IH as [x Hx]. fold (numeric_dir e).
    destruct (numeric_dir e); [| now exists x].
    destruct (stoi (d_name e)) as [pid | y]; cbn [bind]; [| now exists y].
    rewrite Hx. now exists x.
Qed.

Lemma list_pids_throws_huge :
  Exists pid_name_bad proc_listing_huge /\
  list_pids (Some proc_listing_huge) = Throw out_of_range /\
  exists e, list_pids (Some proc_listing_huge) = Throw e.
Proof.
  assert (H : Exists pid_name_bad proc_listing_huge).
  { apply Exists_cons_tl, Exists_cons_hd. split; [reflexivity |].
    right. reflexivity. }
  split; [exact H |]. split; [reflexivity |].
  exact (list_pids_throws proc_listing_huge H).
Defined.

(** ** Ranges of what a tick reads *)

Lemma stoull_range (s : string) (v : Z) : stoull s = Ok v -> is_u64 v.
Proof.
  unfold stoull. destruct (scan_int s) as [[neg m] |] eqn:E; [| discriminate].
  apply scan_int_nonneg in E.
  destruct (U64 <=? m) eqn:Em; [discriminate |]. apply Z.leb_gt in Em.
  intros [= <-]. destruct neg; [apply wrap64_range | split; assumption].
Qed.

Lemma read_stat_range env fs sf :
  read_stat env fs = Ok sf ->
  is_u64 (sf_utime sf) /\ is_u64 (sf_stime sf) /\ is_u64 (sf_rss sf).
Proof.
  unfold read_stat. destruct (f_stat fs) as [file |];
    [| intros [= <-]; now vm_compute].
  destruct (24 <=? length _)%nat; [| intros [= <-]; now vm_compute].
  destruct (stoull (field _ 13)) as [u |] eqn:Eu; [| discriminate].
  destruct (stoull (field _ 14)) as [s |] eqn:Es; [| discriminate].
  destruct (stol (field _ 23)) as [r |] eqn:Er; [| discriminate].
  cbn [bind]. intros [= <-]. cbn [sf_utime sf_stime sf_rss].
  repeat split; try apply wrap64_range;
    try (now apply (stoull_range _ _ Eu)); now apply (stoull_range _ _ Es).
Qed.

Lemma proc_time_diff_nonneg (prev cur : ProcSnapshot) : 0 <= proc_time_diff_of prev cur.
Proof.
  rewrite proc_time_diff_exact.
  destruct (Proc.total_time prev <=? Proc.total_time cur) eqn:E; [| lia].
  apply Z.leb_le in E. lia.
Qed.

Lemma cpu_pct_nonneg prev_procs tot_diff pid cur :
  (0 <= cpu_pct_of prev_procs tot_diff pid cur)%Q.
Proof.
  unfold cpu_pct_of. destruct (prev_procs !! pid) as [prev |]; [| apply Qle_refl].
  destruct (0 <? tot_diff) eqn:E; [| apply Qle_refl].
  apply Z.ltb_lt in E. apply percent_nonneg; [apply proc_time_diff_nonneg | lia].
Qed.

(** The rows collected by the process loop, before sorting. *)
Lemma sampled_row env prev tot_diff mem_total files pids procs r :
  for_each (sample_proc env prev tot_diff mem_total files) pids = Ok procs ->
  In r procs ->
  sample_proc env prev tot_diff mem_total files (Proc.pid r) = Ok r.
Proof.
  intros Hfor Hr.
  destruct (Forall2_In_r _ _ _ _ (for_each_Forall2 _ _ _ Hfor) Hr) as (pid & _ & Hs).
  pose proof Hs as Hs'. apply sample_proc_inv in Hs' as (_ & _ & Hpid & _).
  now rewrite Hpid.
Qed.

(** Within one tick a process id has one row. *)
Lemma sampled_row_unique env prev tot_diff mem_total files pids procs r r' :
  for_each (sample_proc env prev tot_diff mem_total files) pids = Ok procs ->
  In r procs -> In r' procs -> Proc.pid r = Proc.pid r' -> r = r'.
Proof.
  intros Hfor Hr Hr' Hpid.
  pose proof (sampled_row _ _ _ _ _ _ _ _ Hfor Hr) as H1.
  pose proof (sampled_row _ _ _ _ _ _ _ _ Hfor Hr') as H2.
  rewrite Hpid in H1. rewrite H1 in H2. now injection H2.
Qed.

(** The counters of a row are what [stoull] and [stol] delivered. *)
Lemma rows_range
    (std_sort : (ProcSnapshot -> ProcSnapshot -> bool) ->
                list ProcSnapshot -> list ProcSnapshot)
    env st s st' fr (r : ProcSnapshot) :
  sort_contract std_sort ->
  tick std_sort env st s = Ok (st', fr) ->
  In r (table fr) ->
  is_u64 (Proc.utime r) /\ is_u64 (Proc.stime r) /\ is_u64 (Proc.rss r).
Proof.
  intros Hc Ht Hr.
  destruct (tick_inv _ _ _ _ _ _ Ht) as (procs & Hfor & _ & _ & _ & _ & _ & Htab & _).
  rewrite Htab in Hr.
  apply (table_In std_sort (sort_by_cpu st) procs r Hc) in Hr.
  pose proof (sampled_row _ _ _ _ _ _ _ _ Hfor Hr) as Hs.
  apply sample_proc_inv in Hs as (cur & Hcur & _ & Hu & Hst & Hrss & _).
  destruct (read_proc_inv _ _ _ _ Hcur) as (sf & Hsf & _ & Hu' & Hs' & Hr' & _).
  rewrite Hu, Hst, Hrss, Hu', Hs', Hr'.
  exact (read_stat_range _ _ _ Hsf).
Qed.

(** X8: every row of a completed tick has utime, stime and rss in the
    unsigned 64-bit range and a cpu_percent and a mem_percent that are not
    negative.  When its rss does not exceed the total memory, its
    mem_percent is at most one unit in the last place above 100, and at
    most 100 when 100 times the total is below [2^53]. *)
Theorem rows_in_range
    (std_sort : (ProcSnapshot -> ProcSnapshot -> bool) ->
                list ProcSnapshot -> list ProcSnapshot)
    env st s st' fr (r : ProcSnapshot) :
  sort_contract std_sort ->
  tick std_sort env st s = Ok (st', fr) ->
  In r (table fr) ->
  is_u64 (Proc.utime r) /\ is_u64 (Proc.stime r) /\ is_u64 (Proc.rss r) /\
  (0 <= Proc.cpu_percent r)%Q /\
  (0 <= Proc.mem_percent r)%Q /\
  (Proc.rss r <= mem_total fr ->
     (Proc.mem_percent r <= 100 + Binary64.ulp_100)%Q /\
     (100 * mem_total fr < 2 ^ 53 -> (Proc.mem_percent r <= 100)%Q)).
Proof.
  intros Hc Ht Hr.
  destruct (tick_inv _ _ _ _ _ _ Ht) as (procs & Hfor & _ & _ & _ & Hmt & _ & Htab & _).
  rewrite Htab in Hr.
  apply (table_In std_sort (sort_by_cpu st) procs r Hc) in Hr.
  pose proof (sampled_row _ _ _ _ _ _ _ _ Hfor Hr) as Hs.
  apply sample_proc_inv in Hs as (cur & Hcur & _ & Hu & Hst & Hrss & Hcpu & Hmem).
  destruct (read_proc_inv _ _ _ _ Hcur) as (sf & Hsf & _ & Hu' & Hs' & Hr' & _).
  destruct (read_stat_range _ _ _ Hsf) as (R1 & R2 & R3).
  rewrite Hu, Hst, Hrss, Hu', Hs', Hr', Hcpu, Hmem, Hmt.
  assert (Hrss' : Proc.rss r = sf_rss sf) by congruence.
  split; [exact R1 |]. split; [exact R2 |]. split; [exact R3 |].
  split; [apply cpu_pct_nonneg |].
  unfold mem_pct_of. rewrite Hrss'.
  destruct (0 <? total_mem_kb_cache st) eqn:E.
  - apply Z.ltb_lt in E. split.
    + apply percent_nonneg; [apply R3 | lia].
    + intros Hle. apply percent_le_100; [| exact E].
      split; [apply R3 | exact Hle].
  - split; [apply Qle_refl |]. intros _.
    split; [vm_compute; discriminate | intros _; discriminate].
Qed.

Lemma rows_in_range_scenario_B :
  sort_contract (@insertion_sort ProcSnapshot) /\
  exists st' fr r,
    tick insertion_sort env0 state_B sample_B = Ok (st', fr) /\
    In r (table fr) /\ Proc.pid r = 42 /\
    is_u64 (Proc.utime r) /\ is_u64 (Proc.stime r) /\ is_u64 (Proc.rss r) /\
    (0 <= Proc.cpu_percent r)%Q /\
    (0 <= Proc.mem_percent r)%Q /\
    (Proc.rss r <= mem_total fr ->
       (Proc.mem_percent r <= 100 + Binary64.ulp_100)%Q /\
       (100 * mem_total fr < 2 ^ 53 -> (Proc.mem_percent r <= 100)%Q)).
Proof.
  split; [apply insertion_sort_contract |].
  eexists. eexists. eexists. split; [vm_compute; reflexivity |].
  split; [left; reflexivity |]. split; [reflexivity |].
  eapply (rows_in_range insertion_sort env0 state_B sample_B).
  - apply insertion_sort_contract.
  - vm_compute; reflexivity.
  - left; reflexivity.
Defined.

(** The bound of 100 does fail by rounding: a process whose rss is the
    whole memory, 23058430092137060 kB, shows a mem_percent one unit in
    the last place above 100. *)
Remark mem_percent_rounds_above_100 :
  let r := Proc.mk 1 "" "" 0 0 (4 * ticks_rounding) 0 0 in
  Proc.rss r <= 4 * ticks_rounding /\
  (mem_pct_of (4 * ticks_rounding) r == 100 + Binary64.ulp_100)%Q /\
  (100 < mem_pct_of (4 * ticks_rounding) r)%Q.
Proof. repeat split. vm_compute. discriminate. Qed.

(** ** The mapping a tick installs *)

Lemma install_from_Some (procs : list ProcSnapshot) (m : gmap Z ProcSnapshot) q p :
  fold_left (fun m p => <[Proc.pid p := p]> m) procs m !! q = Some p ->
  m !! q = Some p \/ (In p procs /\ Proc.pid p = q).
Proof.
  revert m. induction procs as [| x procs IH]; intros m H; cbn [fold_left] in H.
  { now left. }
  apply IH in H as [H | [H1 H2]].
  - destruct (decide (Proc.pid x = q)) as [E | E].
    + rewrite <- E, lookup_insert_eq in H. injection H as <-.
      right. split; [now left | exact E].
    + rewrite lookup_insert_ne in H by exact E. now left.
  - right. split; [now right | exact H2].
Qed.

Lemma install_Some (procs : list ProcSnapshot) q p :
  install procs !! q = Some p -> In p procs /\ Proc.pid p = q.
Proof.
  intros H. apply install_from_Some in H as [H | H]; [| exact H].
  rewrite lookup_empty in H. discriminate.
Qed.

(** X9: the mapping a completed tick installs sends the process id of
    every row of the tick's table to that very row, and holds nothing
    else: each of its entries is a row of the table, stored under the
    row's own process id. *)
Theorem prev_procs_hold_the_rows
    (std_sort : (ProcSnapshot -> ProcSnapshot -> bool) ->
                list ProcSnapshot -> list ProcSnapshot)
    env st s st' fr :
  sort_contract std_sort ->
  tick std_sort env st s = Ok (st', fr) ->
  (forall r, In r (table fr) -> prev_procs st' !! Proc.pid r = Some r) /\
  (forall q p, prev_procs st' !! q = Some p -> In p (table fr) /\ Proc.pid p = q).
Proof.
  intros Hc Ht.
  destruct (tick_inv _ _ _ _ _ _ Ht) as (procs & Hfor & _ & Hmap & _ & _ & _ & Htab & _).
  assert (Hin : forall r, In r (table fr) <-> In r procs).
  { intros r. rewrite Htab. apply (table_In std_sort (sort_by_cpu st) procs r Hc). }
  split.
  - intros r Hr. apply Hin in Hr.
    assert (Hs : is_Some (prev_procs st' !! Proc.pid r)).
    { rewrite Hmap, install_lookup. now apply in_map. }
    destruct Hs as [p Hp]. rewrite Hp. f_equal.
    rewrite Hmap in Hp. apply install_Some in Hp as [Hp1 Hp2].
    exact (sampled_row_unique _ _ _ _ _ _ _ _ _ Hfor Hp1 Hr Hp2).
  - intros q p Hp. rewrite Hmap in Hp. apply install_Some in Hp as [Hp1 Hp2].
    split; [now apply Hin | exact Hp2].
Qed.

Lemma prev_procs_hold_the_rows_scenario_B :
  sort_contract (@insertion_sort ProcSnapshot) /\
  exists st' fr,
    tick insertion_sort env0 state_B sample_B = Ok (st', fr) /\
    (forall r, In r (table fr) -> prev_procs st' !! Proc.pid r = Some r) /\
    (forall q p, prev_procs st' !! q = Some p -> In p (table fr) /\ Proc.pid p = q).
Proof.
  split; [apply insertion_sort_contract |].
  eexists. eexists. split; [vm_compute; reflexivity |].
  eapply (prev_procs_hold_the_rows insertion_sort env0 state_B sample_B).
  - apply insertion_sort_contract.
  - vm_compute; reflexivity.
Defined.

(** ** What holds between iterations *)

Lemma find_mem_total_range env (ls : list string) : is_u64 (find_mem_total env ls).
Proof.
  induction ls as [| line ls IH]; [now vm_compute |].
  cbn [find_mem_total]. destruct (starts_with "MemTotal:" line); [| exact IH].
  apply extract_after_label_range, indeterminate_u64.
Qed.

Lemma read_total_memory_kb_range env (meminfo : option string) :
  is_u64 (read_total_memory_kb env meminfo).
Proof.
  destruct meminfo as [file |]; [apply find_mem_total_range | now vm_compute].
Qed.

(** X10: the state built at startup from whatever [/proc/stat] and
    [/proc/meminfo] hold has in-range CPU counters, an in-range cached
    memory total and an empty process mapping. *)
Theorem startup_is_good env (stat meminfo : option string) :
  good_state (startup env (read_cpu_line stat) meminfo) /\
  prev_procs (startup env (read_cpu_line stat) meminfo) = ∅.
Proof.
  split; [| reflexivity]. constructor.
  - apply read_cpu_line_range.
  - apply read_total_memory_kb_range.
  - intros q p H. cbn [startup prev_procs] in H. rewrite lookup_empty in H. discriminate.
Qed.

(** X11: an iteration that completes on freshly read files keeps the state
    good; it replaces the CPU snapshot by the one just read and never
    touches the cached memory total or the sort flag. *)
Theorem tick_keeps_good
    (std_sort : (ProcSnapshot -> ProcSnapshot -> bool) ->
                list ProcSnapshot -> list ProcSnapshot)
    env st raw s st' fr :
  good_state st ->
  sample_of raw = Ok s ->
  tick std_sort env st s = Ok (st', fr) ->
  good_state st' /\
  prev_cpu st' = read_cpu_line (raw_stat raw) /\
  total_mem_kb_cache st' = total_mem_kb_cache st /\
  sort_by_cpu st' = sort_by_cpu st.
Proof.
  intros Hg Hs Ht.
  assert (Hcpu : cur_cpu s = read_cpu_line (raw_stat raw)).
  { unfold sample_of in Hs.
    destruct (list_pids (raw_proc_dir raw)); [| discriminate].
    cbn [bind] in Hs. now injection Hs as <-. }
  destruct (tick_inv _ _ _ _ _ _ Ht) as (procs & _ & Hc & Hmap & _).
  assert (Hrest : total_mem_kb_cache st' = total_mem_kb_cache st /\
                  sort_by_cpu st' = sort_by_cpu st).
  { unfold tick in Ht. destruct (for_each _ (pids s)); [| discriminate].
    cbn [bind] in Ht. injection Ht as <- _. now split. }
  destruct Hrest as [Hm Hsort].
  split; [| now rewrite Hc, Hcpu].
  constructor.
  - rewrite Hc, Hcpu. apply read_cpu_line_range.
  - rewrite Hm. apply (gs_mem _ Hg).
  - intros q p Hp. rewrite Hmap in Hp. now apply install_Some in Hp.
Qed.

Lemma tick_keeps_good_scenario_B :
  good_state state_B /\
  sample_of raw_B = Ok sample_B /\
  exists st' fr,
    tick insertion_sort env0 state_B sample_B = Ok (st', fr) /\
    good_state st' /\
    prev_cpu st' = read_cpu_line (raw_stat raw_B) /\
    total_mem_kb_cache st' = total_mem_kb_cache state_B /\
    sort_by_cpu st' = sort_by_cpu state_B.
Proof.
  assert (Hg : good_state state_B).
  { constructor.
    - vm_compute; intuition congruence.
    - vm_compute; intuition congruence.
    - intros q p Hp. unfold state_B in Hp. cbn [prev_procs] in Hp.
      apply lookup_insert_Some in Hp as [[<- <-] | [_ Hp]]; [reflexivity |].
      apply lookup_insert_Some in Hp as [[<- <-] | [_ Hp]]; [reflexivity |].
      rewrite lookup_empty in Hp. discriminate. }
  split; [exact Hg |]. split; [reflexivity |].
  eexists. eexists. split; [vm_compute; reflexivity |].
  eapply (tick_keeps_good insertion_sort env0 state_B raw_B sample_B).
  - exact Hg.
  - reflexivity.
  - vm_compute; reflexivity.
Defined.

(** ** Two consecutive ticks *)

Lemma installed_row
    (std_sort : (ProcSnapshot -> ProcSnapshot -> bool) ->
                list ProcSnapshot -> list ProcSnapshot)
    env st s st' fr r :
  sort_contract std_sort ->
  tick std_sort env st s = Ok (st', fr) ->
  In r (table fr) -> prev_procs st' !! Proc.pid r = Some r.
Proof.
  intros Hc Ht Hr.
  destruct (tick_inv _ _ _ _ _ _ Ht) as (procs & Hfor & _ & Hmap & _ & _ & _ & Htab & _).
  rewrite Htab in Hr. apply (table_In std_sort (sort_by_cpu st) procs r Hc) in Hr.
  assert (Hs : is_Some (prev_procs st' !! Proc.pid r)).
  { rewrite Hmap, install_lookup. now apply in_map. }
  destruct Hs as [p Hp]. rewrite Hp. f_equal.
  rewrite Hmap in Hp. apply install_Some in Hp as [Hp1 Hp2].
  exact (sampled_row_unique _ _ _ _ _ _ _ _ _ Hfor Hp1 Hr Hp2).
Qed.

(** X12: for a process that has a row in two consecutive completed ticks,
    the cpu_percent of the second row is computed against the first row
    and the first tick's CPU snapshot.  With CPU totals that do not wrap
    between the two snapshots, [t1] and [t2] the [utime + stime] of the
    two rows, both below [2^64], and [tot_diff] the difference of the
    totals, it is the binary64 value of
    [100.0 * (double)(t2 - t1) / (double)tot_diff] when [t1 <= t2] and
    [tot_diff > 0], and 0 when [t2 < t1] or [tot_diff = 0]; when
    [100 * (t2 - t1)] and [tot_diff] are below [2^53] that value is the
    exact quotient rounded to the nearest binary64 number. *)
Theorem cpu_percent_across_ticks
    (std_sort : (ProcSnapshot -> ProcSnapshot -> bool) ->
                list ProcSnapshot -> list ProcSnapshot)
    env st s1 st1 fr1 s2 st2 fr2 (r1 r2 : ProcSnapshot) :
  sort_contract std_sort ->
  tick std_sort env st s1 = Ok (st1, fr1) ->
  tick std_sort env st1 s2 = Ok (st2, fr2) ->
  In r1 (table fr1) -> In r2 (table fr2) ->
  Proc.pid r1 = Proc.pid r2 ->
  is_u64 (Cpu.sum (cur_cpu s1)) -> is_u64 (Cpu.sum (cur_cpu s2)) ->
  Cpu.sum (cur_cpu s1) <= Cpu.sum (cur_cpu s2) ->
  Proc.utime r1 + Proc.stime r1 < U64 ->
  Proc.utime r2 + Proc.stime r2 < U64 ->
  let tot_diff := Cpu.sum (cur_cpu s2) - Cpu.sum (cur_cpu s1) in
  let t1 := Proc.utime r1 + Proc.stime r1 in
  let t2 := Proc.utime r2 + Proc.stime r2 in
  let proc_diff := if t1 <=? t2 then t2 - t1 else 0 in
  Proc.cpu_percent r2 =
    (if 0 <? tot_diff then percent proc_diff tot_diff else 0%Q) /\
  (100 * proc_diff < 2 ^ 53 -> tot_diff < 2 ^ 53 ->
     (Proc.cpu_percent r2 ==
        if 0 <? tot_diff
        then Binary64.round (100 * inject_Z proc_diff / inject_Z tot_diff)
        else 0)%Q).
Proof.
  intros Hc Ht1 Ht2 Hr1 Hr2 Hpid HP HC Hle H1 H2 tot_diff t1 t2 proc_diff.
  pose proof (installed_row _ _ _ _ _ _ _ Hc Ht1 Hr1) as Hprev.
  destruct (rows_range _ _ _ _ _ _ _ Hc Ht1 Hr1) as (U1 & S1 & _).
  destruct (rows_range _ _ _ _ _ _ _ Hc Ht2 Hr2) as (U2 & S2 & _).
  destruct (tick_inv _ _ _ _ _ _ Ht1) as (procs1 & _ & Hcpu1 & _).
  destruct (tick_inv _ _ _ _ _ _ Ht2) as (procs & Hfor & _ & _ & _ & _ & _ & Htab & _).
  rewrite Htab in Hr2.
  apply (table_In std_sort (sort_by_cpu st1) procs r2 Hc) in Hr2.
  pose proof (sampled_row _ _ _ _ _ _ _ _ Hfor Hr2) as Hs.
  apply sample_proc_inv in Hs as (cur & _ & _ & _ & _ & _ & Hcpu & _).
  unfold cpu_pct_of in Hcpu. rewrite <- Hpid, Hprev in Hcpu.
  rewrite Hcpu1, (tot_diff_plain _ _ HP HC Hle) in Hcpu.
  assert (T1 : is_u64 (Proc.utime r1 + Proc.stime r1)) by (unfold is_u64 in *; lia).
  assert (T2 : is_u64 (Proc.utime r2 + Proc.stime r2)) by (unfold is_u64 in *; lia).
  rewrite (proc_time_diff_plain r1 r2 T1 T2) in Hcpu.
  fold tot_diff t1 t2 proc_diff in Hcpu.
  split; [exact Hcpu |].
  intros H53 Ht53. rewrite Hcpu.
  destruct (0 <? tot_diff) eqn:E; [| reflexivity].
  apply Z.ltb_lt in E.
  apply percent_rounds_once; [| exact H53 | lia].
  unfold proc_diff. destruct (t1 <=? t2) eqn:Ele; [| lia].
  apply Z.leb_le in Ele. lia.
Qed.

Lemma cpu_percent_across_ticks_scenario_B :
  sort_contract (@insertion_sort ProcSnapshot) /\
  (Proc.cpu_percent row_B2_42 == 1)%Q /\
  exists st1 fr1 st2 fr2,
    tick insertion_sort env0 state_B sample_B = Ok (st1, fr1) /\
    tick insertion_sort env0 st1 sample_B2 = Ok (st2, fr2) /\
    In row_B_42 (table fr1) /\ In row_B2_42 (table fr2) /\
    Proc.pid row_B_42 = Proc.pid row_B2_42 /\
    is_u64 (Cpu.sum (cur_cpu sample_B)) /\ is_u64 (Cpu.sum (cur_cpu sample_B2)) /\
    Cpu.sum (cur_cpu sample_B) <= Cpu.sum (cur_cpu sample_B2) /\
    Proc.utime row_B_42 + Proc.stime row_B_42 < U64 /\
    Proc.utime row_B2_42 + Proc.stime row_B2_42 < U64 /\
    let tot_diff := Cpu.sum (cur_cpu sample_B2) - Cpu.sum (cur_cpu sample_B) in
    let t1 := Proc.utime row_B_42 + Proc.stime row_B_42 in
    let t2 := Proc.utime row_B2_42 + Proc.stime row_B2_42 in
    let proc_diff := if t1 <=? t2 then t2 - t1 else 0 in
    Proc.cpu_percent row_B2_42 =
      (if 0 <? tot_diff then percent proc_diff tot_diff else 0%Q) /\
    (100 * proc_diff < 2 ^ 53 -> tot_diff < 2 ^ 53 ->
       (Proc.cpu_percent row_B2_42 ==
          if 0 <? tot_diff
          then Binary64.round (100 * inject_Z proc_diff / inject_Z tot_diff)
          else 0)%Q).
Proof.
  split; [apply insertion_sort_contract |].
  split; [reflexivity |].
  do 4 eexists.
  split; [vm_compute; reflexivity |].
  split; [vm_compute; reflexivity |].
  split; [left; reflexivity |].
  split; [left; reflexivity |].
  split; [reflexivity |].
  split; [vm_compute; intuition congruence |].
  split; [vm_compute; intuition congruence |].
  split; [vm_compute; congruence |].
  split; [reflexivity |].
  split; [reflexivity |].
  eapply (cpu_percent_across_ticks insertion_sort env0 state_B sample_B _ _
            sample_B2 _ _ row_B_42 row_B2_42).
  - apply insertion_sort_contract.
  - vm_compute; reflexivity.
  - vm_compute; reflexivity.
  - left; reflexivity.
  - left; reflexivity.
  - reflexivity.
  - vm_compute; intuition congruence.
  - vm_compute; intuition congruence.
  - vm_compute; congruence.
  - reflexivity.
  - reflexivity.
Defined.

(** ** The rows on the screen *)

Lemma draw_from_lookup (bound i : Z) (procs : list ProcSnapshot) (n : nat) line r :
  draw_from bound i procs !! n = Some (line, r) ->
  line = 3 + (i + Z.of_nat n) /\ procs !! n = Some r /\ i + Z.of_nat n < bound.
Proof.
  revert i n. induction procs as [| p rest IH]; intros i n H; cbn [draw_from] in H.
  { discriminate. }
  destruct (i <? bound) eqn:E; [| discriminate].
  apply Z.ltb_lt in E.
  destruct n as [| n]; cbn in H.
  - injection H as <- <-. repeat split; [f_equal; lia | lia].
  - apply IH in H as (H1 & H2 & H3).
    repeat split; [lia | exact H2 | lia].
Qed.

(** X13: the rows drawn are an initial part of the sorted table, in table
    order, on consecutive screen lines from line 3: the drawing at
    position [n] shows the table's row [n] on line [3 + n]. *)
Theorem drawn_rows_are_a_prefix (LINES : Z) (procs : list ProcSnapshot)
    (n : nat) (line : Z) (r : ProcSnapshot) :
  draw_rows LINES procs !! n = Some (line, r) ->
  line = 3 + Z.of_nat n /\ procs !! n = Some r.
Proof.
  intros H. apply draw_from_lookup in H as (H1 & H2 & _).
  split; [lia | exact H2].
Qed.

Lemma drawn_rows_are_a_prefix_example :
  draw_rows 7 [row 9 4 2; row 100 4 3; row 5 1 1] !! 1%nat = Some (4, row 100 4 3) /\
  4 = 3 + Z.of_nat 1 /\
  [row 9 4 2; row 100 4 3; row 5 1 1] !! 1%nat = Some (row 100 4 3).
Proof.
  assert (H : draw_rows 7 [row 9 4 2; row 100 4 3; row 5 1 1] !! 1%nat
              = Some (4, row 100 4 3)) by reflexivity.
  split; [exact H |].
  exact (drawn_rows_are_a_prefix 7 _ 1 4 _ H).
Defined.

(** ** The command column *)

Lemma replace_nul_lacks (s : string) : lacks NUL (replace_nul s).
Proof.
  unfold lacks. induction s as [| c s IH]; simpl; [tauto |].
  intros [H | H]; [| now apply IH].
  destruct (Ascii.eqb c NUL) eqn:E; [discriminate H |].
  apply Ascii.eqb_neq in E. congruence.
Qed.

(** X14: the command that [read_proc] stores never contains a NUL
    character, whatever the cmdline and comm files hold. *)
Theorem read_cmd_has_no_nul (fs : ProcFiles) : lacks NUL (read_cmd fs).
Proof.
  unfold read_cmd. destruct (f_cmdline fs) as [content |];
    [apply replace_nul_lacks | unfold lacks; simpl; tauto].
Qed.

(** ** Labelled lines *)

Lemma after_label_labelled (label : string) (sep : ascii) (w tail : string) :
  clean label -> isspace sep = true ->
  after_label (labelled label sep w tail) = String sep (w +:+ tail).
Proof.
  intros [Hne Hl] Hsep. unfold after_label, labelled.
  destruct label as [| c l]; [congruence |].
  assert (Hc : isspace c = false) by (apply Hl; now left).
  rewrite append_cons. cbn [skip_ws]. rewrite Hc. cbn [drop_word]. rewrite Hc.
  assert (Hl' : forall x, In x (list_ascii_of_string l) -> isspace x = false).
  { intros x Hx. apply Hl. now right. }
  clear Hl Hne Hc. induction l as [| x l IH].
  - rewrite append_nil_l. cbn [drop_word]. now rewrite Hsep.
  - rewrite append_cons. cbn [drop_word]. rewrite (Hl' x) by now left.
    apply IH. intros y Hy. apply Hl'. now right.
Qed.

Lemma starts_with_labelled (label : string) (sep : ascii) (w tail : string) :
  starts_with label (labelled label sep w tail) = true.
Proof.
  unfold labelled. induction label as [| c l IH]; [reflexivity |].
  rewrite append_cons. cbn [starts_with]. now rewrite Ascii.eqb_refl, IH.
Qed.

Lemma labelled_not_blank (label : string) (sep : ascii) (w tail : string) :
  clean label -> is_empty (skip_ws (labelled label sep w tail)) = false.
Proof.
  intros [Hne Hl]. unfold labelled.
  destruct label as [| c l]; [congruence |].
  assert (Hc : isspace c = false) by (apply Hl; now left).
  rewrite append_cons. cbn [skip_ws]. now rewrite Hc.
Qed.

(** On a line that carries a numeral after the label the variable gets
    the value of the numeral, whatever it held. *)
Lemma extract_labelled (M : Z) (label : string) (sep : ascii) (w tail : string)
    (cur : Z) :
  clean label -> isspace sep = true -> numeral_below M w -> stops tail ->
  extract_after_label M (labelled label sep w tail) cur = value w.
Proof.
  intros Hl Hsep [Hn Hv] Ht.
  rewrite extract_after_label_cases by now apply labelled_not_blank.
  rewrite (after_label_labelled _ _ _ _ Hl Hsep).
  cbn [skip_ws]. rewrite Hsep.
  destruct (numeral_head w Hn) as (c & s' & Hw & Hc & _).
  assert (Hskip : is_empty (skip_ws (w +:+ tail)) = false).
  { rewrite Hw, append_cons. cbn [skip_ws].
    now rewrite (isdigit_not_space c Hc). }
  rewrite Hskip, (extract_unsigned_space _ _ _ Hsep).
  now apply extract_unsigned_numeral.
Qed.

Lemma clean_Uid : clean "Uid:".
Proof.
  split; [discriminate |]. intros c Hc. simpl in Hc.
  repeat (destruct Hc as [<- | Hc]; [reflexivity |]). destruct Hc.
Qed.

Lemma clean_MemTotal : clean "MemTotal:".
Proof.
  split; [discriminate |]. intros c Hc. simpl in Hc.
  repeat (destruct Hc as [<- | Hc]; [reflexivity |]). destruct Hc.
Qed.

Lemma clean_MemAvailable : clean "MemAvailable:".
Proof.
  split; [discriminate |]. intros c Hc. simpl in Hc.
  repeat (destruct Hc as [<- | Hc]; [reflexivity |]). destruct Hc.
Qed.

Lemma clean_MemFree : clean "MemFree:".
Proof.
  split; [discriminate |]. intros c Hc. simpl in Hc.
  repeat (destruct Hc as [<- | Hc]; [reflexivity |]). destruct Hc.
Qed.

(** ** The user column (lines 82-86 and 140-151) *)

Lemma read_user_fold_none env (ls : list string) (user : string) :
  none_starts "Uid:" ls ->
  fold_left
    (fun user line =>
       if starts_with "Uid:" line
       then let real_uid := indeterminate env line mod U32 in
            uid_to_user env (extract_after_label U32 line real_uid)
       else user) ls user = user.
Proof.
  induction 1 as [| l ls Hl _ IH]; [reflexivity |].
  cbn [fold_left]. rewrite Hl. exact IH.
Qed.

(** X15: the user of a process comes from the last [Uid:] line of its
    status file: when that line is [Uid:], a white-space character and a
    numeral below [2^32], the user is the password-database name of that
    uid, or the uid in decimal when the database has no entry. *)
Theorem read_user_last_uid_line env (fs : ProcFiles) (file : string)
    (pre post : list string) (sep : ascii) (w tail : string) :
  f_status fs = Some file ->
  lines file = pre ++ labelled "Uid:" sep w tail :: post ->
  none_starts "Uid:" post ->
  isspace sep = true -> numeral_below U32 w -> stops tail ->
  read_user env fs =
    match getpwuid env (value w) with
    | Some name => name
    | None => pretty (value w)
    end.
Proof.
  intros Hf Hl Hpost Hsep Hw Ht. unfold read_user. rewrite Hf, Hl.
  rewrite fold_left_app. cbn [fold_left].
  rewrite (read_user_fold_none env post _ Hpost).
  rewrite starts_with_labelled. cbv zeta.
  now rewrite (extract_labelled U32 _ _ _ _ _ clean_Uid Hsep Hw Ht).
Qed.

Lemma read_user_last_uid_line_status :
  f_status files_status = Some status_file /\
  lines status_file
    = ["Name:	init"]%string
      ++ labelled "Uid:" TAB "1000" (String TAB "1000	1000	1000")
      :: ["Gid:	100	100	100	100"]%string /\
  none_starts "Uid:" ["Gid:	100	100	100	100"]%string /\
  isspace TAB = true /\ numeral_below U32 "1000" /\
  stops (String TAB "1000	1000	1000") /\
  read_user env0 files_status = "1000"%string.
Proof.
  assert (H1 : lines status_file
    = ["Name:	init"]%string
      ++ labelled "Uid:" TAB "1000" (String TAB "1000	1000	1000")
      :: ["Gid:	100	100	100	100"]%string) by reflexivity.
  assert (H2 : none_starts "Uid:" ["Gid:	100	100	100	100"]%string)
    by (repeat constructor).
  assert (H3 : numeral_below U32 "1000").
  { split; [split; [reflexivity | discriminate] | reflexivity]. }
  repeat (split; [first [reflexivity | exact H1 | exact H2 | exact H3] |]).
  rewrite (read_user_last_uid_line env0 files_status status_file _ _ TAB "1000"
             (String TAB "1000	1000	1000") eq_refl H1 H2 eq_refl H3 eq_refl).
  reflexivity.
Defined.

Lemma stoull_numeral (s : string) :
  numeral_below U64 s -> stoull s = Ok (value s).
Proof.
  intros [Hn Hv]. unfold stoull.
  pose proof (scan_int_numeral s EmptyString Hn I) as E.
  rewrite append_nil_r in E. rewrite E.
  apply Z.leb_gt in Hv. now rewrite Hv.
Qed.

Lemma stol_numeral (s : string) :
  numeral_below (LONG_MAX + 1) s -> stol s = Ok (value s).
Proof.
  intros [Hn Hv]. unfold stol.
  pose proof (scan_int_numeral s EmptyString Hn I) as E.
  rewrite append_nil_r in E. rewrite E.
  pose proof (value_nonneg s) as H0.
  assert (E1 : (value s <? LONG_MIN) = false).
  { apply Z.ltb_ge. unfold LONG_MIN. lia. }
  assert (E2 : (LONG_MAX <? value s) = false) by (apply Z.ltb_ge; lia).
  now rewrite E1, E2.
Qed.

(** X16: for a uid that the password database does not know, the user
    name is the uid written in decimal: digits only, and [stoull] reads
    the uid back from it. *)
Theorem uid_to_user_fallback env (uid : Z) :
  getpwuid env uid = None -> 0 <= uid < U64 ->
  is_number (uid_to_user env uid) = true /\
  stoull (uid_to_user env uid) = Ok uid.
Proof.
  intros Hpw [H0 Hmax]. unfold uid_to_user. rewrite Hpw.
  destruct (pretty_nonneg_numeral uid H0) as [Hn Hv].
  split; [apply Hn |].
  rewrite stoull_numeral; [now rewrite Hv |].
  split; [exact Hn | now rewrite Hv].
Qed.

Lemma uid_to_user_fallback_1000 :
  getpwuid env0 1000 = None /\ 0 <= 1000 < U64 /\
  is_number (uid_to_user env0 1000) = true /\
  stoull (uid_to_user env0 1000) = Ok 1000.
Proof.
  split; [reflexivity |]. split; [vm_compute; intuition congruence |].
  apply (uid_to_user_fallback env0 1000); [reflexivity | vm_compute; intuition congruence].
Defined.

(** ** The memory summary (lines 66-80 and 232-247) *)

Lemma find_mem_total_skip env (pre rest : list string) :
  none_starts "MemTotal:" pre ->
  find_mem_total env (pre ++ rest) = find_mem_total env rest.
Proof.
  induction 1 as [| l ls Hl _ IH]; [reflexivity |].
  cbn [app find_mem_total]. now rewrite Hl.
Qed.

(** A [MemTotal:] line with nothing after the label leaves [val] as it
    was: the total is whatever the variable held. *)
Remark mem_total_without_value env :
  read_total_memory_kb env (Some (unlines ["MemTotal:"; "MemFree: 300 kB"]%string))
    = indeterminate env "MemTotal:" mod U64 /\
  read_total_memory_kb env (Some (unlines ["MemTotal:   "; "MemTotal: 5 kB"]%string))
    = indeterminate env "MemTotal:   " mod U64 /\
  read_total_memory_kb env (Some (unlines ["MemTotal: kB"]%string)) = 0.
Proof. repeat split. Qed.

(** X17: [read_total_memory_kb] stops at the first [MemTotal:] line: when
    that line is [MemTotal:], a white-space character and a numeral below
    [2^64], the result is the value of the numeral, whatever the later
    lines are. *)
Theorem read_total_memory_first_line env (file : string) (pre post : list string)
    (sep : ascii) (w tail : string) :
  lines file = pre ++ labelled "MemTotal:" sep w tail :: post ->
  none_starts "MemTotal:" pre ->
  isspace sep = true -> numeral_below U64 w -> stops tail ->
  read_total_memory_kb env (Some file) = value w.
Proof.
  intros Hl Hpre Hsep Hw Ht. unfold read_total_memory_kb. rewrite Hl.
  rewrite (find_mem_total_skip _ _ _ Hpre). cbn [find_mem_total].
  rewrite starts_with_labelled.
  exact (extract_labelled U64 _ _ _ _ _ clean_MemTotal Hsep Hw Ht).
Qed.

Lemma read_total_memory_first_line_two_totals :
  lines meminfo_two_totals
    = [] ++ labelled "MemTotal:" SP "8000" " kB"
      :: ["MemFree: 2000 kB"; "MemTotal: 9 kB"; "MemAvailable: 5000 kB";
          "MemFree: 2500 kB"]%string /\
  none_starts "MemTotal:" [] /\
  isspace SP = true /\ numeral_below U64 "8000" /\ stops " kB" /\
  read_total_memory_kb env0 (Some meminfo_two_totals) = 8000.
Proof.
  assert (H1 : lines meminfo_two_totals
    = [] ++ labelled "MemTotal:" SP "8000" " kB"
      :: ["MemFree: 2000 kB"; "MemTotal: 9 kB"; "MemAvailable: 5000 kB";
          "MemFree: 2500 kB"]%string) by reflexivity.
  assert (H3 : numeral_below U64 "8000").
  { split; [split; [reflexivity | discriminate] | reflexivity]. }
  split; [exact H1 |]. split; [constructor |]. split; [reflexivity |].
  split; [exact H3 |]. split; [reflexivity |].
  exact (read_total_memory_first_line env0 meminfo_two_totals [] _ SP "8000" " kB"
           H1 ltac:(constructor) eq_refl H3 eq_refl).
Defined.

Lemma scan_fold_available env (ls : list string) (m : MemLines) :
  none_starts "MemAvailable:" ls ->
  mem_available
    (fold_left
       (fun m line =>
          let val := indeterminate env line mod U64 in
          if starts_with "MemAvailable:" line then
            {| mem_available := extract_after_label U64 line val;
               mem_free := mem_free m |}
          else if starts_with "MemFree:" line then
            {| mem_available := mem_available m;
               mem_free := extract_after_label U64 line val |}
          else m) ls m) = mem_available m.
Proof.
  intros H. revert m. induction H as [| l ls Hl _ IH]; intros m; [reflexivity |].
  cbn [fold_left]. etransitivity; [apply IH |]. cbv zeta. rewrite Hl.
  now destruct (starts_with "MemFree:" l).
Qed.

Lemma scan_fold_free env (ls : list string) (m : MemLines) :
  none_starts "MemFree:" ls ->
  mem_free
    (fold_left
       (fun m line =>
          let val := indeterminate env line mod U64 in
          if starts_with "MemAvailable:" line then
            {| mem_available := extract_after_label U64 line val;
               mem_free := mem_free m |}
          else if starts_with "MemFree:" line then
            {| mem_available := mem_available m;
               mem_free := extract_after_label U64 line val |}
          else m) ls m) = mem_free m.
Proof.
  intros H. revert m. induction H as [| l ls Hl _ IH]; intros m; [reflexivity |].
  cbn [fold_left]. etransitivity; [apply IH |]. cbv zeta. rewrite Hl.
  now destruct (starts_with "MemAvailable:" l).
Qed.

Lemma starts_with_other (w tail : string) (sep : ascii) :
  starts_with "MemAvailable:" (labelled "MemFree:" sep w tail) = false.
Proof. reflexivity. Qed.

(** X18: the per-tick scan of the memory summary lets the last matching
    line win: the available value is the numeral of the last
    [MemAvailable:] line and the free value the numeral of the last
    [MemFree:] line, when these lines are the label, a white-space
    character and a numeral below [2^64]. *)
Theorem scan_meminfo_last_lines env (file : string)
    (preA postA preF postF : list string)
    (sepA sepF : ascii) (wA tailA wF tailF : string) :
  lines file = preA ++ labelled "MemAvailable:" sepA wA tailA :: postA ->
  none_starts "MemAvailable:" postA ->
  isspace sepA = true -> numeral_below U64 wA -> stops tailA ->
  lines file = preF ++ labelled "MemFree:" sepF wF tailF :: postF ->
  none_starts "MemFree:" postF ->
  isspace sepF = true -> numeral_below U64 wF -> stops tailF ->
  scan_meminfo env (Some file)
    = {| mem_available := value wA; mem_free := value wF |}.
Proof.
  intros HlA HpA HsA HwA HtA HlF HpF HsF HwF HtF.
  assert (EA : mem_available (scan_meminfo env (Some file)) = value wA).
  { unfold scan_meminfo. rewrite HlA, fold_left_app. cbn [fold_left].
    rewrite (scan_fold_available _ _ _ HpA). cbv zeta.
    rewrite starts_with_labelled. cbn [mem_available].
    exact (extract_labelled U64 _ _ _ _ _ clean_MemAvailable HsA HwA HtA). }
  assert (EF : mem_free (scan_meminfo env (Some file)) = value wF).
  { unfold scan_meminfo. rewrite HlF, fold_left_app. cbn [fold_left].
    rewrite (scan_fold_free _ _ _ HpF). cbv zeta.
    rewrite starts_with_other, starts_with_labelled. cbn [mem_free].
    exact (extract_labelled U64 _ _ _ _ _ clean_MemFree HsF HwF HtF). }
  destruct (scan_meminfo env (Some file)) as [a f]. cbn in EA, EF. now subst.
Qed.

Lemma scan_meminfo_last_lines_two_totals :
  let ls := lines meminfo_two_totals in
  ls = ["MemTotal: 8000 kB"; "MemFree: 2000 kB"; "MemTotal: 9 kB"]%string
       ++ labelled "MemAvailable:" SP "5000" " kB" :: ["MemFree: 2500 kB"]%string /\
  ls = ["MemTotal: 8000 kB"; "MemFree: 2000 kB"; "MemTotal: 9 kB";
        "MemAvailable: 5000 kB"]%string
       ++ labelled "MemFree:" SP "2500" " kB" :: [] /\
  numeral_below U64 "5000" /\ numeral_below U64 "2500" /\
  scan_meminfo env0 (Some meminfo_two_totals)
    = {| mem_available := 5000; mem_free := 2500 |}.
Proof.
  intros ls.
  assert (HA : ls = ["MemTotal: 8000 kB"; "MemFree: 2000 kB"; "MemTotal: 9 kB"]%string
       ++ labelled "MemAvailable:" SP "5000" " kB" :: ["MemFree: 2500 kB"]%string)
    by reflexivity.
  assert (HF : ls = ["MemTotal: 8000 kB"; "MemFree: 2000 kB"; "MemTotal: 9 kB";
        "MemAvailable: 5000 kB"]%string
       ++ labelled "MemFree:" SP "2500" " kB" :: []) by reflexivity.
  assert (HwA : numeral_below U64 "5000").
  { split; [split; [reflexivity | discriminate] | reflexivity]. }
  assert (HwF : numeral_below U64 "2500").
  { split; [split; [reflexivity | discriminate] | reflexivity]. }
  repeat (split; [first [exact HA | exact HF | exact HwA | exact HwF] |]).
  exact (scan_meminfo_last_lines env0 meminfo_two_totals _ _ _ _ SP SP
           "5000" " kB" "2500" " kB"
           HA ltac:(repeat constructor) eq_refl HwA eq_refl
           HF ltac:(repeat constructor) eq_refl HwF eq_refl).
Defined.

(** ** The stat line of a command without white space *)

(** X19: when the first line of the stat file is at least 24 clean words
    joined by single spaces, words 14 and 15 are numerals below [2^64],
    word 24 is a numeral and its product with the page size in kB fits a
    [long], then [read_proc] takes utime from word 14, stime from word 15,
    and rss is word 24 times the page size in kB. *)
Theorem read_stat_of_words env (fs : ProcFiles) (file : string) (ws : list string) :
  f_stat fs = Some file ->
  getline LF file = join_spaces ws ->
  Forall clean ws ->
  (24 <= length ws)%nat ->
  numeral_below U64 (field ws 13) ->
  numeral_below U64 (field ws 14) ->
  numeral (field ws 23) ->
  1024 <= page_size env ->
  value (field ws 23) * (page_size env / 1024) <= LONG_MAX ->
  read_stat env fs
    = Ok {| sf_utime := value (field ws 13);
            sf_stime := value (field ws 14);
            sf_rss := value (field ws 23) * (page_size env / 1024) |}.
Proof.
  intros Hf Hline Hclean Hlen Hu Hs Hr Hpage Hprod.
  assert (Hkb : 1 <= page_size env / 1024).
  { apply Z.div_le_lower_bound; lia. }
  pose proof (value_nonneg (field ws 23)) as H0.
  assert (Hr' : numeral_below (LONG_MAX + 1) (field ws 23)).
  { split; [exact Hr |]. nia. }
  unfold read_stat. rewrite Hf, Hline, (tokens_join_spaces_words ws Hclean).
  apply Nat.leb_le in Hlen. rewrite Hlen.
  rewrite (stoull_numeral _ Hu), (stoull_numeral _ Hs), (stol_numeral _ Hr').
  cbn [bind]. rewrite wrap64_small; [reflexivity |].
  unfold is_u64, LONG_MAX in *. change U64 with (2 ^ 64). split; [nia | lia].
Qed.

Lemma read_stat_of_words_init :
  f_stat files_stat_words = Some (join_spaces stat_words +:+ String LF EmptyString) /\
  Forall clean stat_words /\
  (24 <= length stat_words)%nat /\
  read_stat env0 files_stat_words
    = Ok {| sf_utime := 20; sf_stime := 15; sf_rss := 50000 |}.
Proof.
  assert (Hc : Forall clean stat_words).
  { repeat constructor; try discriminate;
      intros c Hc; simpl in Hc;
      repeat (destruct Hc as [<- | Hc]; [reflexivity |]); destruct Hc. }
  split; [reflexivity |]. split; [exact Hc |]. split; [vm_compute; lia |].
  rewrite (read_stat_of_words env0 files_stat_words _ stat_words eq_refl eq_refl Hc).
  - reflexivity.
  - vm_compute; lia.
  - split; [split; [reflexivity | discriminate] | reflexivity].
  - split; [split; [reflexivity | discriminate] | reflexivity].
  - split; [reflexivity | discriminate].
  - vm_compute; congruence.
  - vm_compute; congruence.
Defined.

(** ** The polling loop (lines 316-329) *)

Lemma sleep_from_quiet (n : nat) (sort_by_cpu : bool) (kb : list Z) (done : Z) :
  Forall (fun c => wakes c = false) (firstn n kb) ->
  sleep_from n sort_by_cpu kb done
  = {| ending := Elapsed; slept_sort_by_cpu := sort_by_cpu;
       slept_kb := skipn n kb; naps := done + Z.of_nat n |}.
Proof.
  revert kb done. induction n as [| n IH]; intros kb done H.
  { cbn. now rewrite Z.add_0_r. }
  cbn [sleep_from]. destruct kb as [| c kb]; cbn [getch].
  - change (is_key ERR "q" "Q") with false. change (is_key ERR "s" "S") with false.
    change (is_key ERR "k" "K") with false. cbn iota.
    rewrite IH by (destruct n; constructor).
    rewrite Nat2Z.inj_succ. cbn [skipn]. destruct n; cbn [skipn]; f_equal; lia.
  - cbn [firstn] in H. inversion H as [| ? ? Hc Hrest]; subst.
    unfold wakes in Hc. apply orb_false_iff in Hc as [Hc Hk].
    apply orb_false_iff in Hc as [Hq Hs]. rewrite Hq, Hs, Hk.
    rewrite IH by exact Hrest. rewrite Nat2Z.inj_succ. cbn [skipn]. f_equal; lia.
Qed.

(** X20: when none of the next twenty key reads yields q, s or k (either
    case), the polling loop runs its full interval of twenty naps, leaves
    the sort flag alone and discards what it read, r and R included. *)
Theorem sleep_runs_full_interval (sort_by_cpu : bool) (kb : list Z) :
  Forall (fun c => wakes c = false) (firstn 20 kb) ->
  sleep sort_by_cpu kb
  = {| ending := Elapsed; slept_sort_by_cpu := sort_by_cpu;
       slept_kb := skipn 20 kb; naps := 20 |}.
Proof.
  intros H. unfold sleep.
  change (Z.to_nat (REFRESH_INTERVAL * 10)) with 20%nat.
  now rewrite sleep_from_quiet.
Qed.

Lemma sleep_runs_full_interval_r :
  Forall (fun c => wakes c = false) (firstn 20 [ERR; key "r"; ERR; key "x"]) /\
  sleep true [ERR; key "r"; ERR; key "x"]
  = {| ending := Elapsed; slept_sort_by_cpu := true; slept_kb := []; naps := 20 |}.
Proof.
  assert (H : Forall (fun c => wakes c = false) (firstn 20 [ERR; key "r"; ERR; key "x"]))
    by (repeat constructor).
  split; [exact H |].
  exact (sleep_runs_full_interval true _ H).
Defined.

Lemma sleep_from_woken (n : nat) (sort_by_cpu : bool) (pre : list Z) (c : Z)
    (post : list Z) (done : Z) :
  Forall (fun c => wakes c = false) pre ->
  wakes c = true ->
  (length pre < n)%nat ->
  sleep_from n sort_by_cpu (pre ++ c :: post) done
  = woken sort_by_cpu c post (done + Z.of_nat (length pre) + 1).
Proof.
  intros Hpre Hc. revert n done.
  induction Hpre as [| x pre Hx _ IH]; intros n done Hlen.
  - destruct n as [| n]; [cbn in Hlen; lia |].
    cbn [sleep_from app getch length]. unfold woken.
    unfold wakes in Hc.
    destruct (is_key c "q" "Q"); [f_equal; lia |].
    destruct (is_key c "s" "S"); [f_equal; lia |].
    cbn [orb] in Hc. rewrite Hc. unfold ungetch. f_equal; lia.
  - destruct n as [| n]; [cbn in Hlen; lia |].
    cbn [sleep_from app getch length].
    unfold wakes in Hx. apply orb_false_iff in Hx as [Hx Hk].
    apply orb_false_iff in Hx as [Hq Hs]. rewrite Hq, Hs, Hk.
    rewrite IH by (cbn in Hlen; lia).
    f_equal. rewrite Nat2Z.inj_succ. lia.
Qed.

(** X21: the polling loop ends at the first q, s or k (either case) among
    the next twenty key reads, after one nap per key read so far: q leaves
    for cleanup, s flips the sort flag, k is pushed back as a lower-case k
    in front of the keys that follow; earlier keys are discarded. *)
Theorem sleep_ends_at_first_waking_key (sort_by_cpu : bool) (pre : list Z) (c : Z)
    (post : list Z) :
  Forall (fun c => wakes c = false) pre ->
  wakes c = true ->
  (length pre < 20)%nat ->
  sleep sort_by_cpu (pre ++ c :: post)
  = woken sort_by_cpu c post (Z.of_nat (length pre) + 1).
Proof.
  intros Hpre Hc Hlen. unfold sleep.
  change (Z.to_nat (REFRESH_INTERVAL * 10)) with 20%nat.
  now rewrite (sleep_from_woken 20 sort_by_cpu pre c post 0 Hpre Hc Hlen).
Qed.

Lemma sleep_ends_at_first_waking_key_K :
  Forall (fun c => wakes c = false) [ERR; key "r"] /\
  wakes (key "K") = true /\
  (length [ERR; key "r"] < 20)%nat /\
  sleep true ([ERR; key "r"] ++ key "K" :: [key "9"])
  = {| ending := Break; slept_sort_by_cpu := true;
       slept_kb := [key "k"; key "9"]; naps := 3 |}.
Proof.
  assert (H : Forall (fun c => wakes c = false) [ERR; key "r"]) by (repeat constructor).
  split; [exact H |]. split; [reflexivity |]. split; [cbn; lia |].
  rewrite (sleep_ends_at_first_waking_key true [ERR; key "r"] (key "K") [key "9"]
             H eq_refl ltac:(cbn; lia)).
  reflexivity.
Defined.

Lemma sleep_from_break_same_sort (n : nat) (sort_by_cpu : bool) (kb : list Z) (done : Z) :
  ending (sleep_from n sort_by_cpu kb done) = Break ->
  slept_sort_by_cpu (sleep_from n sort_by_cpu kb done) = sort_by_cpu ->
  exists rest, slept_kb (sleep_from n sort_by_cpu kb done) = key "k" :: rest.
Proof.
  revert kb done. induction n as [| n IH]; intros kb done; cbn [sleep_from].
  { discriminate. }
  destruct (getch kb) as [c kb'].
  destruct (is_key c "q" "Q"); [discriminate |].
  destruct (is_key c "s" "S").
  { cbn. intros _ H. now destruct sort_by_cpu. }
  destruct (is_key c "k" "K"); [| apply IH].
  cbn. intros _ _. now exists kb'.
Qed.

(** X22: a break of the polling loop that leaves the sort flag as it was
    comes from k or K, and the key is not lost: the next key read, the one
    at the top of the main loop, returns a lower-case k and the loop
    enters the kill prompt. *)
Theorem sleep_hands_k_to_the_prompt (sort_by_cpu : bool) (kb : list Z) :
  ending (sleep sort_by_cpu kb) = Break ->
  slept_sort_by_cpu (sleep sort_by_cpu kb) = sort_by_cpu ->
  fst (getch (slept_kb (sleep sort_by_cpu kb))) = key "k" /\
  top_action (fst (getch (slept_kb (sleep sort_by_cpu kb)))) = KillPrompt.
Proof.
  unfold sleep. intros H1 H2.
  destruct (sleep_from_break_same_sort _ _ _ _ H1 H2) as [rest Hr].
  rewrite Hr. split; reflexivity.
Qed.

Lemma sleep_hands_k_to_the_prompt_K :
  ending (sleep false [ERR; key "K"]) = Break /\
  slept_sort_by_cpu (sleep false [ERR; key "K"]) = false /\
  fst (getch (slept_kb (sleep false [ERR; key "K"]))) = key "k" /\
  top_action (fst (getch (slept_kb (sleep false [ERR; key "K"])))) = KillPrompt.
Proof.
  split; [reflexivity |]. split; [reflexivity |].
  apply (sleep_hands_k_to_the_prompt false [ERR; key "K"]); reflexivity.
Defined.

(** ** The kill prompt (lines 202-214) *)

Lemma to_int_range (z : Z) : INT_MIN <= to_int z <= INT_MAX.
Proof.
  unfold to_int, INT_MIN, INT_MAX.
  pose proof (Z.mod_pos_bound (z + 2 ^ 31) (2 ^ 32) eq_refl). lia.
Qed.

Lemma atoi_range (s : string) : INT_MIN <= atoi s <= INT_MAX.
Proof.
  unfold atoi. destruct (scan_int s) as [[neg m] |]; [apply to_int_range |].
  unfold INT_MIN, INT_MAX. lia.
Qed.

(** X23: whatever is typed at the prompt, at most one signal is requested,
    it is SIGTERM, and its target is a process id between 1 and
    [INT_MAX]: never 0 or a negative id, which would address a process
    group or every process; no signal goes out exactly when the report is
    "Invalid PID". *)
Theorem kill_prompt_is_guarded (kill : Z -> Z -> option Z) (buf : string) :
  (length (fst (kill_prompt kill buf)) <= 1)%nat /\
  (forall pid sig, In (pid, sig) (fst (kill_prompt kill buf)) ->
     sig = SIGTERM /\ 1 <= pid <= INT_MAX) /\
  (fst (kill_prompt kill buf) = [] <-> snd (kill_prompt kill buf) = InvalidPid).
Proof.
  unfold kill_prompt. pose proof (atoi_range buf) as [_ Hmax].
  destruct (0 <? atoi buf) eqn:E.
  - apply Z.ltb_lt in E.
    destruct (kill (atoi buf) SIGTERM); cbn [fst snd length].
    all: split; [lia |]; split;
      [intros pid sig [[= <- <-] | []]; split; [reflexivity | lia]
      | split; discriminate].
  - cbn [fst snd length]. split; [lia |]. split; [intros ? ? [] | tauto].
Qed.

(** X24: when the typed text starts with a numeral of a value between 1
    and [INT_MAX], whatever follows the digits, exactly one SIGTERM is
    requested for that process id, and the report is "Sent" when [kill]
    succeeds and "Failed" with the errno otherwise. *)
Theorem kill_prompt_on_numeral (kill : Z -> Z -> option Z) (w tail : string) :
  numeral w -> stops tail -> 0 < value w <= INT_MAX ->
  kill_prompt kill (w +:+ tail)
  = ([(value w, SIGTERM)],
     match kill (value w) SIGTERM with
     | None => Sent (value w)
     | Some errno => Failed (value w) errno
     end).
Proof.
  intros Hn Ht [Hpos Hmax].
  assert (Ha : atoi (w +:+ tail) = value w).
  { unfold atoi. rewrite (scan_int_numeral _ _ Hn Ht).
    unfold to_int, LONG_MIN, LONG_MAX, INT_MAX in *.
    rewrite Z.min_r by lia. rewrite Z.max_r by lia.
    rewrite Z.mod_small by lia. lia. }
  unfold kill_prompt. rewrite Ha.
  apply Z.ltb_lt in Hpos. rewrite Hpos.
  now destruct (kill (value w) SIGTERM).
Qed.

Lemma kill_prompt_on_numeral_scenario_F :
  numeral "99999" /\ stops EmptyString /\ 0 < value "99999" <= INT_MAX /\
  kill_prompt kill_esrch "99999" = ([(99999, SIGTERM)], Failed 99999 3) /\
  report_text (Failed 99999 3)
  = "Failed to kill 99999 (errno 3). Press any key to continue..."%string.
Proof.
  assert (Hn : numeral "99999") by (split; [reflexivity | discriminate]).
  assert (Hv : 0 < value "99999" <= INT_MAX) by (vm_compute; intuition congruence).
  split; [exact Hn |]. split; [exact I |]. split; [exact Hv |].
  split; [| reflexivity].
  exact (kill_prompt_on_numeral kill_esrch "99999" EmptyString Hn I Hv).
Defined.

(** ** Processes that come back, and the rows of a listing *)

(** X25: a process that was not sampled in the previous completed tick
    shows a cpu_percent of 0 in the next one, whatever any earlier tick
    saw of it: no figure older than one tick is ever used. *)
Theorem absent_last_tick_shows_zero
    (std_sort : (ProcSnapshot -> ProcSnapshot -> bool) ->
                list ProcSnapshot -> list ProcSnapshot)
    env st s1 st1 fr1 s2 st2 fr2 (r : ProcSnapshot) :
  sort_contract std_sort ->
  tick std_sort env st s1 = Ok (st1, fr1) ->
  tick std_sort env st1 s2 = Ok (st2, fr2) ->
  In r (table fr2) ->
  ~ In (Proc.pid r) (pids s1) ->
  Proc.cpu_percent r = 0%Q.
Proof.
  intros Hc Ht1 Ht2 Hr Habs.
  destruct (tick_inv _ _ _ _ _ _ Ht1) as (procs1 & Hfor1 & _ & Hmap1 & _).
  destruct (tick_inv _ _ _ _ _ _ Ht2) as (procs & Hfor & _ & _ & _ & _ & _ & Htab & _).
  rewrite Htab in Hr. apply (table_In std_sort (sort_by_cpu st1) procs r Hc) in Hr.
  pose proof (sampled_row _ _ _ _ _ _ _ _ Hfor Hr) as Hs.
  apply sample_proc_inv in Hs as (_ & _ & _ & _ & _ & _ & Hcpu & _).
  assert (Hnone : prev_procs st1 !! Proc.pid r = None).
  { apply eq_None_not_Some.
    rewrite Hmap1, install_lookup, (sampled_pids _ _ _ _ _ _ _ Hfor1). exact Habs. }
  unfold cpu_pct_of in Hcpu. now rewrite Hnone in Hcpu.
Qed.

Lemma absent_last_tick_shows_zero_77 :
  sort_contract (@insertion_sort ProcSnapshot) /\
  let s2 := {| cur_cpu := cur_cpu sample_B2; meminfo := meminfo sample_B;
               pids := [77]; files := fun _ => live (stat_line "77" "gone" "9" "9" "1") "gone";
               LINES := 24 |} in
  is_Some (prev_procs state_B !! 77) /\
  exists st1 fr1 st2 fr2 r,
    tick insertion_sort env0 state_B sample_B = Ok (st1, fr1) /\
    tick insertion_sort env0 st1 s2 = Ok (st2, fr2) /\
    In r (table fr2) /\ Proc.pid r = 77 /\
    ~ In (Proc.pid r) (pids sample_B) /\
    Proc.cpu_percent r = 0%Q.
Proof.
  split; [apply insertion_sort_contract |].
  intros s2. split; [vm_compute; eauto |].
  do 5 eexists.
  split; [vm_compute; reflexivity |].
  split; [vm_compute; reflexivity |].
  split; [left; reflexivity |].
  split; [reflexivity |].
  assert (Habs : ~ In 77 (pids sample_B)).
  { cbn. intros [H | [H | []]]; discriminate H. }
  split; [exact Habs |].
  eapply (absent_last_tick_shows_zero insertion_sort env0 state_B sample_B _ _ s2).
  - apply insertion_sort_contract.
  - vm_compute; reflexivity.
  - vm_compute; reflexivity.
  - left; reflexivity.
  - exact Habs.
Defined.

Lemma scan_pids_Ok (entries : list dirent) (ps : list Z) :
  scan_pids entries = Ok ps ->
  ps = map (fun e => value (d_name e)) (List.filter numeric_dir entries).
Proof.
  revert ps. induction entries as [| e es IH]; intros ps H; cbn [scan_pids] in H.
  { now injection H as <-. }
  cbn [List.filter]. fold (numeric_dir e) in H.
  destruct (numeric_dir e) eqn:E; [| now apply IH].
  destruct (stoi (d_name e)) as [pid |] eqn:Es; [| discriminate].
  destruct (scan_pids es) as [ps' |]; [| discriminate].
  cbn [bind] in H. injection H as <-. cbn [map]. rewrite (IH ps' eq_refl).
  f_equal.
  destruct (string_dec (d_name e) EmptyString) as [Hem | Hne].
  { rewrite Hem in Es. discriminate. }
  assert (Hn : numeral (d_name e)).
  { split; [| exact Hne]. unfold numeric_dir in E.
    now apply andb_true_iff in E as [_ E]. }
  rewrite (stoi_numeral _ Hn) in Es.
  destruct (INT_MAX <? value (d_name e)); [discriminate |]. now injection Es.
Qed.

(** X26: in an iteration that completes, the table has one row for each
    directory of [/proc] with an all-digit name and no other row: the
    process ids of its rows are, up to order, the values of those names.
    A process whose files cannot be read still has its row. *)
Theorem one_row_per_numeric_directory
    (std_sort : (ProcSnapshot -> ProcSnapshot -> bool) ->
                list ProcSnapshot -> list ProcSnapshot)
    env st raw (entries : list dirent) s st' fr :
  sort_contract std_sort ->
  raw_proc_dir raw = Some entries ->
  sample_of raw = Ok s ->
  tick std_sort env st s = Ok (st', fr) ->
  Permutation (map Proc.pid (table fr))
              (map (fun e => value (d_name e)) (List.filter numeric_dir entries)).
Proof.
  intros Hc Hdir Hs Ht.
  assert (Hpids : pids s = map (fun e => value (d_name e)) (List.filter numeric_dir entries)).
  { unfold sample_of in Hs. rewrite Hdir in Hs. cbn [list_pids] in Hs.
    destruct (scan_pids entries) as [ps |] eqn:E; [| discriminate].
    cbn [bind] in Hs. injection Hs as <-. exact (scan_pids_Ok _ _ E). }
  destruct (tick_inv _ _ _ _ _ _ Ht) as (procs & Hfor & _ & _ & _ & _ & _ & Htab & _).
  rewrite <- Hpids, <- (sampled_pids _ _ _ _ _ _ _ Hfor), Htab.
  apply Permutation_map.
  exact (proj1 (Hc _ (comparator_strict_weak (sort_by_cpu st)) procs)).
Qed.

Lemma one_row_per_numeric_directory_B :
  sort_contract (@insertion_sort ProcSnapshot) /\
  raw_proc_dir raw_B = Some listing_B /\
  sample_of raw_B = Ok sample_B /\
  map (fun e => value (d_name e)) (List.filter numeric_dir listing_B) = [42; 101] /\
  exists st' fr,
    tick insertion_sort env0 state_B sample_B = Ok (st', fr) /\
    Permutation (map Proc.pid (table fr))
      (map (fun e => value (d_name e)) (List.filter numeric_dir listing_B)).
Proof.
  split; [apply insertion_sort_contract |].
  do 3 (split; [reflexivity |]).
  eexists. eexists. split; [vm_compute; reflexivity |].
  eapply (one_row_per_numeric_directory insertion_sort env0 state_B raw_B
            listing_B sample_B).
  - apply insertion_sort_contract.
  - reflexivity.
  - reflexivity.
  - vm_compute; reflexivity.
Defined.
